(** * The e-commerce recommendation demo (src/2.cpp): similarity index,
      customer segmentation and the recommendation waterfall.

    The C++ classes [ProductAgent], [SegmentationAgent] and
    [RecommendationAgent] are embedded as functions over explicit state,
    and so are the writes of [CustomerAgent] and, from the farming demo
    that follows in the same file, the forecast of [WeatherAgent].

    - [double] is the kernel's binary64 type [float] (IEEE 754, round to
      nearest even), so [0/0] is a NaN exactly as on the machine.
    - [int] and [size_t] values are [Z]; every value that occurs stays far
      from the wrap-around, which is noted where it matters.
    - A [std::vector] is a [list]; an access outside its range has no defined
      behaviour in C++ and is the outcome [Undefined] here.
    - The SQLite store is a record of tables; each SQL text the code sends is
      a function over those tables (identifiers are taken to be plain
      literals, as the code splices them between quotes unescaped).
    - A [std::map<string, string>] is a [gmap string string].
    - What the code takes from outside is a parameter: [std::hash] and
      [std::stod] as functions, [rand()] and the random engine as the
      sequence of their values, the clock as the texts it yields. *)

From Stdlib Require Import ZArith QArith Lia.
From Stdlib Require Import Floats Uint63.
From stdpp Require Import base list strings sorting gmap pretty.

Open Scope Z_scope.

(** ** Outcomes of a C++ call *)

Inductive outcome (A : Type) : Type :=
| Returned (a : A)
| Undefined.
Arguments Returned {A} a.
Arguments Undefined {A}.

Definition obind {A B} (m : outcome A) (k : A -> outcome B) : outcome B :=
  match m with
  | Returned a => k a
  | Undefined => Undefined
  end.

Notation "x <-- m ;; k" := (obind m (fun x => k))
  (at level 100, m at next level, right associativity).

(** [v.empty()] *)
Definition vector_empty {A} (v : list A) : bool :=
  match v with [] => true | _ => false end.

(** [v[i]] on a vector, for a signed or unsigned index. *)
Definition at_index {A} (v : list A) (i : Z) : outcome A :=
  if i <? 0 then Undefined
  else match v !! Z.to_nat i with
       | Some x => Returned x
       | None => Undefined
       end.

Global Instance float_inhabited : Inhabited float := populate 0%float.

(** ** <numeric>: std::inner_product and std::iota *)

(** [std::inner_product(first1, last1, first2, init)]: the accumulator walks
    the first range; the second range is read at the same offsets, so it has
    to be at least as long. *)
Fixpoint inner_product (u v : list float) (init : float) : outcome float :=
  match u, v with
  | [], _ => Returned init
  | x :: u', y :: v' => inner_product u' v' (init + x * y)%float
  | _ :: _, [] => Undefined
  end.

(** [std::iota(first, last, 0)] over a vector of [n] elements. *)
Definition iota (n : nat) : list Z := Z.of_nat <$> seq 0 n.

(** ** <algorithm>: std::partial_sort

    The library routine is not part of the repository.  It is modelled after
    the GNU implementation (bits/stl_heap.h and bits/stl_algo.h):
    [__heap_select] builds a heap over [first, middle) and sifts every later
    element that compares before the top into it, then [__sort_heap] unwinds
    the heap.  Offsets are the signed [_Distance] (a [Z]; [/] truncates
    towards zero, which is [Z.quot]). *)

Section Heap.
Context {A : Type} `{Inhabited A}.
Variable comp : A -> A -> bool.

Definition rd (a : list A) (i : Z) : A := a !!! Z.to_nat i.
Definition wr (a : list A) (i : Z) (x : A) : list A := <[Z.to_nat i := x]> a.

(** [__push_heap(first, holeIndex, topIndex, value, comp)].  The hole
    moves to its parent while the parent compares before [value]; the hole
    index strictly decreases, so [fuel = holeIndex] steps always reach the
    exit test. *)
Fixpoint push_heap_loop (fuel : nat) (a : list A)
    (holeIndex topIndex : Z) (value : A) : list A :=
  let parent := (holeIndex - 1) ÷ 2 in
  match fuel with
  | O => wr a holeIndex value
  | S fuel' =>
      if (topIndex <? holeIndex) && comp (rd a parent) value
      then push_heap_loop fuel' (wr a holeIndex (rd a parent))
                          parent topIndex value
      else wr a holeIndex value
  end.

Definition push_heap (a : list A) (holeIndex topIndex : Z) (value : A)
    : list A :=
  push_heap_loop (Z.to_nat holeIndex) a holeIndex topIndex value.

(** The [while (secondChild < (len - 1) / 2)] loop of [__adjust_heap]:
    the hole sinks to the child that does not compare before its sibling.
    At the loop head [holeIndex = secondChild]. *)
Fixpoint adjust_heap_loop (fuel : nat) (a : list A)
    (holeIndex secondChild len : Z) : list A * Z * Z :=
  match fuel with
  | O => (a, holeIndex, secondChild)
  | S fuel' =>
      if secondChild <? (len - 1) ÷ 2 then
        let secondChild := 2 * (secondChild + 1) in
        let secondChild :=
          if comp (rd a secondChild) (rd a (secondChild - 1))
          then secondChild - 1 else secondChild in
        adjust_heap_loop fuel' (wr a holeIndex (rd a secondChild))
                         secondChild secondChild len
      else (a, holeIndex, secondChild)
  end.

(** [__adjust_heap(first, holeIndex, len, value, comp)]. *)
Definition adjust_heap (a : list A) (holeIndex len : Z) (value : A)
    : list A :=
  let topIndex := holeIndex in
  let '(a, holeIndex, secondChild) :=
    adjust_heap_loop (Z.to_nat len) a holeIndex holeIndex len in
  let '(a, holeIndex) :=
    if (Z.land len 1 =? 0) && (secondChild =? (len - 2) ÷ 2) then
      let secondChild := 2 * (secondChild + 1) in
      (wr a holeIndex (rd a (secondChild - 1)), secondChild - 1)
    else (a, holeIndex) in
  push_heap a holeIndex topIndex value.

(** [__pop_heap(first, last, result, comp)] with [first] at offset 0,
    [last] at offset [last] and [result] at offset [result]. *)
Definition pop_heap (a : list A) (last result : Z) : list A :=
  let value := rd a result in
  let a := wr a result (rd a 0) in
  adjust_heap a 0 last value.

(** [__make_heap(first, last, comp)] with [len = last - first]. *)
Fixpoint make_heap_loop (fuel : nat) (a : list A) (parent len : Z)
    : list A :=
  match fuel with
  | O => a
  | S fuel' =>
      let value := rd a parent in
      let a := adjust_heap a parent len value in
      if parent =? 0 then a
      else make_heap_loop fuel' a (parent - 1) len
  end.

Definition make_heap (a : list A) (len : Z) : list A :=
  if len <? 2 then a
  else let parent := (len - 2) ÷ 2 in
       make_heap_loop (S (Z.to_nat parent)) a parent len.

(** The [for (i = middle; i < last; ++i)] loop of [__heap_select]. *)
Fixpoint heap_select_loop (fuel : nat) (a : list A) (middle i : Z)
    : list A :=
  match fuel with
  | O => a
  | S fuel' =>
      let a := if comp (rd a i) (rd a 0) then pop_heap a middle i else a in
      heap_select_loop fuel' a middle (i + 1)
  end.

Definition heap_select (a : list A) (middle : Z) : list A :=
  let a := make_heap a middle in
  heap_select_loop (length a - Z.to_nat middle) a middle middle.

(** [__sort_heap(first, last, comp)]: [while (last - first > 1)]. *)
Fixpoint sort_heap (fuel : nat) (a : list A) (last : Z) : list A :=
  match fuel with
  | O => a
  | S fuel' =>
      if 1 <? last then
        let last := last - 1 in
        sort_heap fuel' (pop_heap a last last) last
      else a
  end.

(** [std::partial_sort(v.begin(), v.begin() + middle, v.end(), comp)].
    [middle] has to lie inside [first, last]; otherwise the call has no
    defined behaviour. *)
Definition partial_sort (a : list A) (middle : Z) : outcome (list A) :=
  if (middle <? 0) || (Z.of_nat (length a) <? middle) then Undefined
  else
    let a := heap_select a middle in
    Returned (sort_heap (Z.to_nat middle) a middle).
End Heap.


(** ** The store (the four tables of [initializeDatabase])

    Only the columns the modelled queries read are kept.  A table is the list
    of its rows in scan order.  [popularity_score] is a REAL column; a stored
    finite value is a rational.

    The code builds every statement by concatenation.  A query below is
    what SQLite returns for the text the code builds when the values
    spliced into it hold no apostrophe ([sql_literal] further down) and the
    stored timestamps are texts of the clock's format ([timestamp_format]);
    the theorems that need it say so.  Rows that an ORDER BY leaves equal
    come in an order of the engine's choosing; here it is the order
    [merge_sort] leaves, and no theorem below relies on it. *)

Record customer_row := {
  c_customer_id : string;
  c_segment : string;
  c_preferences : string }.

Record product_row := {
  p_product_id : string;
  p_name : string;
  p_description : string;
  p_tags : string;
  p_popularity_score : Q }.

Record interaction_row := {
  i_customer_id : string;
  i_product_id : string;
  i_timestamp : string }.

Record purchase_row := {
  pu_customer_id : string;
  pu_product_id : string }.

Record Database := {
  customers : list customer_row;
  products : list product_row;
  interactions : list interaction_row;
  purchases : list purchase_row }.

(** [LIMIT n]: SQLite reads a negative bound as "no bound". *)
Definition sql_limit {A} (n : Z) (rows : list A) : list A :=
  if n <? 0 then rows else take (Z.to_nat n) rows.

(** [ORDER BY popularity_score DESC]. *)
Definition by_popularity_desc (p q : product_row) : Prop :=
  Qle_bool (p_popularity_score q) (p_popularity_score p) = true.

Global Instance by_popularity_desc_dec : RelDecision by_popularity_desc.
Proof. intros p q. unfold by_popularity_desc. apply _. Defined.

(** [ORDER BY timestamp DESC]: the column is declared TIMESTAMP, which
    gives it numeric affinity; a text of the clock's format is no number, so
    it is stored as the text it is, and such texts are compared bytewise. *)
Definition by_timestamp_desc (r s : interaction_row) : Prop :=
  String.le (i_timestamp s) (i_timestamp r).

Global Instance by_timestamp_desc_dec : RelDecision by_timestamp_desc.
Proof. intros r s. unfold by_timestamp_desc. apply _. Defined.

(** [ORDER BY COUNT(pu.purchase_id) DESC] over (product_id, count) groups. *)
Definition by_count_desc (g h : string * nat) : Prop := (h.2 <= g.2)%nat.

Global Instance by_count_desc_dec : RelDecision by_count_desc.
Proof. intros g h. unfold by_count_desc. apply _. Defined.

(** "SELECT product_id, name, description, tags FROM products" *)
Definition select_products (db : Database) : list product_row := products db.

(** "SELECT segment, preferences FROM customers WHERE customer_id = '..'" *)
Definition select_profile (db : Database) (customerId : string)
    : list customer_row :=
  filter (fun c => c_customer_id c = customerId) (customers db).

(** "SELECT product_id FROM interactions WHERE customer_id = '..'
     ORDER BY timestamp DESC LIMIT limit" *)
Definition select_recent_interactions (db : Database) (customerId : string)
    (limit : Z) : list string :=
  i_product_id <$>
    sql_limit limit
      (merge_sort by_timestamp_desc
         (filter (fun r => i_customer_id r = customerId) (interactions db))).

(** "SELECT p.product_id FROM products p JOIN purchases pu ON .. JOIN
     customers c ON .. WHERE c.segment = '..' GROUP BY p.product_id
     ORDER BY COUNT(pu.purchase_id) DESC LIMIT topN" *)
Definition segment_purchase_count (db : Database) (segment : string)
    (productId : string) : nat :=
  length
    (filter
       (fun pu =>
          pu_product_id pu = productId /\
          Exists (fun c => c_customer_id c = pu_customer_id pu /\
                           c_segment c = segment) (customers db))
       (purchases db)).

Definition select_segment_ranking (db : Database) (segment : string)
    (topN : Z) : list string :=
  fst <$>
    sql_limit topN
      (merge_sort by_count_desc
         (filter (fun g => (0 < g.2)%nat)
            ((fun p => (p_product_id p,
                        segment_purchase_count db segment (p_product_id p)))
               <$> products db))).

(** "SELECT product_id FROM products ORDER BY popularity_score DESC
     LIMIT topN" *)
Definition select_by_popularity (db : Database) (topN : Z) : list string :=
  p_product_id <$> sql_limit topN (merge_sort by_popularity_desc (products db)).

(** ** class ProductAgent *)

Record ProductAgent := {
  productIds : list string;
  productVectors : list (list float) }.

(** A [size_t] below 2^63 converted to [double]. *)
Definition double_of_size_t (n : Z) : float := PrimFloat.of_uint63 (Uint63.of_Z n).

Section ProductAgent.
(** [std::hash<std::string>]: some fixed function of the text; its value
    is reduced to the 64 bits of [size_t]. *)
Variable hasher : string -> Z.

Definition createTextVector (text : string) : list float :=
  let vector := replicate 128 0%float in
  let hash := hasher text mod 2 ^ 64 in
  foldl (fun vector i =>
           <[Z.to_nat i := (double_of_size_t (hash mod (i + 1)) / 100)%float]>
             vector)
        vector (iota (length vector)).

(** [productIds.clear(); productVectors.clear();] *)
Definition clear_vectors (self : ProductAgent) : ProductAgent :=
  {| productIds := []; productVectors := [] |}.

(** [prepareProductVectors]: both vectors are cleared, then refilled from
    the query result. *)
Definition prepareProductVectors (db : Database) (self : ProductAgent)
    : ProductAgent :=
  let cleared := clear_vectors self in
  foldl (fun self product =>
           let text := (p_name product +:+ " " +:+ p_description product
                          +:+ " " +:+ p_tags product)%string in
           {| productIds := productIds self ++ [p_product_id product];
              productVectors :=
                productVectors self ++ [createTextVector text] |})
        cleared (select_products db).
End ProductAgent.

Fixpoint calculateSimilarities_loop (vec : list float)
    (others : list (list float)) (similarities : list float)
    : outcome (list float) :=
  match others with
  | [] => Returned similarities
  | otherVec :: others' =>
      dot <-- inner_product vec otherVec 0%float ;;
      n1 <-- inner_product vec vec 0%float ;;
      n2 <-- inner_product otherVec otherVec 0%float ;;
      let norm1 := PrimFloat.sqrt n1 in
      let norm2 := PrimFloat.sqrt n2 in
      calculateSimilarities_loop vec others'
        (similarities ++ [(dot / (norm1 * norm2))%float])
  end.

Definition calculateSimilarities (self : ProductAgent) (vec : list float)
    : outcome (list float) :=
  calculateSimilarities_loop vec (productVectors self) [].

(** The comparator handed to [partial_sort]:
    [similarities[a] > similarities[b]].  It is only ever applied to
    elements of [indices], which are positions of [similarities]. *)
Definition by_similarity_desc (similarities : list float) (a b : Z) : bool :=
  match similarities !! Z.to_nat a, similarities !! Z.to_nat b with
  | Some sa, Some sb => PrimFloat.ltb sb sa
  | _, _ => false
  end.

(** The result loop visits positions [0 .. min(topN, indices.size()) - 1],
    which are the elements of [take topN indices]. *)
Definition collect_similar (ids : list string) (idx : Z) (visited : list Z)
    : outcome (list string) :=
  foldl (fun acc ix =>
           result <-- acc ;;
           if ix =? idx then Returned result
           else id <-- at_index ids ix ;; Returned (result ++ [id]))
        (Returned []) visited.

(** [it + n] on an iterator at offset [pos] of a vector of [size] elements:
    the result has to stay inside [begin(), end()]. *)
Definition iterator_plus (size : nat) (pos n : Z) : outcome Z :=
  if (pos + n <? 0) || (Z.of_nat size <? pos + n) then Undefined
  else Returned (pos + n).

Definition getSimilarProducts (self : ProductAgent) (productId : string)
    (topN : Z) : outcome (list string) :=
  if vector_empty (productVectors self) || vector_empty (productIds self)
  then Returned []
  else
    match list_find (fun id => id = productId) (productIds self) with
    | None => Returned []
    | Some (i, _) =>
        let idx := Z.of_nat i in
        vec <-- at_index (productVectors self) idx ;;
        similarities <-- calculateSimilarities self vec ;;
        let indices := iota (length similarities) in
        (* indices.begin() + topN + 1 *)
        middle <-- iterator_plus (length indices) 0 topN ;;
        middle <-- iterator_plus (length indices) middle 1 ;;
        indices <-- partial_sort (by_similarity_desc similarities) indices
                                 middle ;;
        collect_similar (productIds self) idx (take (Z.to_nat topN) indices)
    end.

(** ** class SegmentationAgent: simpleKMeans *)

(** [numeric_limits<double>::max()] *)
Definition DBL_MAX : float := PrimFloat.next_down PrimFloat.infinity.

(** The inner [for d] loop: [distance += pow(point[d] - centroid[d], 2)].
    [pow(x, 2)] is taken as the correctly rounded square [x * x], which is
    what GCC emits for it when it optimises; the [pow] of a C library may
    differ from it in the last place.  The centroid is read at every offset
    of the point. *)
Fixpoint squared_distance (point centroid : list float) (distance : float)
    : outcome float :=
  match point, centroid with
  | [], _ => Returned distance
  | x :: point', c :: centroid' =>
      squared_distance point' centroid'
        (distance + (x - c) * (x - c))%float
  | _ :: _, [] => Undefined
  end.

(** The [for (int j = 0; j < k; j++)] loop, with [n] turns left: the first
    centroid at the least distance wins, and a distance that is not below
    [DBL_MAX] never does. *)
Fixpoint nearest_loop (n : nat) (point : list float)
    (centroids : list (list float)) (j bestCluster : Z) (bestDistance : float)
    : outcome Z :=
  match n with
  | O => Returned bestCluster
  | S n' =>
      centroid <-- at_index centroids j ;;
      distance <-- squared_distance point centroid 0%float ;;
      if PrimFloat.ltb distance bestDistance
      then nearest_loop n' point centroids (j + 1) j distance
      else nearest_loop n' point centroids (j + 1) bestCluster bestDistance
  end.

Definition nearest (point : list float) (centroids : list (list float))
    (k : Z) : outcome Z :=
  nearest_loop (Z.to_nat k) point centroids 0 0 DBL_MAX.

(** The assignment pass over all points; [changed] records whether some
    [clusters[i]] was overwritten with a different value. *)
Fixpoint assign_loop (features : list (list float)) (clusters : list Z)
    (centroids : list (list float)) (k : Z) : outcome (list Z * bool) :=
  match features, clusters with
  | point :: features', c :: clusters' =>
      bestCluster <-- nearest point centroids k ;;
      rest <-- assign_loop features' clusters' centroids k ;;
      let '(clusters'', changed) := rest in
      Returned (bestCluster :: clusters'',
                negb (c =? bestCluster) || changed)
  | [], _ => Returned (clusters, false)
  | _ :: _, [] => Undefined
  end.

(** [newCentroids[c][d] += point[d]] for every offset of the point. *)
Fixpoint add_point (row point : list float) : outcome (list float) :=
  match point, row with
  | [], _ => Returned row
  | x :: point', r :: row' =>
      row'' <-- add_point row' point' ;;
      Returned ((r + x)%float :: row'')
  | _ :: _, [] => Undefined
  end.

(** The accumulation loop of the centroid update. *)
Fixpoint accumulate (features : list (list float)) (clusters : list Z)
    (newCentroids : list (list float)) (counts : list Z)
    : outcome (list (list float) * list Z) :=
  match features, clusters with
  | point :: features', c :: clusters' =>
      row <-- at_index newCentroids c ;;
      row <-- add_point row point ;;
      n <-- at_index counts c ;;
      accumulate features' clusters'
        (<[Z.to_nat c := row]> newCentroids) (<[Z.to_nat c := n + 1]> counts)
  | [], _ => Returned (newCentroids, counts)
  | _ :: _, [] => Undefined
  end.

(** [newCentroids[j][d] /= counts[j]] where [counts[j] > 0]. *)
Definition divide_row (row : list float) (count : Z) : list float :=
  if 0 <? count
  then (fun x => (x / double_of_size_t count)%float) <$> row
  else row.

(** The "Update centroids" block.  [newCentroids] starts from zero vectors of
    the dimension of [features[0]]; the previous centroids are not read. *)
Definition update_centroids (features : list (list float))
    (clusters : list Z) (k : Z) : outcome (list (list float)) :=
  let dim := length (default [] (head features)) in
  let newCentroids := replicate (Z.to_nat k) (replicate dim 0%float) in
  let counts := replicate (Z.to_nat k) 0 in
  acc <-- accumulate features clusters newCentroids counts ;;
  let '(newCentroids, counts) := acc in
  Returned (zip_with divide_row newCentroids counts).

(** One turn of the [do { .. } while (changed)] body. *)
Record kmeans_state := {
  clusters : list Z;
  centroids : list (list float) }.

Definition kmeans_pass (features : list (list float)) (k : Z)
    (s : kmeans_state) : outcome (kmeans_state * bool) :=
  r <-- assign_loop features (clusters s) (centroids s) k ;;
  let '(clusters', changed) := r in
  centroids' <-- update_centroids features clusters' k ;;
  Returned ({| clusters := clusters'; centroids := centroids' |}, changed).

(** The loop itself.  It has no bound in the source, so the model carries a
    pass budget: [None] says the loop is still running after [fuel] passes. *)
Fixpoint kmeans_loop (fuel : nat) (features : list (list float)) (k : Z)
    (s : kmeans_state) : option (outcome (list Z)) :=
  match fuel with
  | O => None
  | S fuel' =>
      match kmeans_pass features k s with
      | Undefined => Some Undefined
      | Returned (s', changed) =>
          if changed then kmeans_loop fuel' features k s'
          else Some (Returned (clusters s'))
      end
  end.

(** "Random initialization": [rand i] is what the [i]-th call of [rand()]
    returns; [centroids[i] = features[rand() % features.size()]]. *)
Definition initial_centroids (rand : nat -> Z) (features : list (list float))
    (k : Z) : outcome (list (list float)) :=
  foldl (fun acc i =>
           centroids <-- acc ;;
           let r := (rand i mod 2 ^ 64) mod Z.of_nat (length features) in
           c <-- at_index features r ;;
           Returned (centroids ++ [c]))
        (Returned []) (seq 0 (Z.to_nat k)).

Definition simpleKMeans (fuel : nat) (rand : nat -> Z)
    (features : list (list float)) (k : Z) : option (outcome (list Z)) :=
  if vector_empty features || (k <=? 0) then Some (Returned [])
  else
    match initial_centroids rand features k with
    | Undefined => Some Undefined
    | Returned centroids =>
        kmeans_loop fuel features k
          {| clusters := replicate (length features) 0;
             centroids := centroids |}
    end.

(** ** class RecommendationAgent *)

(** [std::unique]: of each run of equal neighbours the first is kept. *)
Fixpoint unique (l : list string) : list string :=
  match l with
  | [] => []
  | x :: l' =>
      match unique l' with
      | y :: r => if decide (x = y) then y :: r else x :: y :: r
      | [] => [x]
      end
  end.

(** [std::sort] on strings: [operator<] is the bytewise lexicographic order,
    a total order in which equal strings are identical, so every sorting
    routine returns the same vector. *)
Definition sort_strings (l : list string) : list string :=
  merge_sort String.le l.

Definition getRecentInteractions (db : Database) (customerId : string)
    : list string :=
  select_recent_interactions db customerId 3.

Definition getSegmentRecommendations (db : Database) (segment : string)
    (topN : Z) : list string :=
  select_segment_ranking db segment topN.

Definition getFallbackRecommendations (db : Database) (topN : Z)
    : list string :=
  select_by_popularity db topN.

(** The [for (productId : recentProducts)] loop of strategy 1. *)
Fixpoint similar_lookups (productAgent : ProductAgent)
    (recentProducts : list string) (topN : Z) (similarProducts : list string)
    : outcome (list string) :=
  match recentProducts with
  | [] => Returned similarProducts
  | productId :: recentProducts' =>
      similar <-- getSimilarProducts productAgent productId topN ;;
      similar_lookups productAgent recentProducts' topN
        (similarProducts ++ similar)
  end.

(** [db] is the store as it is when the call is made; [productAgent] is the
    member built when the agent was constructed. *)
Definition getRecommendations (db : Database) (productAgent : ProductAgent)
    (customerId : string) (topN : Z) : outcome (list string) :=
  match select_profile db customerId with
  | [] => Returned (getFallbackRecommendations db topN)
  | profile :: _ =>
      let segment := c_segment profile in
      (* strategies 2 and 3 *)
      let otherwise :=
        let segmentProducts := getSegmentRecommendations db segment topN in
        if negb (vector_empty segmentProducts) then segmentProducts
        else getFallbackRecommendations db topN in
      let recentProducts := getRecentInteractions db customerId in
      if negb (vector_empty recentProducts) then
        similarProducts <-- similar_lookups productAgent recentProducts topN [] ;;
        if negb (vector_empty similarProducts) then
          let similarProducts := unique (sort_strings similarProducts) in
          (* size() > topN compares as size_t *)
          let bound := topN mod 2 ^ 64 in
          Returned (if bound <? Z.of_nat (length similarProducts)
                    then take (Z.to_nat bound) similarProducts
                    else similarProducts)
        else Returned otherwise
      else Returned otherwise
  end.

(** The index holds one vector per id, all of one dimension. *)
Definition well_formed (self : ProductAgent) : Prop :=
  length (productVectors self) = length (productIds self) /\
  exists dim, Forall (fun v => length v = dim) (productVectors self).

(** ** Sample data of [ECommerceEnvironment::addSampleData]

    Used to run the model.  Where a run needs a value of [std::hash], it is
    that of GNU libstdc++ on a 64-bit little-endian machine ([_Hash_bytes],
    a Murmur hash, seeded with 0xc70f6907).  The timestamps are one second
    apart. *)

Definition hash_mul : Z := 0xc6a4a7935bd1e995.

Definition shift_mix (v : Z) : Z := Z.lxor v (Z.shiftr v 47).

(** The value of up to eight bytes, least significant first
    ([unaligned_load] and [load_bytes] on a little-endian machine). *)
Definition load_bytes (bytes : list Ascii.ascii) : Z :=
  foldr (fun c v => Z.of_N (Ascii.N_of_ascii c) + 256 * v) 0 bytes.

Fixpoint hash_bytes_loop (bytes : list Ascii.ascii) (hash : Z) : Z :=
  match bytes with
  | [] => hash
  | b0 :: b1 :: b2 :: b3 :: b4 :: b5 :: b6 :: b7 :: rest =>
      let word := load_bytes [b0; b1; b2; b3; b4; b5; b6; b7] in
      let data := (shift_mix ((word * hash_mul) mod 2 ^ 64) * hash_mul)
                    mod 2 ^ 64 in
      hash_bytes_loop rest ((Z.lxor hash data * hash_mul) mod 2 ^ 64)
  | tail => (Z.lxor hash (load_bytes tail) * hash_mul) mod 2 ^ 64
  end.

(** [std::_Hash_bytes(ptr, len, seed)] *)
Definition hash_bytes (s : string) (seed : Z) : Z :=
  let bytes := String.list_ascii_of_string s in
  let hash := Z.lxor seed ((Z.of_nat (length bytes) * hash_mul) mod 2 ^ 64) in
  let hash := hash_bytes_loop bytes hash in
  let hash := (shift_mix hash * hash_mul) mod 2 ^ 64 in
  shift_mix hash.

(** [std::hash<std::string>] of GNU libstdc++ *)
Definition gnu_hash (s : string) : Z := hash_bytes s 0xc70f6907.

(** A tag list as the demo stores it: a JSON array of quoted words. *)
Definition quoted (word : string) : string :=
  let q := String (Ascii.ascii_of_nat 34) EmptyString in
  (q +:+ word +:+ q)%string.

Definition tag_list (words : list string) : string :=
  ("[" +:+ String.concat ", " (quoted <$> words) +:+ "]")%string.

Definition sample_products : list product_row :=
  [ {| p_product_id := "P1001"; p_name := "Wireless Headphones";
       p_description := "Premium wireless headphones with noise cancellation";
       p_tags := tag_list ["audio"; "wireless"; "bluetooth"];
       p_popularity_score := 8.5 |};
    {| p_product_id := "P1002"; p_name := "Smartphone";
       p_description := "Latest smartphone with high-resolution camera";
       p_tags := tag_list ["mobile"; "android"; "camera"];
       p_popularity_score := 9.2 |};
    {| p_product_id := "P1003"; p_name := "Running Shoes";
       p_description := "Lightweight running shoes for marathon training";
       p_tags := tag_list ["fitness"; "running"; "shoes"];
       p_popularity_score := 7.8 |} ].

Definition sample_db : Database :=
  {| customers :=
       [ {| c_customer_id := "CUST001"; c_segment := "new";
            c_preferences := "{}" |};
         {| c_customer_id := "CUST002"; c_segment := "new";
            c_preferences := "{}" |} ];
     products := sample_products;
     interactions :=
       [ {| i_customer_id := "CUST001"; i_product_id := "P1001";
            i_timestamp := "2024-01-01 10:00:00" |};
         {| i_customer_id := "CUST001"; i_product_id := "P1001";
            i_timestamp := "2024-01-01 10:00:01" |};
         {| i_customer_id := "CUST002"; i_product_id := "P1002";
            i_timestamp := "2024-01-01 10:00:02" |};
         {| i_customer_id := "CUST002"; i_product_id := "P1003";
            i_timestamp := "2024-01-01 10:00:03" |} ];
     purchases :=
       [ {| pu_customer_id := "CUST001"; pu_product_id := "P1001" |} ] |}.

Definition no_index : ProductAgent :=
  {| productIds := []; productVectors := [] |}.

Definition sample_index : ProductAgent :=
  prepareProductVectors gnu_hash sample_db no_index.

(** An index over one product whose text "Mug item-041044 cwmpKGyu" has
    hash 0 in libstdc++: every component [(0 % (i + 1)) / 100.0] of its
    vector is zero. *)
Definition zero_text_db : Database :=
  {| customers := []; interactions := []; purchases := [];
     products := [ {| p_product_id := "P0"; p_name := "Mug";
                      p_description := "item-041044"; p_tags := "cwmpKGyu";
                      p_popularity_score := 1 |} ] |}.

Definition zero_index : ProductAgent :=
  prepareProductVectors gnu_hash zero_text_db no_index.

(** ** Reading the similarity and the centroid update as formulas *)

(** [dot(u, v)] accumulated from [0.0] in index order. *)
Definition dot (u v : list float) : float :=
  foldl (fun acc xy => (acc + xy.1 * xy.2)%float) 0%float (zip u v).

(** [dot(u,v) / (|u| * |v|)] in double arithmetic. *)
Definition cosine (u v : list float) : float :=
  (dot u v / (PrimFloat.sqrt (dot u u) * PrimFloat.sqrt (dot v v)))%float.

(** The points assigned to cluster [j], in point order. *)
Definition members (features : list (list float)) (clusters : list Z) (j : Z)
    : list (list float) :=
  fst <$> filter (fun pc => pc.2 = j) (zip features clusters).

Definition add_rows (row point : list float) : list float :=
  zip_with (fun r x => (r + x)%float) row point.

(** Coordinate sums of some points, accumulated from [0.0] in point order,
    and their mean. *)
Definition coordinate_sums (dim : nat) (points : list (list float))
    : list float :=
  foldl add_rows (replicate dim 0%float) points.

Definition mean_point (dim : nat) (points : list (list float)) : list float :=
  (fun x => (x / double_of_size_t (Z.of_nat (length points)))%float)
    <$> coordinate_sums dim points.

(** ** A feature batch on which the loop does not settle

    Two points that mirror each other up to one unit in the last place, and a
    third far away.  The random draws are the first three values of glibc's
    [rand()] without a seed; modulo 3 they select points 1, 1 and 0. *)
Definition mirror_a : list float := [(- PrimFloat.next_down 1)%float; 1%float].
Definition mirror_b : list float := [1%float; (- PrimFloat.next_down 1)%float].
Definition far_point : list float := [100%float; 100%float].
Definition mirror_features : list (list float) :=
  [far_point; mirror_a; mirror_b].
Definition glibc_rand (i : nat) : Z :=
  nth i [1804289383; 846930886; 1681692777] 0.

(** Two well separated groups, as in the k-means scenario of the spec. *)
Definition separated_features : list (list float) :=
  [ [0; 0; 0; 0]; [0.5; 0; 0; 0.5]; [10; 10; 10; 10]; [10; 10.5; 10; 10.5] ]%float.

(** The states the loop passes through on [mirror_features]. *)
Definition mirror_start : kmeans_state :=
  {| clusters := [0; 0; 0];
     centroids := [mirror_a; mirror_a; far_point] |}.

Definition pass_state (features : list (list float)) (k : Z)
    (s : kmeans_state) : kmeans_state :=
  match kmeans_pass features k s with
  | Returned (s', _) => s'
  | Undefined => s
  end.

Definition mirror_state1 : kmeans_state :=
  Eval vm_compute in pass_state mirror_features 3 mirror_start.
Definition mirror_state2 : kmeans_state :=
  Eval vm_compute in pass_state mirror_features 3 mirror_state1.

(** [first_unchanged features k s n result]: started in state [s], passes
    [1 .. n] each change some cluster, pass [n + 1] changes none and leaves
    the assignment [result]. *)
Fixpoint first_unchanged (features : list (list float)) (k : Z)
    (s : kmeans_state) (n : nat) (result : list Z) : Prop :=
  match kmeans_pass features k s with
  | Undefined => False
  | Returned (s', changed) =>
      match n with
      | O => changed = false /\ result = clusters s'
      | S n' => changed = true /\ first_unchanged features k s' n' result
      end
  end.

(** No pass budget is enough. *)
Definition runs_forever (rand : nat -> Z) (features : list (list float))
    (k : Z) : Prop :=
  forall fuel, simpleKMeans fuel rand features k = None.

(** A catalogue of five products with different texts. *)
Definition catalog_db : Database :=
  {| customers := []; interactions := []; purchases := [];
     products := sample_products ++
       [ {| p_product_id := "P1004"; p_name := "Yoga Mat";
            p_description := "Non-slip yoga mat";
            p_tags := tag_list ["fitness"; "yoga"];
            p_popularity_score := 6.1 |};
         {| p_product_id := "P1005"; p_name := "Desk Lamp";
            p_description := "LED desk lamp with dimmer";
            p_tags := tag_list ["home"; "light"];
            p_popularity_score := 5.4 |} ] |}.

Definition catalog_index : ProductAgent :=
  prepareProductVectors gnu_hash catalog_db no_index.

(** ** Four products with one and the same text

    Their vectors coincide whatever [std::hash] computes, so all similarities
    are equal.  Customer C1 last looked at P2; so did C9, for whom no profile
    row exists. *)
Definition tied_db : Database :=
  {| customers := [ {| c_customer_id := "C1"; c_segment := "new";
                       c_preferences := "{}" |} ];
     products :=
       (fun id => {| p_product_id := id; p_name := "Mug";
                     p_description := "Plain white mug";
                     p_tags := "[kitchen]"; p_popularity_score := 1 |})
         <$> ["P1"; "P2"; "P3"; "P4"];
     interactions := [ {| i_customer_id := "C1"; i_product_id := "P2";
                          i_timestamp := "2024-01-01 10:00:00" |};
                       {| i_customer_id := "C9"; i_product_id := "P2";
                          i_timestamp := "2024-01-01 11:00:00" |} ];
     purchases := [] |}.

Definition tied_index (hasher : string -> Z) : ProductAgent :=
  prepareProductVectors hasher tied_db no_index.

(** ** The personalized tier as the specification words it *)

(** De-duplication that keeps the first occurrence of every id. *)
Fixpoint dedup_first_seen (l : list string) : list string :=
  match l with
  | [] => []
  | x :: l' => x :: filter (fun y => y <> x) (dedup_first_seen l')
  end.

Definition personalized_first_seen (lookups : list (list string)) (topN : Z)
    : list string :=
  take (Z.to_nat topN) (dedup_first_seen (concat lookups)).

(** ** Tie-breaking as the specification words it *)

(** Of two returned ids of equal similarity, the one indexed earlier comes
    first in the result. *)
Definition ties_in_insertion_order (self : ProductAgent)
    (similarities : list float) (result : list string) : Prop :=
  forall (p q a b : nat) ida idb sa sb,
    result !! p = Some ida -> result !! q = Some idb ->
    productIds self !! a = Some ida -> productIds self !! b = Some idb ->
    similarities !! a = Some sa -> similarities !! b = Some sb ->
    PrimFloat.eqb sa sb = true -> (a < b)%nat -> (p < q)%nat.

(** ** Invariants of the heap routines

    [comp x y] reads "x goes before y"; the heap keeps at its root an
    element that goes before no other. *)

(** [descends top h]: position [h] lies in the subtree rooted at [top]. *)
Inductive descends (top : Z) : Z -> Prop :=
| descends_root : descends top top
| descends_left h : descends top h -> descends top (2 * h + 1)
| descends_right h : descends top h -> descends top (2 * h + 2).

Section HeapInvariants.
Context {A : Type} `{Inhabited A}.
Variable comp : A -> A -> bool.

(** Every child whose parent is at [top] or later does not go after its
    parent. *)
Definition heap_above (a : list A) (top len : Z) : Prop :=
  forall i, 0 < i < len -> top <= (i - 1) ÷ 2 ->
    comp (rd a ((i - 1) ÷ 2)) (rd a i) = false.

(** The heap with a hole at [h]: order holds wherever the hole is not
    involved, and the parent of the hole dominates the hole's children. *)
Definition hole_inv (a : list A) (top len h : Z) : Prop :=
  descends top h /\ h < len /\
  (forall i, 0 < i < len -> top <= (i - 1) ÷ 2 -> i <> h -> (i - 1) ÷ 2 <> h ->
     comp (rd a ((i - 1) ÷ 2)) (rd a i) = false) /\
  (h <> top -> forall c, 0 < c < len -> (c - 1) ÷ 2 = h ->
     comp (rd a ((h - 1) ÷ 2)) (rd a c) = false).

(** While [value] climbs: besides the hole invariant, [value] dominates the
    children of the hole. *)
Definition push_inv (a : list A) (top len h : Z) (value : A) : Prop :=
  hole_inv a top len h /\
  forall c, 0 < c < len -> (c - 1) ÷ 2 = h -> comp value (rd a c) = false.

(** [a'] differs from [a] only below [len], where all its elements
    satisfy [Q]. *)
Definition prefix_update (Q : A -> Prop) (len : Z) (a a' : list A) : Prop :=
  length a' = length a /\
  (forall t, len <= t -> rd a' t = rd a t) /\
  (forall t, 0 <= t < len -> Q (rd a' t)).

(** Everything at [middle .. i) goes after nothing in the heap. *)
Definition tail_after (a : list A) (middle i : Z) : Prop :=
  forall j t, middle <= j < i -> 0 <= t < middle ->
    comp (rd a j) (rd a t) = false.

(** Every pair whose later position is at [last] or beyond is in order. *)
Definition settled (a : list A) (middle last : Z) : Prop :=
  forall i j, 0 <= i < j -> j < Z.of_nat (length a) -> last <= j ->
    i < middle -> comp (rd a j) (rd a i) = false.

End HeapInvariants.

(** A double that is not a NaN. *)
Definition not_nan (x : float) : Prop := PrimFloat.is_nan x = false.


(** ** Texts spliced into SQL

    Every statement is built by concatenation: a text value goes between two
    apostrophes as it is.  SQLite reads such a piece as the string literal of
    that very text when the text holds no apostrophe; the tables of the store
    model say what a statement does for such texts.  [sql_literal] is the
    test used here: printable ASCII characters other than the apostrophe. *)
Definition sql_literal_char (c : Ascii.ascii) : bool :=
  let n := Z.of_N (Ascii.N_of_ascii c) in
  (32 <=? n) && (n <=? 126) && negb (n =? 39).

Fixpoint sql_literal (s : string) : bool :=
  match s with
  | EmptyString => true
  | String c s' => sql_literal_char c && sql_literal s'
  end.

(** The text of the profile query of [getRecommendations]. *)
Definition profile_query (customerId : string) : string :=
  ("SELECT segment, preferences FROM customers WHERE customer_id = '"
     +:+ customerId +:+ "'")%string.


(** ** class ProductAgent: the store side *)

(** The text [prepareProductVectors] hands to the vectorizer. *)
Definition product_text (product : product_row) : string :=
  (p_name product +:+ " " +:+ p_description product
     +:+ " " +:+ p_tags product)%string.



(** ** class SegmentationAgent: normalizeFeatures *)

(** [for (i < numFeatures) means[i] += vec[i]]: [means] has [numFeatures]
    entries, and the row is read at each of these offsets. *)
Fixpoint add_features (means vec : list float) : outcome (list float) :=
  match means, vec with
  | [], _ => Returned []
  | mean :: means', x :: vec' =>
      rest <-- add_features means' vec' ;;
      Returned ((mean + x)%float :: rest)
  | _ :: _, [] => Undefined
  end.

(** [for (i < numFeatures) stddevs[i] += pow(vec[i] - means[i], 2)], with
    [pow(x, 2)] as [x * x] again. *)
Fixpoint add_squares (stddevs means vec : list float) : outcome (list float) :=
  match stddevs, means, vec with
  | [], _, _ => Returned []
  | stddev :: stddevs', mean :: means', x :: vec' =>
      rest <-- add_squares stddevs' means' vec' ;;
      Returned ((stddev + (x - mean) * (x - mean))%float :: rest)
  | _, _, _ => Undefined
  end.

(** [vec[i] = (stddevs[i] != 0) ? (vec[i] - means[i]) / stddevs[i] : 0] for
    [i < numFeatures]; entries of the row past [numFeatures] stay. *)
Fixpoint normalize_row (stddevs means vec : list float) : outcome (list float) :=
  match stddevs, means, vec with
  | [], _, _ => Returned vec
  | stddev :: stddevs', mean :: means', x :: vec' =>
      rest <-- normalize_row stddevs' means' vec' ;;
      Returned ((if negb (PrimFloat.eqb stddev 0)
                 then ((x - mean) / stddev)%float else 0%float) :: rest)
  | _, _, _ => Undefined
  end.

Fixpoint normalize_rows (stddevs means : list float)
    (features : list (list float)) : outcome (list (list float)) :=
  match features with
  | [] => Returned []
  | vec :: features' =>
      vec' <-- normalize_row stddevs means vec ;;
      rest <-- normalize_rows stddevs means features' ;;
      Returned (vec' :: rest)
  end.

(** [normalizeFeatures] works on the vector in place; here it returns the
    vector it leaves. *)
Definition normalizeFeatures (features : list (list float))
    : outcome (list (list float)) :=
  match features with
  | [] => Returned features
  | first :: _ =>
      let numFeatures := length first in
      let size := double_of_size_t (Z.of_nat (length features)) in
      sums <-- foldl (fun acc vec => means <-- acc ;; add_features means vec)
                     (Returned (replicate numFeatures 0%float)) features ;;
      let means := (fun mean => (mean / size)%float) <$> sums in
      squares <-- foldl (fun acc vec =>
                           stddevs <-- acc ;; add_squares stddevs means vec)
                        (Returned (replicate numFeatures 0%float)) features ;;
      let stddevs :=
        (fun stddev => PrimFloat.sqrt (stddev / size)) <$> squares in
      normalize_rows stddevs means features
  end.

(** ** class SegmentationAgent: updateCustomerSegments *)

(** How a call that can also throw ends. *)
Inductive completion (A : Type) : Type :=
| Finished (a : A)
| Throws
| Unspecified.
Arguments Finished {A} a.
Arguments Throws {A}.
Arguments Unspecified {A}.

(** A row of the aggregate query as SQLite hands it to [callback]: the
    customer id and four values, each a text or NULL. *)
Record feature_row := {
  f_customer_id : string;
  f_interaction_count : option string;
  f_purchase_count : option string;
  f_total_spent : option string;
  f_active_months : option string }.

(** [callback]: [argv[i] ? argv[i] : "NULL"]. *)
Definition callback (value : option string) : string := default "NULL" value.

(** "UPDATE customers SET segment = '..' WHERE customer_id = '..'", for a
    customer id that is a literal; the label "segment_<int>" always is. *)
Definition update_segment (db : Database) (customerId segment : string)
    : Database :=
  {| customers :=
       (fun c => if decide (c_customer_id c = customerId)
                 then {| c_customer_id := c_customer_id c;
                         c_segment := segment;
                         c_preferences := c_preferences c |}
                 else c) <$> customers db;
     products := products db;
     interactions := interactions db;
     purchases := purchases db |}.

(** The loop that writes the segments: [segments[i]] is read for every
    position [i] of [customerIds]. *)
Fixpoint write_segments (db : Database) (customerIds : list string)
    (segments : list Z) (i : Z) : outcome Database :=
  match customerIds with
  | [] => Returned db
  | customerId :: customerIds' =>
      segment <-- at_index segments i ;;
      write_segments
        (update_segment db customerId ("segment_" +:+ pretty segment))
        customerIds' segments (i + 1)
  end.

Section SegmentationAgent.
(** [std::stod]: [None] where it throws ([std::invalid_argument] when no
    number can be read, [std::out_of_range]). *)
Variable stod : string -> option float.

(** The braced list of four [stod] calls, evaluated left to right. *)
Definition row_features (row : feature_row) : option (list float) :=
  interaction_count ← stod (callback (f_interaction_count row));
  purchase_count ← stod (callback (f_purchase_count row));
  total_spent ← stod (callback (f_total_spent row));
  active_months ← stod (callback (f_active_months row));
  Some [interaction_count; purchase_count; total_spent; active_months].

(** "Prepare features for clustering". *)
Fixpoint prepare_features (data : list feature_row)
    (customerIds : list string) (features : list (list float))
    : option (list string * list (list float)) :=
  match data with
  | [] => Some (customerIds, features)
  | row :: data' =>
      match row_features row with
      | None => None
      | Some feature =>
          prepare_features data' (customerIds ++ [f_customer_id row])
                           (features ++ [feature])
      end
  end.

(** [updateCustomerSegments]: [data] is what the aggregate query returned,
    one row per customer.  Nothing catches what [stod] throws.  [None] says
    the clustering loop is still running after [fuel] passes. *)
Definition updateCustomerSegments (fuel : nat) (rand : nat -> Z)
    (db : Database) (data : list feature_row) (nClusters : Z)
    : option (completion Database) :=
  if vector_empty data then Some (Finished db)
  else
    match prepare_features data [] [] with
    | None => Some Throws
    | Some (customerIds, features) =>
        match normalizeFeatures features with
        | Undefined => Some Unspecified
        | Returned features =>
            match simpleKMeans fuel rand features nClusters with
            | None => None
            | Some Undefined => Some Unspecified
            | Some (Returned segments) =>
                match write_segments db customerIds segments 0 with
                | Undefined => Some Unspecified
                | Returned db' => Some (Finished db')
                end
            end
        end
    end.
End SegmentationAgent.

(** [stod] on the texts SQLite prints for small counts and whole amounts:
    a run of decimal digits.  No other text is needed in the examples;
    "NULL" is among the texts without a number. *)
Definition digit_value (c : Ascii.ascii) : option Z :=
  let n := Z.of_N (Ascii.N_of_ascii c) in
  if (48 <=? n) && (n <=? 57) then Some (n - 48) else None.

Fixpoint digits_value (s : string) (acc : Z) : option Z :=
  match s with
  | EmptyString => Some acc
  | String c s' =>
      match digit_value c with
      | Some d => digits_value s' (10 * acc + d)
      | None => None
      end
  end.

Definition stod_digits (s : string) : option float :=
  match s with
  | EmptyString => None
  | _ =>
      match digits_value s 0 with
      | Some n => if n <? 2 ^ 53 then Some (double_of_size_t n) else None
      | None => None
      end
  end.

(** The invariant of the clustering loop: one cluster per point, [k]
    centroids of the dimension of the points. *)
Definition kmeans_inv (dim : nat) (features : list (list float)) (k : Z)
    (s : kmeans_state) : Prop :=
  length (clusters s) = length features /\
  length (centroids s) = Z.to_nat k /\
  Forall (fun c => length c = dim) (centroids s).


(** ** Numerals and timestamps in SQL texts *)

Definition is_digit (c : Ascii.ascii) : bool :=
  match digit_value c with Some _ => true | None => false end.

(** A text against a pattern in which [d] stands for any decimal digit and
    every other character for itself. *)
Fixpoint matches (pattern s : string) : bool :=
  match pattern, s with
  | EmptyString, EmptyString => true
  | String p pattern', String c s' =>
      (* 100 is the code of the letter d *)
      (if Z.of_N (Ascii.N_of_ascii p) =? 100 then is_digit c
       else Ascii.eqb p c)
      && matches pattern' s'
  | _, _ => false
  end.

(** The texts [currentTimestamp()] returns ("%Y-%m-%d %H:%M:%S", years of
    four digits).  A column of type TIMESTAMP has numeric affinity in
    SQLite; a text of this form is no number, so it is stored as the text
    it is and compared bytewise. *)
Definition timestamp_format (s : string) : bool :=
  matches "dddd-dd-dd dd:dd:dd" s.

(** The part of a text before its first point, and the part after it. *)
Fixpoint split_point (s : string) : string * option string :=
  match s with
  | EmptyString => (EmptyString, None)
  | String c s' =>
      (* 46 is the code of the point *)
      if Z.of_N (Ascii.N_of_ascii c) =? 46 then (EmptyString, Some s')
      else let '(whole, fraction) := split_point s' in (String c whole, fraction)
  end.

Definition all_digits (s : string) : bool :=
  match s with
  | EmptyString => false
  | _ => match digits_value s 0 with Some _ => true | None => false end
  end.

(** A decimal numeral as the sample data writes prices and scores: digits,
    or digits, a point and digits; at most 15 characters, so that it names
    one double and different numerals name different doubles.  Spliced
    without apostrophes, SQLite reads it as that number. *)
Definition sql_numeral (s : string) : bool :=
  (Z.of_nat (String.length s) <=? 15) &&
  match split_point s with
  | (whole, None) => all_digits whole
  | (whole, Some fraction) => all_digits whole && all_digits fraction
  end.

(** The digits of a numeral as one number, and how many follow the point. *)
Definition numeral_parts (s : string) : Z * Z :=
  match split_point s with
  | (whole, None) => (default 0 (digits_value whole 0), 0)
  | (whole, Some fraction) =>
      (default 0 (digits_value (whole +:+ fraction) 0),
       Z.of_nat (String.length fraction))
  end.

Definition numeral_value (s : string) : Q :=
  let '(mantissa, places) := numeral_parts s in
  mantissa # Z.to_pos (10 ^ places).

(** [stod] on such numerals: both the digits and the power of ten are
    doubles, and their quotient is rounded once.  No other text is needed
    in the examples. *)
Definition stod_decimal (s : string) : option float :=
  if sql_numeral s then
    let '(mantissa, places) := numeral_parts s in
    Some (double_of_size_t mantissa / double_of_size_t (10 ^ places))%float
  else None.


(** What [updateCustomerSegments] leaves of a customer row [c], as [c']:
    a customer among [customerIds] carries one of the labels
    "segment_0" .. "segment_{k-1}", every other row keeps its segment. *)
Definition relabelled (customerIds : list string) (k : Z)
    (c c' : customer_row) : Prop :=
  c_customer_id c' = c_customer_id c /\
  c_preferences c' = c_preferences c /\
  if decide (c_customer_id c ∈ customerIds)
  then exists j, 0 <= j < k /\ c_segment c' = ("segment_" +:+ pretty j)%string
  else c_segment c' = c_segment c.

(** Rows of the aggregate query for three customers; the second one has no
    purchase, so its [SUM(p.amount)] is NULL. *)
Definition counted_data : list feature_row :=
  [ {| f_customer_id := "CUST001"; f_interaction_count := Some "2";
       f_purchase_count := Some "1"; f_total_spent := Some "100";
       f_active_months := Some "1" |};
    {| f_customer_id := "CUST002"; f_interaction_count := Some "9";
       f_purchase_count := Some "4"; f_total_spent := Some "750";
       f_active_months := Some "3" |};
    {| f_customer_id := "CUST003"; f_interaction_count := Some "1";
       f_purchase_count := Some "1"; f_total_spent := Some "80";
       f_active_months := Some "1" |} ].

Definition null_data : list feature_row :=
  [ {| f_customer_id := "CUST001"; f_interaction_count := Some "2";
       f_purchase_count := Some "1"; f_total_spent := Some "100";
       f_active_months := Some "1" |};
    {| f_customer_id := "CUST002"; f_interaction_count := Some "2";
       f_purchase_count := Some "0"; f_total_spent := None;
       f_active_months := Some "0" |} ].

Definition counted_db : Database :=
  {| customers :=
       (fun id => {| c_customer_id := id; c_segment := "new";
                     c_preferences := "{}" |})
         <$> ["CUST001"; "CUST002"; "CUST003"; "CUST004"];
     products := sample_products; interactions := []; purchases := [] |}.

(** A store and the rows the aggregate query returns for it.  The three
    customers have 2, 3 and 1 interactions and 1, 2 and 1 purchases, of the
    amounts 100.0; 250.5 and 50.0 (in two different months); 80.0.  The two
    LEFT JOINs pair every interaction of a customer with every purchase, so
    [SUM(p.amount)] is 2 * 100.0, 3 * 300.5 and 1 * 80.0; SQLite prints a
    REAL with its point. *)
Definition segmented_db : Database :=
  {| customers :=
       (fun id => {| c_customer_id := id; c_segment := "new";
                     c_preferences := "{}" |})
         <$> ["CUST001"; "CUST002"; "CUST003"];
     products := sample_products;
     interactions :=
       [ {| i_customer_id := "CUST001"; i_product_id := "P1001";
            i_timestamp := "2024-01-01 10:00:00" |};
         {| i_customer_id := "CUST001"; i_product_id := "P1001";
            i_timestamp := "2024-01-01 10:00:01" |};
         {| i_customer_id := "CUST002"; i_product_id := "P1002";
            i_timestamp := "2024-01-01 10:00:02" |};
         {| i_customer_id := "CUST002"; i_product_id := "P1003";
            i_timestamp := "2024-01-01 10:00:03" |};
         {| i_customer_id := "CUST002"; i_product_id := "P1003";
            i_timestamp := "2024-01-01 10:00:04" |};
         {| i_customer_id := "CUST003"; i_product_id := "P1003";
            i_timestamp := "2024-01-01 10:00:05" |} ];
     purchases :=
       [ {| pu_customer_id := "CUST001"; pu_product_id := "P1001" |};
         {| pu_customer_id := "CUST002"; pu_product_id := "P1002" |};
         {| pu_customer_id := "CUST002"; pu_product_id := "P1003" |};
         {| pu_customer_id := "CUST003"; pu_product_id := "P1003" |} ] |}.

Definition segmented_data : list feature_row :=
  [ {| f_customer_id := "CUST001"; f_interaction_count := Some "2";
       f_purchase_count := Some "1"; f_total_spent := Some "200.0";
       f_active_months := Some "1" |};
    {| f_customer_id := "CUST002"; f_interaction_count := Some "3";
       f_purchase_count := Some "2"; f_total_spent := Some "901.5";
       f_active_months := Some "2" |};
    {| f_customer_id := "CUST003"; f_interaction_count := Some "1";
       f_purchase_count := Some "1"; f_total_spent := Some "80.0";
       f_active_months := Some "1" |} ].

(** ** A store on which the clustering never settles

    The first four values of glibc's [rand()] when [srand] was never
    called, as in this program. *)
Definition unseeded_rand (i : nat) : Z :=
  nth i [1804289383; 846930886; 1681692777; 1714636915] 0.

(** Six customers with one interaction each and 6, 6, 6, 12, 1 and 8
    purchases, all of one month, of the amounts 1.0 each for the first
    customer; 1.0 four times and 2.0 twice; 1.0 each; 1.0 each; 1.0; 0.75
    each. *)
Definition stalled_purchases : list (string * nat) :=
  [ ("CUST001", 6%nat); ("CUST002", 6%nat); ("CUST003", 6%nat);
    ("CUST004", 12%nat); ("CUST005", 1%nat); ("CUST006", 8%nat) ].

Definition stalled_db : Database :=
  {| customers :=
       (fun c => {| c_customer_id := c.1; c_segment := "new";
                    c_preferences := "{}" |}) <$> stalled_purchases;
     products := sample_products;
     interactions :=
       (fun c => {| i_customer_id := c.1; i_product_id := "P1001";
                    i_timestamp := "2024-01-01 10:00:00" |})
         <$> stalled_purchases;
     purchases :=
       stalled_purchases ≫=
         (fun c => replicate c.2 {| pu_customer_id := c.1;
                                    pu_product_id := "P1001" |}) |}.

(** The rows of the aggregate query for [stalled_db], in the order of the
    customer ids. *)
Definition stalled_data : list feature_row :=
  (fun r : string * string * string =>
     {| f_customer_id := r.1.1; f_interaction_count := Some "1";
        f_purchase_count := Some r.1.2; f_total_spent := Some r.2;
        f_active_months := Some "1" |})
    <$> [ ("CUST001", "6", "6.0"); ("CUST002", "6", "8.0");
          ("CUST003", "6", "6.0"); ("CUST004", "12", "12.0");
          ("CUST005", "1", "1.0"); ("CUST006", "8", "6.0") ].

(** What [stod] makes of these rows, and what [normalizeFeatures] leaves. *)
Definition stalled_rows : list (list float) :=
  [ [1; 6; 6; 1]; [1; 6; 8; 1]; [1; 6; 6; 1]; [1; 12; 12; 1]; [1; 1; 1; 1];
    [1; 8; 6; 1] ]%float.

Definition stalled_features : list (list float) :=
  match normalizeFeatures stalled_rows with
  | Returned features => features
  | Undefined => []
  end.

(** The state after the random initialization, and after the first and the
    second pass. *)
Definition stalled_start : kmeans_state :=
  {| clusters := replicate 6 0;
     centroids :=
       match initial_centroids unseeded_rand stalled_features 4 with
       | Returned centroids => centroids
       | Undefined => []
       end |}.

Definition stalled_state1 : kmeans_state :=
  Eval vm_compute in pass_state stalled_features 4 stalled_start.
Definition stalled_state2 : kmeans_state :=
  Eval vm_compute in pass_state stalled_features 4 stalled_state1.


(** ** class ProductAgent: addProduct *)

(** "INSERT INTO products (..) VALUES (..)" for values that are literals and
    numerals.  [product_id] is the primary key: a row whose id is stored
    already is refused, [Database::execute] prints the error and returns;
    otherwise the row is the last one in scan order. *)
Definition insert_product (db : Database) (row : product_row) : Database :=
  if decide (p_product_id row ∈ p_product_id <$> products db) then db
  else {| customers := customers db;
          products := products db ++ [row];
          interactions := interactions db;
          purchases := purchases db |}.

Section ProductStore.
Variable hasher : string -> Z.
(** [Database::execute] on a statement the store model does not read:
    whatever SQLite makes of the text. *)
Variable execute_other : Database -> string -> Database.

(** [addProduct]: [productData.at(key)] throws [std::out_of_range] for a
    key that is missing, before anything is sent.  The statement is the
    concatenation of the seven values; the store model reads it when the
    five texts are literals and the price and the score are numerals.  The
    index is rebuilt in every case. *)
Definition addProduct (db : Database) (self : ProductAgent)
    (productData : gmap string string)
    : completion (Database * ProductAgent) :=
  match productData !! "product_id", productData !! "name",
        productData !! "category", productData !! "price",
        productData !! "description", productData !! "tags",
        productData !! "popularity_score" with
  | Some product_id, Some name, Some category, Some price,
    Some description, Some tags, Some popularity_score =>
      let sql :=
        ("INSERT INTO products (product_id, name, category, price, description, tags, popularity_score) VALUES ('"
           +:+ product_id +:+ "', '" +:+ name +:+ "', '" +:+ category
           +:+ "', " +:+ price +:+ ", '" +:+ description +:+ "', '" +:+ tags
           +:+ "', " +:+ popularity_score +:+ ")")%string in
      let db' :=
        if sql_literal product_id && sql_literal name && sql_literal category
           && sql_numeral price && sql_literal description
           && sql_literal tags && sql_numeral popularity_score
        then insert_product db
               {| p_product_id := product_id; p_name := name;
                  p_description := description; p_tags := tags;
                  p_popularity_score := numeral_value popularity_score |}
        else execute_other db sql in
      Finished (db', prepareProductVectors hasher db' self)
  | _, _, _, _, _, _, _ => Throws
  end.
End ProductStore.

(** The first product of [addSampleData]. *)
Definition sample_product : gmap string string :=
  list_to_map
    [ ("product_id", "P1001"); ("name", "Wireless Headphones");
      ("category", "Electronics"); ("price", "99.99");
      ("description", "Premium wireless headphones with noise cancellation");
      ("tags", tag_list ["audio"; "wireless"; "bluetooth"]);
      ("popularity_score", "8.5") ].


(** ** class CustomerAgent

    [now] is what [currentTimestamp()] returns during the call.  The
    foreign keys of [interactions] and [purchases] are declared, but SQLite
    does not enforce them unless asked to, so an insert the store model
    reads always adds its row. *)

Inductive InteractionType : Type :=
| VIEW
| CART_ADD
| WISHLIST
| PURCHASE
| SEARCH.

Definition interactionTypeToString (type : InteractionType) : string :=
  match type with
  | VIEW => "view"
  | CART_ADD => "cart_add"
  | WISHLIST => "wishlist"
  | PURCHASE => "purchase"
  | SEARCH => "search"
  end.

Section CustomerStore.
(** [Database::execute] on a statement the store model does not read. *)
Variable execute_other : Database -> string -> Database.
(** [std::to_string(double)]. *)
Variable to_string : float -> string.

(** [recordInteraction]: the store model reads the statement when both ids
    are literals and the timestamp is one of the clock's. *)
Definition recordInteraction (now : string) (db : Database)
    (customerId productId : string) (type : InteractionType) (duration : Z)
    : Database :=
  let sql :=
    ("INSERT INTO interactions (customer_id, product_id, interaction_type, timestamp, duration) VALUES ('"
       +:+ customerId +:+ "', '" +:+ productId +:+ "', '"
       +:+ interactionTypeToString type +:+ "', '" +:+ now +:+ "', "
       +:+ pretty duration +:+ ")")%string in
  if sql_literal customerId && sql_literal productId && timestamp_format now
  then {| customers := customers db;
          products := products db;
          interactions :=
            interactions db ++ [ {| i_customer_id := customerId;
                                    i_product_id := productId;
                                    i_timestamp := now |} ];
          purchases := purchases db |}
  else execute_other db sql.

(** [recordPurchase]: [to_string] writes a finite amount as a decimal
    numeral, which SQLite reads as a number, and a NaN or an infinity as a
    word, which it does not. *)
Definition recordPurchase (now : string) (db : Database)
    (customerId productId : string) (quantity : Z) (amount : float)
    : Database :=
  let sql :=
    ("INSERT INTO purchases (customer_id, product_id, quantity, amount, timestamp) VALUES ('"
       +:+ customerId +:+ "', '" +:+ productId +:+ "', "
       +:+ pretty quantity +:+ ", " +:+ to_string amount +:+ ", '"
       +:+ now +:+ "')")%string in
  if sql_literal customerId && sql_literal productId
     && PrimFloat.is_finite amount && timestamp_format now
  then {| customers := customers db;
          products := products db;
          interactions := interactions db;
          purchases :=
            purchases db ++ [ {| pu_customer_id := customerId;
                                 pu_product_id := productId |} ] |}
  else execute_other db sql.
End CustomerStore.

(** *** Profiles

    [getProfile] and [updateProfile] read and write whole rows of
    [customers] ("SELECT *"), which the tables above do not keep.  Here the
    store is any state [store] with the two operations of [class Database]:
    [executeQuery] returns the rows as [callback] builds them (column name
    to text) and [execute] returns nothing; both leave a store behind. *)

Definition customer_columns : gset string :=
  list_to_set ["customer_id"; "name"; "age"; "gender"; "location"; "segment";
               "preferences"; "last_activity"].

(** [m.insert(first, last)] on a [std::map]: a key that is present keeps
    its value; only absent keys are added. *)
Definition map_insert_range (m updates : gmap string string)
    : gmap string string :=
  m ∪ updates.

(** The initializer of [newProfile]. *)
Definition default_profile (now customerId : string) : gmap string string :=
  list_to_map [ ("name", ""); ("age", "NULL"); ("gender", "NULL");
                ("location", "NULL"); ("segment", "new");
                ("preferences", "{}"); ("last_activity", now);
                ("customer_id", customerId) ].

(** A [std::map<string, string>] is walked in ascending order of its keys. *)
Definition by_key (a b : string * string) : Prop := String.le a.1 b.1.

Global Instance by_key_dec : RelDecision by_key.
Proof. intros a b. unfold by_key. apply _. Defined.

Definition map_items (m : gmap string string) : list (string * string) :=
  merge_sort by_key (map_to_list m).

(** [if (!text.empty()) text += ", "; text += piece;] *)
Definition add_piece (text piece : string) : string :=
  ((if decide (text = "") then text else text +:+ ", ") +:+ piece)%string.

Section Profiles.
Variable store : Type.
Variable executeQuery : store -> string -> store * list (gmap string string).
Variable execute : store -> string -> store.

Definition getProfile (db : store) (customerId : string)
    : store * gmap string string :=
  let sql :=
    ("SELECT * FROM customers WHERE customer_id = '" +:+ customerId +:+ "'")%string in
  let '(db, result) := executeQuery db sql in
  (db, match result with [] => ∅ | row :: _ => row end).

Definition updateProfile (now : string) (db : store) (customerId : string)
    (updates : gmap string string) : store :=
  let '(db, profile) := getProfile db customerId in
  if decide (profile = ∅) then
    (* Create new profile *)
    let newProfile :=
      map_insert_range (default_profile now customerId) updates in
    let '(columns, placeholders) :=
      foldl (fun texts item =>
               (add_piece texts.1 item.1,
                add_piece texts.2 ("'" +:+ item.2 +:+ "'")))
            ("", "") (map_items newProfile) in
    execute db ("INSERT INTO customers (" +:+ columns +:+ ") VALUES ("
                  +:+ placeholders +:+ ")")
  else
    (* Update existing profile *)
    let profile := map_insert_range profile updates in
    let profile := <["last_activity" := now]> profile in
    let setClause :=
      foldl (fun setClause item =>
               if decide (item.1 = "customer_id") then setClause
               else add_piece setClause (item.1 +:+ " = '" +:+ item.2 +:+ "'"))
            "" (map_items profile) in
    execute db ("UPDATE customers SET " +:+ setClause
                  +:+ " WHERE customer_id = '" +:+ customerId +:+ "'").
End Profiles.

(** A row of [customers] with its eight texts. *)
Definition customer_record (customer_id name age gender location segment
    preferences last_activity : string) : gmap string string :=
  list_to_map [ ("customer_id", customer_id); ("name", name); ("age", age);
                ("gender", gender); ("location", location);
                ("segment", segment); ("preferences", preferences);
                ("last_activity", last_activity) ].

(** The updates [addSampleData] passes for its first customer. *)
Definition sample_updates : gmap string string :=
  list_to_map [ ("name", "John Doe"); ("age", "32"); ("gender", "male");
                ("location", "New York") ].

(** A store that only records what it is sent: every query finds the rows
    [found]. *)
Definition recording_query (found : list (gmap string string))
    (sent : list string) (sql : string)
    : list string * list (gmap string string) :=
  (sent ++ [sql], found).

Definition recording_execute (sent : list string) (sql : string)
    : list string :=
  sent ++ [sql].


(** ** The farming demo of the same file: class WeatherAgent

    The agent draws from [std::uniform_real_distribution]s over one engine;
    [draw n] is the value of the [n]-th draw since the agent was made, and
    [k] counts the draws made so far.  The dates come from the clock:
    [currentDate] is what [getCurrentDate()] returns and [futureDate days]
    what [getFutureDate(days)] returns. *)

Record WeatherData := {
  temperature : float;
  rainfall : float;
  humidity : float;
  windSpeed : float;
  date : string }.

(** [std::max(a, b)] is [(a < b) ? b : a]; [std::min(a, b)] is
    [(b < a) ? b : a]. *)
Definition std_max (a b : float) : float := if PrimFloat.ltb a b then b else a.
Definition std_min (a b : float) : float := if PrimFloat.ltb b a then b else a.

Section WeatherAgent.
Variable draw : nat -> float.
Variable currentDate : string.
Variable futureDate : Z -> string.

Definition getCurrentWeather (k : nat) : WeatherData * nat :=
  ({| temperature := draw k;
      rainfall := draw (k + 1);
      humidity := draw (k + 2);
      windSpeed := draw (k + 3);
      date := currentDate |}, (k + 4)%nat).

(** The loop of [predictWeather], with [n] turns left.  [getFutureDate(i)]
    computes [days * 24 * 60 * 60] in [int], which has to stay below 2^31. *)
Fixpoint predict_loop (n : nat) (i : Z) (k : nat) (current : WeatherData)
    (predictions : list WeatherData) : outcome (list WeatherData * nat) :=
  match n with
  | O => Returned (predictions, k)
  | S n' =>
      if 2 ^ 31 <=? i * 24 * 60 * 60 then Undefined
      else
        let prediction :=
          {| date := futureDate i;
             temperature := (temperature current * draw k)%float;
             rainfall := std_max 0 (rainfall current * draw (k + 1))%float;
             humidity :=
               std_max 0 (std_min 100 (humidity current * draw (k + 2))%float);
             windSpeed :=
               std_max 0 (windSpeed current * draw (k + 3))%float |} in
        predict_loop n' (i + 1) (k + 4) prediction
                     (predictions ++ [prediction])
  end.

Definition predictWeather (k : nat) (daysAhead : Z)
    : outcome (list WeatherData * nat) :=
  let '(current, k) := getCurrentWeather k in
  predict_loop (Z.to_nat daysAhead) 0 k current [].
End WeatherAgent.

(** What every forecast satisfies: no negative rainfall or wind speed, and
    a humidity between 0 and 100. *)
Definition plausible (w : WeatherData) : Prop :=
  PrimFloat.leb 0 (rainfall w) = true /\
  PrimFloat.leb 0 (humidity w) = true /\
  PrimFloat.leb (humidity w) 100 = true /\
  PrimFloat.leb 0 (windSpeed w) = true.

(** * Facts about the library routines *)

Ltac zq := Z.to_euclidean_division_equations; lia.

Lemma obind_Returned {A B} (m : outcome A) (k : A -> outcome B) (b : B) :
  obind m k = Returned b -> exists a, m = Returned a /\ k a = Returned b.
Proof. destruct m as [a|]; simpl; [eauto | discriminate]. Qed.

Lemma at_index_Returned {A} (v : list A) (i : Z) (x : A) :
  at_index v i = Returned x <-> 0 <= i /\ v !! Z.to_nat i = Some x.
Proof.
  unfold at_index. destruct (Z.ltb_spec i 0) as [Hi|Hi].
  - split; [discriminate | lia].
  - destruct (v !! Z.to_nat i) as [y|]; split.
    + intros [= ->]. done.
    + intros [_ [= ->]]. done.
    + discriminate.
    + intros [_ ?]. discriminate.
Qed.

Lemma iota_length (n : nat) : length (iota n) = n.
Proof. unfold iota. by rewrite length_fmap, length_seq. Qed.

Lemma iota_lookup (n i : nat) (x : Z) :
  iota n !! i = Some x <-> x = Z.of_nat i /\ (i < n)%nat.
Proof.
  unfold iota. rewrite list_lookup_fmap. split.
  - intros Hx. destruct (seq 0 n !! i) as [j|] eqn:E; [|discriminate].
    apply lookup_seq in E as [-> ?]. simpl in Hx. split; [congruence | done].
  - intros [-> Hi]. by rewrite lookup_seq_lt.
Qed.

Lemma iota_bounds (n : nat) : Forall (fun x => 0 <= x < Z.of_nat n) (iota n).
Proof.
  apply Forall_lookup. intros i x Hx. apply iota_lookup in Hx as [-> ?]. lia.
Qed.

Section HeapPermutation.
Context {A : Type} `{Inhabited A}.
Variable comp : A -> A -> bool.

Lemma wr_length (a : list A) i x : length (wr a i x) = length a.
Proof. apply length_insert. Qed.

Lemma cons_insert_perm (l : list A) (i : nat) (x v : A) :
  l !! i = Some x -> x :: <[i := v]> l ≡ₚ v :: l.
Proof.
  revert i. induction l as [|y l IH]; intros [|i] Hi; simplify_eq/=.
  - apply perm_swap.
  - rewrite (perm_swap y x), (IH _ Hi). apply perm_swap.
Qed.

(** Filling the hole at [i] from [j] and leaving the hole at [j] is a
    transposition once the hole is filled. *)
Lemma hole_move_perm (a : list A) (i j : nat) (x v : A) :
  (i < length a)%nat -> a !! j = Some x ->
  <[j := v]> (<[i := x]> a) ≡ₚ <[i := v]> a.
Proof.
  revert i j. induction a as [|y a IH]; intros i j Hi Hj; [simpl in Hi; lia|].
  destruct i as [|i], j as [|j]; simplify_eq/=.
  - done.
  - by apply cons_insert_perm.
  - assert (Hi' : (i < length a)%nat) by lia.
    pose proof (cons_insert_perm (<[i := x]> a) i x v) as Hp.
    rewrite list_insert_insert_eq in Hp. symmetry. apply Hp.
    by apply list_lookup_insert_eq.
  - constructor. apply IH; [lia | done].
Qed.

Lemma rd_lookup (a : list A) (i : Z) :
  0 <= i < Z.of_nat (length a) -> a !! Z.to_nat i = Some (rd a i).
Proof.
  intros Hi. unfold rd. apply list_lookup_lookup_total_lt. lia.
Qed.

Lemma wr_move_perm (a : list A) (i j : Z) (v : A) :
  0 <= i < Z.of_nat (length a) -> 0 <= j < Z.of_nat (length a) ->
  wr (wr a i (rd a j)) j v ≡ₚ wr a i v.
Proof.
  intros Hi Hj. unfold wr. apply hole_move_perm; [lia | by apply rd_lookup].
Qed.

Lemma push_heap_loop_perm fuel (a : list A) holeIndex topIndex value :
  0 <= holeIndex < Z.of_nat (length a) ->
  push_heap_loop comp fuel a holeIndex topIndex value ≡ₚ wr a holeIndex value.
Proof.
  revert a holeIndex. induction fuel as [|fuel IH]; intros a h Hh; simpl.
  - done.
  - destruct (_ && _); [|done].
    rewrite IH by (rewrite wr_length; zq).
    apply wr_move_perm; [done | zq].
Qed.

Lemma adjust_heap_loop_spec fuel (a : list A) holeIndex len a' h' sc' :
  0 <= holeIndex < Z.of_nat (length a) -> len <= Z.of_nat (length a) ->
  adjust_heap_loop comp fuel a holeIndex holeIndex len = (a', h', sc') ->
  sc' = h' /\ holeIndex <= h' < Z.of_nat (length a) /\
  length a' = length a /\
  forall v, wr a' h' v ≡ₚ wr a holeIndex v.
Proof.
  revert a holeIndex.
  induction fuel as [|fuel IH]; intros a h Hh Hlen; simpl.
  - intros [= <- <- <-]. repeat split; (lia || done).
  - destruct (Z.ltb_spec h ((len - 1) ÷ 2));
      [|intros [= <- <- <-]; repeat split; (lia || done)].
    set (sc := if comp _ _ then _ else _).
    assert (Hsc : h < sc < Z.of_nat (length a))
      by (subst sc; destruct (comp _ _); zq).
    intros Hrec. apply IH in Hrec; rewrite ?wr_length; [|lia..].
    rewrite wr_length in Hrec.
    destruct Hrec as (-> & ? & -> & Hp). repeat split; [lia..|].
    intros v. rewrite Hp. apply wr_move_perm; lia.
Qed.

Lemma adjust_heap_perm (a : list A) holeIndex len value :
  0 <= holeIndex < Z.of_nat (length a) -> 0 <= len <= Z.of_nat (length a) ->
  adjust_heap comp a holeIndex len value ≡ₚ wr a holeIndex value.
Proof.
  intros Hh Hlen. unfold adjust_heap.
  destruct (adjust_heap_loop _ _ _ _ _ _) as [[a' h'] sc'] eqn:E.
  apply adjust_heap_loop_spec in E as (-> & ? & Hl & Hp); [|lia..].
  destruct (_ && _) eqn:Ec.
  - apply andb_true_iff in Ec as [E1 E2].
    apply Z.eqb_eq in E1, E2.
    assert (Hodd : len mod 2 = 0) by (by rewrite <- Z.land_ones with (n := 1)).
    unfold push_heap. rewrite push_heap_loop_perm by (rewrite wr_length; zq).
    rewrite wr_move_perm by zq. apply Hp.
  - unfold push_heap. rewrite push_heap_loop_perm by lia. apply Hp.
Qed.

Lemma pop_heap_perm (a : list A) last result :
  0 <= result < Z.of_nat (length a) -> 0 <= last <= Z.of_nat (length a) ->
  pop_heap comp a last result ≡ₚ a.
Proof.
  intros Hr Hl. unfold pop_heap.
  rewrite adjust_heap_perm by (rewrite wr_length; lia).
  rewrite wr_move_perm by lia.
  unfold wr. by rewrite list_insert_id by (by apply rd_lookup).
Qed.

Lemma make_heap_loop_perm fuel (a : list A) parent len :
  0 <= parent < Z.of_nat (length a) -> 0 <= len <= Z.of_nat (length a) ->
  make_heap_loop comp fuel a parent len ≡ₚ a.
Proof.
  revert a parent. induction fuel as [|fuel IH]; intros a p Hp Hl; simpl; [done|].
  assert (Ha : adjust_heap comp a p len (rd a p) ≡ₚ a).
  { rewrite adjust_heap_perm by lia.
    unfold wr. by rewrite list_insert_id by (by apply rd_lookup). }
  destruct (Z.eqb_spec p 0); [done|].
  rewrite IH; [done | rewrite (Permutation_length Ha); lia..].
Qed.

Lemma make_heap_perm (a : list A) len :
  0 <= len <= Z.of_nat (length a) -> make_heap comp a len ≡ₚ a.
Proof.
  intros Hl. unfold make_heap. destruct (Z.ltb_spec len 2); [done|].
  apply make_heap_loop_perm; zq.
Qed.

Lemma heap_select_loop_perm fuel (a : list A) middle i :
  0 <= middle <= i -> i + Z.of_nat fuel <= Z.of_nat (length a) ->
  heap_select_loop comp fuel a middle i ≡ₚ a.
Proof.
  revert a i. induction fuel as [|fuel IH]; intros a i Hm Hi; simpl; [done|].
  assert (Ha : (if comp (rd a i) (rd a 0) then pop_heap comp a middle i else a) ≡ₚ a).
  { destruct (comp _ _); [|done]. apply pop_heap_perm; lia. }
  rewrite IH; [done | lia | rewrite (Permutation_length Ha); lia].
Qed.

Lemma heap_select_perm (a : list A) middle :
  0 <= middle <= Z.of_nat (length a) -> heap_select comp a middle ≡ₚ a.
Proof.
  intros Hm. unfold heap_select.
  pose proof (make_heap_perm a middle Hm) as Hp.
  rewrite heap_select_loop_perm; [done | lia |].
  rewrite (Permutation_length Hp). lia.
Qed.

Lemma sort_heap_perm fuel (a : list A) last :
  0 <= last <= Z.of_nat (length a) -> sort_heap comp fuel a last ≡ₚ a.
Proof.
  revert a last. induction fuel as [|fuel IH]; intros a l Hl; simpl; [done|].
  destruct (Z.ltb_spec 1 l); [|done].
  assert (Ha : pop_heap comp a (l - 1) (l - 1) ≡ₚ a) by (apply pop_heap_perm; lia).
  rewrite IH; [done | rewrite (Permutation_length Ha); lia].
Qed.

(** Whenever [partial_sort] is defined it rearranges the elements. *)
Lemma partial_sort_perm (a a' : list A) middle :
  partial_sort comp a middle = Returned a' -> a' ≡ₚ a.
Proof.
  unfold partial_sort.
  destruct (Z.ltb_spec middle 0), (Z.ltb_spec (Z.of_nat (length a)) middle);
    simpl; try discriminate.
  intros [= <-].
  assert (Hs : heap_select comp a middle ≡ₚ a) by (apply heap_select_perm; lia).
  rewrite sort_heap_perm; [done | rewrite (Permutation_length Hs); lia].
Qed.

Lemma partial_sort_defined (a : list A) middle :
  partial_sort comp a middle = Undefined <->
  middle < 0 \/ Z.of_nat (length a) < middle.
Proof.
  unfold partial_sort.
  destruct (Z.ltb_spec middle 0), (Z.ltb_spec (Z.of_nat (length a)) middle);
    simpl; split; intros; try done; lia.
Qed.
End HeapPermutation.

(** * The similarity index *)

Lemma inner_product_defined (u v : list float) (init : float) :
  (length u <= length v)%nat -> exists r, inner_product u v init = Returned r.
Proof.
  revert v init. induction u as [|x u IH]; intros [|y v] init Hl; simpl in *;
    eauto; [lia|]. apply IH. lia.
Qed.

Lemma calculateSimilarities_loop_length vec others acc sims :
  calculateSimilarities_loop vec others acc = Returned sims ->
  length sims = (length acc + length others)%nat.
Proof.
  revert acc. induction others as [|o others IH]; intros acc; simpl.
  - intros [= <-]. lia.
  - intros Hs.
    apply obind_Returned in Hs as (dot & _ & Hs).
    apply obind_Returned in Hs as (n1 & _ & Hs).
    apply obind_Returned in Hs as (n2 & _ & Hs).
    apply IH in Hs. rewrite length_app in Hs. simpl in Hs. lia.
Qed.

Lemma calculateSimilarities_length self vec sims :
  calculateSimilarities self vec = Returned sims ->
  length sims = length (productVectors self).
Proof. intros Hs. by apply calculateSimilarities_loop_length in Hs. Qed.

Lemma calculateSimilarities_loop_defined vec others acc :
  Forall (fun v => length v = length vec) others ->
  exists sims, calculateSimilarities_loop vec others acc = Returned sims.
Proof.
  intros Hd. revert acc. induction Hd as [|o others Ho _ IH]; intros acc; simpl.
  - eauto.
  - destruct (inner_product_defined vec o 0%float) as [d ->]; [lia|].
    destruct (inner_product_defined vec vec 0%float) as [n1 ->]; [lia|].
    destruct (inner_product_defined o o 0%float) as [n2 ->]; [lia|].
    simpl. apply IH.
Qed.

Lemma collect_similar_Undefined (ids : list string) idx visited :
  foldl (fun acc ix =>
           result <-- acc ;;
           if ix =? idx then Returned result
           else id <-- at_index ids ix ;; Returned (result ++ [id]))
        Undefined visited = Undefined.
Proof. induction visited as [|ix visited IH]; simpl; done. Qed.

(** What the result loop appends: the ids stored at the visited positions
    other than [idx], in visiting order. *)
Lemma collect_similar_acc (ids : list string) idx visited acc r :
  foldl (fun acc ix =>
           result <-- acc ;;
           if ix =? idx then Returned result
           else id <-- at_index ids ix ;; Returned (result ++ [id]))
        (Returned acc) visited = Returned r ->
  exists picked,
    r = acc ++ ((fun ix => ids !!! Z.to_nat ix) <$> picked) /\
    picked = filter (fun ix => ix <> idx) visited /\
    Forall (fun ix => 0 <= ix < Z.of_nat (length ids)) picked.
Proof.
  revert acc. induction visited as [|ix visited IH]; intros acc; simpl.
  - intros [= <-]. exists []. by rewrite app_nil_r.
  - destruct (Z.eqb_spec ix idx) as [->|Hne].
    + intros Hr. apply IH in Hr as (picked & -> & -> & Hb).
      exists (filter (fun ix => ix <> idx) visited).
      rewrite filter_cons_False by (intros ?; done). done.
    + destruct (at_index ids ix) as [id|] eqn:Hid; simpl;
        [|by rewrite collect_similar_Undefined].
      apply at_index_Returned in Hid as [Hix Hid].
      intros Hr. apply IH in Hr as (picked & -> & -> & Hb).
      exists (ix :: filter (fun ix => ix <> idx) visited).
      rewrite filter_cons_True by done. split_and!; [|done|].
      * rewrite <- app_assoc. simpl. do 3 f_equal.
        symmetry. by apply list_lookup_total_correct.
      * constructor; [|done]. apply lookup_lt_Some in Hid. lia.
Qed.

Lemma collect_similar_Returned (ids : list string) idx visited r :
  collect_similar ids idx visited = Returned r ->
  r = (fun ix => ids !!! Z.to_nat ix) <$> filter (fun ix => ix <> idx) visited /\
  Forall (fun ix => 0 <= ix < Z.of_nat (length ids))
         (filter (fun ix => ix <> idx) visited).
Proof.
  intros Hr. apply collect_similar_acc in Hr as (picked & -> & -> & Hb). done.
Qed.

Lemma collect_similar_defined (ids : list string) idx visited :
  Forall (fun ix => 0 <= ix < Z.of_nat (length ids)) visited ->
  exists r, collect_similar ids idx visited = Returned r.
Proof.
  unfold collect_similar. generalize (@nil string) at 2.
  induction visited as [|ix visited IH]; intros acc Hb; simpl; [eauto|].
  apply Forall_cons in Hb as [Hix Hb].
  destruct (Z.eqb_spec ix idx); [by apply IH|].
  destruct (lookup_lt_is_Some_2 ids (Z.to_nat ix)) as [id Hid]; [lia|].
  assert (at_index ids ix = Returned id) as ->
    by (apply at_index_Returned; split; [lia | done]).
  simpl. by apply IH.
Qed.

(** The steps of [getSimilarProducts] once the id has been found. *)
Lemma getSimilarProducts_found self productId topN r :
  getSimilarProducts self productId topN = Returned r ->
  productId ∈ productIds self -> productVectors self <> [] ->
  exists (i : nat) vec similarities indices,
    productIds self !! i = Some productId /\
    (forall j, (j < i)%nat -> productIds self !! j <> Some productId) /\
    productVectors self !! i = Some vec /\
    calculateSimilarities self vec = Returned similarities /\
    0 <= topN /\ topN + 1 <= Z.of_nat (length similarities) /\
    partial_sort (by_similarity_desc similarities)
                 (iota (length similarities)) (topN + 1) = Returned indices /\
    collect_similar (productIds self) (Z.of_nat i)
                    (take (Z.to_nat topN) indices) = Returned r.
Proof.
  intros Hr Hin Hne. unfold getSimilarProducts in Hr.
  assert (vector_empty (productVectors self) = false) as Ev
    by (by destruct (productVectors self)).
  assert (vector_empty (productIds self) = false) as Ei
    by (destruct (productIds self); [by apply elem_of_nil in Hin | done]).
  rewrite Ev, Ei in Hr. simpl in Hr.
  destruct (list_find _ _) as [[i x]|] eqn:Ef.
  2:{ apply list_find_None in Ef. rewrite Forall_forall in Ef.
      by destruct (Ef _ Hin). }
  apply list_find_Some in Ef as (Hi & -> & Hfirst).
  apply obind_Returned in Hr as (vec & Hvec & Hr).
  apply obind_Returned in Hr as (sims & Hsims & Hr).
  apply obind_Returned in Hr as (m1 & Hm1 & Hr).
  apply obind_Returned in Hr as (m2 & Hm2 & Hr).
  apply obind_Returned in Hr as (indices & Hsort & Hr).
  apply at_index_Returned in Hvec as [_ Hvec]. rewrite Nat2Z.id in Hvec.
  unfold iterator_plus in Hm1, Hm2. rewrite iota_length in Hm1, Hm2.
  destruct (_ || _) eqn:E1 in Hm1; [discriminate|]. injection Hm1 as <-.
  destruct (_ || _) eqn:E2 in Hm2; [discriminate|]. injection Hm2 as <-.
  apply orb_false_iff in E1 as [E1 E1'], E2 as [E2 E2'].
  exists i, vec, sims, indices. split_and!; try done; try lia.
  intros j Hj Hprod. by apply (Hfirst j productId).
Qed.

Lemma getSimilarProducts_absent self productId topN :
  productId ∉ productIds self ->
  getSimilarProducts self productId topN = Returned [].
Proof.
  intros Hin. unfold getSimilarProducts.
  destruct (_ || _); [done|].
  destruct (list_find _ _) as [[i x]|] eqn:Ef; [|done].
  apply list_find_Some in Ef as (Hi & -> & _).
  destruct Hin. by eapply list_elem_of_lookup_2.
Qed.

Lemma partial_sort_iota_bounds comp (n : nat) middle indices :
  partial_sort comp (iota n) middle = Returned indices ->
  Forall (fun ix => 0 <= ix < Z.of_nat n) indices /\ length indices = n.
Proof.
  intros Hs. apply partial_sort_perm in Hs. split.
  - rewrite Hs. apply iota_bounds.
  - by rewrite (Permutation_length Hs), iota_length.
Qed.

Lemma getSimilarProducts_defined self productId topN :
  well_formed self -> productId ∈ productIds self ->
  0 <= topN -> topN + 1 <= Z.of_nat (length (productIds self)) ->
  exists r, getSimilarProducts self productId topN = Returned r.
Proof.
  intros [Hlen [dim Hdim]] Hin H0 Hn. unfold getSimilarProducts.
  assert (vector_empty (productIds self) = false) as ->
    by (destruct (productIds self); [by apply elem_of_nil in Hin | done]).
  assert (vector_empty (productVectors self) = false) as ->
    by (destruct (productVectors self); [simpl in Hlen; lia | done]).
  simpl.
  destruct (list_find _ _) as [[i x]|] eqn:Ef; [|eauto].
  apply list_find_Some in Ef as (Hi & -> & _).
  destruct (lookup_lt_is_Some_2 (productVectors self) i) as [vec Hvec].
  { rewrite Hlen. by eapply lookup_lt_Some. }
  assert (at_index (productVectors self) (Z.of_nat i) = Returned vec) as ->.
  { apply at_index_Returned. rewrite Nat2Z.id. split; [lia | done]. }
  simpl.
  destruct (calculateSimilarities_loop_defined vec (productVectors self) [])
    as [sims Hsims].
  { rewrite Forall_forall in Hdim. apply Forall_forall. intros v Hv.
    rewrite (Hdim v Hv). symmetry. apply Hdim. by eapply list_elem_of_lookup_2. }
  unfold calculateSimilarities at 1. rewrite Hsims. simpl.
  pose proof (calculateSimilarities_length self vec sims Hsims) as Hl.
  unfold iterator_plus. rewrite iota_length, Hl, Hlen.
  destruct (Z.ltb_spec (0 + topN) 0); [lia|].
  destruct (Z.ltb_spec (Z.of_nat (length (productIds self))) (0 + topN)); [lia|].
  simpl.
  destruct (Z.ltb_spec (0 + topN + 1) 0); [lia|].
  destruct (Z.ltb_spec (Z.of_nat (length (productIds self))) (0 + topN + 1)); [lia|].
  simpl.
  destruct (partial_sort _ _ _) as [indices|] eqn:Hs.
  2:{ apply partial_sort_defined in Hs. rewrite iota_length in Hs. lia. }
  simpl. apply collect_similar_defined.
  apply partial_sort_iota_bounds in Hs as [Hb _].
  by apply Forall_take.
Qed.


(** ** C5: a query for an id that is not indexed *)

(** C5 (as amended).  For every index and every product id not present in
    it, the nearest-neighbour query returns the empty sequence as an ordinary
    result; no error is raised. *)
Theorem getSimilarProducts_absent_returns_empty self productId topN :
  productId ∉ productIds self ->
  getSimilarProducts self productId topN = Returned [].
Proof. apply getSimilarProducts_absent. Qed.

(** Values [std::hash<std::string>] returns with libstdc++. *)
Example gnu_hash_values :
  gnu_hash "hello" = 0x26553298fdbe39c8 /\
  gnu_hash "" = 0x553e93901e462a6e /\
  gnu_hash "Mug item-041044 cwmpKGyu" = 0.
Proof. split_and!; vm_compute; reflexivity. Qed.

Lemma sample_index_ids : productIds sample_index = ["P1001"; "P1002"; "P1003"].
Proof. reflexivity. Qed.

Lemma getSimilarProducts_absent_returns_empty_witness :
  ("P9999" ∉ productIds sample_index) /\
  getSimilarProducts sample_index "P9999" 2 = Returned [].
Proof.
  assert (Hn : "P9999" ∉ productIds sample_index).
  { rewrite sample_index_ids. intros Hin.
    repeat (apply elem_of_cons in Hin as [Hin|Hin]; [discriminate|]).
    by apply elem_of_nil in Hin. }
  split; [exact Hn|].
  exact (getSimilarProducts_absent_returns_empty sample_index "P9999" 2 Hn).
Defined.

(** C5 as stated fails: the query for an absent id does not fail, it
    returns an ordinary (empty) result. *)
Lemma getSimilarProducts_absent_is_not_an_error :
  ("P9999" ∉ productIds sample_index) /\
  exists r, getSimilarProducts sample_index "P9999" 2 = Returned r.
Proof.
  split.
  - rewrite sample_index_ids. intros Hin.
    repeat (apply elem_of_cons in Hin as [Hin|Hin]; [discriminate|]).
    by apply elem_of_nil in Hin.
  - exists []. vm_compute. reflexivity.
Qed.

(** ** C2: the query id is not among its own neighbours *)

(** C2.  For every index whose product ids are pairwise distinct and every
    product id, the result of the nearest-neighbour query for that id never
    contains the id itself. *)
Theorem getSimilarProducts_excludes_query self productId topN r :
  NoDup (productIds self) ->
  getSimilarProducts self productId topN = Returned r ->
  productId ∉ r.
Proof.
  intros Hnd Hr Hin.
  destruct (decide (productId ∈ productIds self)) as [Hp|Hp].
  2:{ rewrite getSimilarProducts_absent in Hr by done.
      injection Hr as <-. by apply elem_of_nil in Hin. }
  destruct (productVectors self) as [|v0 vs] eqn:Ev.
  { unfold getSimilarProducts in Hr. rewrite Ev in Hr. simpl in Hr.
    injection Hr as <-. by apply elem_of_nil in Hin. }
  apply getSimilarProducts_found in Hr
    as (i & vec & sims & indices & Hi & _ & _ & _ & _ & _ & _ & Hc);
    [|done|by rewrite Ev].
  apply collect_similar_Returned in Hc as [-> Hb].
  apply list_elem_of_fmap in Hin as (ix & Hix & Hin).
  pose proof Hin as Hne. apply list_elem_of_filter in Hne as [Hne _].
  rewrite Forall_forall in Hb. specialize (Hb ix Hin).
  assert (Hlk : productIds self !! Z.to_nat ix = Some productId).
  { rewrite Hix. apply list_lookup_lookup_total_lt. lia. }
  pose proof (NoDup_lookup _ _ _ _ Hnd Hi Hlk). lia.
Qed.

Lemma getSimilarProducts_excludes_query_witness :
  NoDup (productIds sample_index) /\
  getSimilarProducts sample_index "P1001" 2 = Returned ["P1002"] /\
  ("P1001" ∉ ["P1002"]).
Proof.
  assert (Hnd : NoDup (productIds sample_index)).
  { rewrite sample_index_ids.
    exact (bool_decide_unpack (NoDup ["P1001"; "P1002"; "P1003"]) I). }
  assert (Hr : getSimilarProducts sample_index "P1001" 2 = Returned ["P1002"])
    by (vm_compute; reflexivity).
  split_and!; [exact Hnd | exact Hr |].
  exact (getSimilarProducts_excludes_query sample_index "P1001" 2 _ Hnd Hr).
Defined.

(** ** C10: the bound of the partial sort *)

(** C10.  When the queried id is present in a well-formed index, the query
    stays in bounds exactly when [0 <= topN] and the index holds at least
    [topN + 1] products.  In particular it stays in bounds only if the index
    holds [topN + 1] products, and an index holding between 1 and [topN]
    products puts the middle iterator past the end. *)
Theorem getSimilarProducts_in_bounds self productId topN :
  well_formed self -> productId ∈ productIds self ->
  let size := Z.of_nat (length (productIds self)) in
  ((exists r, getSimilarProducts self productId topN = Returned r) <->
   0 <= topN /\ topN + 1 <= size) /\
  (1 <= size <= topN -> getSimilarProducts self productId topN = Undefined).
Proof.
  intros Hwf Hin size.
  assert (Hne : productVectors self <> []).
  { destruct Hwf as [Hlen _]. intros Hv. rewrite Hv in Hlen.
    destruct (productIds self); [by apply elem_of_nil in Hin | done]. }
  assert (Hiff : (exists r, getSimilarProducts self productId topN = Returned r)
                 <-> 0 <= topN /\ topN + 1 <= size).
  { split.
    - intros [r Hr].
      apply getSimilarProducts_found in Hr
        as (i & vec & sims & indices & _ & _ & _ & Hs & H0 & Hn & _); [|done..].
      apply calculateSimilarities_length in Hs.
      destruct Hwf as [Hlen _]. subst size. lia.
    - intros [H0 Hn]. by apply getSimilarProducts_defined. }
  split; [exact Hiff|].
  intros Hsize.
  destruct (getSimilarProducts self productId topN) as [r|] eqn:Hr; [|done].
  assert (0 <= topN /\ topN + 1 <= size) by (apply Hiff; eauto). lia.
Qed.

Lemma sample_index_well_formed : well_formed sample_index.
Proof.
  split; [reflexivity|]. exists 128%nat.
  repeat (constructor; [reflexivity|]). constructor.
Qed.

(** The demo itself asks for five neighbours in an index of three. *)
Lemma getSimilarProducts_in_bounds_witness :
  ((exists r, getSimilarProducts sample_index "P1001" 5 = Returned r) <->
   0 <= 5 /\ 5 + 1 <= 3) /\
  (1 <= 3 <= 5 -> getSimilarProducts sample_index "P1001" 5 = Undefined).
Proof.
  apply (getSimilarProducts_in_bounds sample_index "P1001" 5).
  - exact sample_index_well_formed.
  - rewrite sample_index_ids. apply elem_of_cons. by left.
Defined.

(** ** C9: rebuilding the index *)

(** C9.  Rebuilding the index twice from the same store gives the same index
    as rebuilding it once, whatever it held before, so every later
    nearest-neighbour query returns the same result. *)
Theorem prepareProductVectors_idempotent hasher db self productId topN :
  let once := prepareProductVectors hasher db self in
  let twice := prepareProductVectors hasher db once in
  twice = once /\
  getSimilarProducts twice productId topN =
    getSimilarProducts once productId topN.
Proof. intros once twice. split; reflexivity. Qed.

(** ** C1: cosine similarity and the zero vector *)

Lemma inner_product_foldl (u v : list float) (init : float) :
  (length u <= length v)%nat ->
  inner_product u v init =
    Returned (foldl (fun acc xy => (acc + xy.1 * xy.2)%float) init (zip u v)).
Proof.
  revert v init. induction u as [|x u IH]; intros [|y v] init Hl; simpl in *;
    try done; [lia|]. apply IH. lia.
Qed.

Lemma calculateSimilarities_loop_cosine vec others acc :
  Forall (fun v => length v = length vec) others ->
  calculateSimilarities_loop vec others acc =
    Returned (acc ++ (cosine vec <$> others)).
Proof.
  intros Hd. revert acc. induction Hd as [|o others Ho _ IH]; intros acc; simpl.
  - by rewrite app_nil_r.
  - rewrite !inner_product_foldl by lia. simpl.
    rewrite IH, <- app_assoc. reflexivity.
Qed.

(** Every entry of the similarity vector is [dot(u,v) / (|u| * |v|)]. *)
Lemma calculateSimilarities_is_cosine self vec :
  Forall (fun v => length v = length vec) (productVectors self) ->
  calculateSimilarities self vec = Returned (cosine vec <$> productVectors self).
Proof. intros Hd. by apply calculateSimilarities_loop_cosine. Qed.

(** C1 (the code at the failing input).  The text of product P0 hashes to 0,
    so its vector is the zero vector, and the similarity of that vector with
    itself is [0/0]: a NaN, and not 0. *)
Theorem calculateSimilarities_zero_norm_is_nan :
  let zero := replicate 128 0%float in
  gnu_hash "Mug item-041044 cwmpKGyu" = 0 /\
  productVectors zero_index = [zero] /\
  exists s, calculateSimilarities zero_index zero = Returned [s] /\
            s = cosine zero zero /\
            PrimFloat.is_nan s = true /\ PrimFloat.eqb s 0 = false.
Proof.
  intros zero. split; [vm_compute; reflexivity|].
  split; [vm_compute; reflexivity|].
  exists (cosine zero zero). split_and!.
  - rewrite calculateSimilarities_is_cosine; [reflexivity|].
    repeat constructor.
  - reflexivity.
  - vm_compute. reflexivity.
  - vm_compute. reflexivity.
Qed.

(** * The k-means loop *)

Lemma squared_distance_defined point centroid distance :
  (length point <= length centroid)%nat ->
  exists d, squared_distance point centroid distance = Returned d.
Proof.
  revert centroid distance.
  induction point as [|x point IH]; intros [|c centroid] distance Hl;
    simpl in *; eauto; [lia|]. apply IH. lia.
Qed.

Lemma nearest_loop_range n point centroids j bestCluster bestDistance :
  Forall (fun c => length c = length point) centroids ->
  0 <= j -> j + Z.of_nat n <= Z.of_nat (length centroids) ->
  exists b, nearest_loop n point centroids j bestCluster bestDistance
              = Returned b /\
            (b = bestCluster \/ j <= b < j + Z.of_nat n).
Proof.
  intros Hd. revert j bestCluster bestDistance.
  induction n as [|n IH]; intros j best bd Hj Hn; simpl.
  - eauto.
  - destruct (lookup_lt_is_Some_2 centroids (Z.to_nat j)) as [c Hc]; [lia|].
    assert (at_index centroids j = Returned c) as ->
      by (apply at_index_Returned; split; [lia | done]).
    simpl.
    destruct (squared_distance_defined point c 0%float) as [d ->].
    { rewrite Forall_forall in Hd. rewrite (Hd c); [lia|].
      by eapply list_elem_of_lookup_2. }
    simpl. destruct (PrimFloat.ltb d bd).
    + destruct (IH (j + 1) j d) as (b & -> & Hb); [lia..|].
      exists b. split; [done | lia].
    + destruct (IH (j + 1) best bd) as (b & -> & Hb); [lia..|].
      exists b. split; [done | lia].
Qed.

Lemma nearest_range point centroids k :
  Forall (fun c => length c = length point) centroids ->
  0 < k -> length centroids = Z.to_nat k ->
  exists b, nearest point centroids k = Returned b /\ 0 <= b < k.
Proof.
  intros Hd Hk Hl.
  destruct (nearest_loop_range (Z.to_nat k) point centroids 0 0 DBL_MAX Hd)
    as (b & Hb & Hr); [lia..|].
  exists b. split; [done | lia].
Qed.

Lemma assign_loop_range (dim : nat) features clusters centroids k :
  Forall (fun p => length p = dim) features ->
  Forall (fun c => length c = dim) centroids ->
  0 < k -> length centroids = Z.to_nat k ->
  length clusters = length features ->
  exists clusters' changed,
    assign_loop features clusters centroids k = Returned (clusters', changed) /\
    length clusters' = length features /\
    Forall (fun c => 0 <= c < k) clusters'.
Proof.
  intros Hf Hc Hk Hck. revert clusters.
  induction Hf as [|p features Hp _ IH]; intros [|c clusters] Hl;
    simpl in *; try lia.
  - exists [], false. done.
  - destruct (nearest_range p centroids k) as (b & -> & Hb); [|done..|].
    { eapply Forall_impl; [exact Hc|]. simpl. intros; lia. }
    destruct (IH clusters) as (cl & ch & -> & Hlen & Hr); [lia|].
    simpl. eexists _, _. split; [reflexivity|].
    split; [simpl; lia | by constructor].
Qed.

Lemma add_point_add_rows row point :
  length row = length point ->
  add_point row point = Returned (add_rows row point).
Proof.
  revert row. induction point as [|x point IH]; intros [|r row] Hl;
    simpl in *; try done. rewrite IH by lia. done.
Qed.

Lemma add_rows_length row point :
  length row = length point -> length (add_rows row point) = length row.
Proof. intros Hl. unfold add_rows. rewrite length_zip_with. lia. Qed.

Lemma members_cons p features c clusters j :
  members (p :: features) (c :: clusters) j =
    if decide (c = j) then p :: members features clusters j
    else members features clusters j.
Proof.
  unfold members. simpl. rewrite filter_cons. simpl.
  destruct (decide (c = j)); done.
Qed.

Lemma accumulate_spec (dim : nat) features :
  Forall (fun p => length p = dim) features ->
  forall clusters newCentroids counts,
    length clusters = length features ->
    Forall (fun c => 0 <= c < Z.of_nat (length newCentroids)) clusters ->
    length counts = length newCentroids ->
    Forall (fun r => length r = dim) newCentroids ->
    exists newCentroids' counts',
      accumulate features clusters newCentroids counts
        = Returned (newCentroids', counts') /\
      length newCentroids' = length newCentroids /\
      length counts' = length newCentroids /\
      forall (j : nat) row n,
        newCentroids !! j = Some row -> counts !! j = Some n ->
        newCentroids' !! j =
          Some (foldl add_rows row (members features clusters (Z.of_nat j))) /\
        counts' !! j =
          Some (n + Z.of_nat (length (members features clusters (Z.of_nat j)))).
Proof.
  induction 1 as [|p features Hp _ IH]; intros [|c clusters] nc cnt Hl Hr Hcnt Hnc;
    simpl in *; try lia.
  - exists nc, cnt. split_and!; try done.
    intros j row n Hrow Hn. unfold members. simpl. rewrite Hrow, Hn.
    split; do 2 f_equal; lia.
  - apply Forall_cons in Hr as [Hc Hr].
    destruct (lookup_lt_is_Some_2 nc (Z.to_nat c)) as [row Hrow]; [lia|].
    destruct (lookup_lt_is_Some_2 cnt (Z.to_nat c)) as [n Hn]; [lia|].
    assert (at_index nc c = Returned row) as ->
      by (apply at_index_Returned; split; [lia | done]).
    assert (at_index cnt c = Returned n) as ->
      by (apply at_index_Returned; split; [lia | done]).
    assert (Hrl : length row = length p).
    { rewrite Forall_forall in Hnc. rewrite Hp. apply Hnc.
      by eapply list_elem_of_lookup_2. }
    simpl. rewrite add_point_add_rows by done. simpl.
    destruct (IH clusters (<[Z.to_nat c := add_rows row p]> nc)
                (<[Z.to_nat c := n + 1]> cnt))
      as (nc' & cnt' & -> & Hl1 & Hl2 & Hspec).
    + lia.
    + by rewrite length_insert.
    + by rewrite !length_insert.
    + apply Forall_insert; [done|]. rewrite add_rows_length by done.
      rewrite Hrl. done.
    + rewrite length_insert in Hl1, Hl2.
      exists nc', cnt'. split_and!; try done.
      intros j rowj nj Hrowj Hnj. rewrite members_cons.
      destruct (decide (c = Z.of_nat j)) as [->|Hne].
      * rewrite Nat2Z.id in *. rewrite Hrowj in Hrow. rewrite Hnj in Hn.
        injection Hrow as <-. injection Hn as <-.
        destruct (Hspec j (add_rows rowj p) (nj + 1)) as [-> ->].
        -- apply list_lookup_insert_eq. by eapply lookup_lt_Some.
        -- apply list_lookup_insert_eq. by eapply lookup_lt_Some.
        -- split; [done|]. f_equal. simpl. lia.
      * destruct (Hspec j rowj nj) as [-> ->]; [| |done].
        -- rewrite list_lookup_insert_ne by lia. done.
        -- rewrite list_lookup_insert_ne by lia. done.
Qed.

Lemma update_centroids_spec features clusters k :
  let dim := length (default [] (head features)) in
  Forall (fun p => length p = dim) features ->
  length clusters = length features ->
  Forall (fun c => 0 <= c < k) clusters ->
  exists newCentroids,
    update_centroids features clusters k = Returned newCentroids /\
    length newCentroids = Z.to_nat k /\
    forall j, 0 <= j < k ->
      newCentroids !! Z.to_nat j =
        Some (match members features clusters j with
              | [] => replicate dim 0%float
              | _ :: _ => mean_point dim (members features clusters j)
              end).
Proof.
  intros dim Hf Hl Hr. unfold update_centroids. fold dim.
  destruct (accumulate_spec dim features Hf clusters
              (replicate (Z.to_nat k) (replicate dim 0%float))
              (replicate (Z.to_nat k) 0))
    as (nc & cnt & -> & Hl1 & Hl2 & Hspec).
  - done.
  - rewrite length_replicate. eapply Forall_impl; [exact Hr|]. simpl. lia.
  - by rewrite !length_replicate.
  - apply Forall_replicate. by rewrite length_replicate.
  - rewrite length_replicate in Hl1, Hl2. simpl.
    eexists. split; [reflexivity|]. split.
    + rewrite length_zip_with. lia.
    + intros j Hj.
      destruct (Hspec (Z.to_nat j) (replicate dim 0%float) 0) as [Hn Hc].
      * apply lookup_replicate_2. lia.
      * apply lookup_replicate_2. lia.
      * rewrite Z2Nat.id in Hn, Hc by lia.
        rewrite lookup_zip_with, Hn, Hc. simpl. f_equal.
        unfold divide_row, mean_point, coordinate_sums.
        destruct (members features clusters j) as [|m ms]; [done|].
        simpl length.
        destruct (Z.ltb_spec 0 (0 + Z.of_nat (S (length ms)))); [|lia].
        reflexivity.
Qed.

(** ** C8: the centroid update *)

(** C8 (as amended).  In every centroid update over points of one dimension
    whose clusters lie in [0, k), each centroid with at least one member
    becomes the mean of its members, and each centroid without members
    becomes the zero vector; the previous centroids are not consulted. *)
Theorem update_centroids_members features clusters k :
  let dim := length (default [] (head features)) in
  Forall (fun p => length p = dim) features ->
  length clusters = length features ->
  Forall (fun c => 0 <= c < k) clusters ->
  exists newCentroids,
    update_centroids features clusters k = Returned newCentroids /\
    length newCentroids = Z.to_nat k /\
    forall j, 0 <= j < k ->
      newCentroids !! Z.to_nat j =
        Some (match members features clusters j with
              | [] => replicate dim 0%float
              | _ :: _ => mean_point dim (members features clusters j)
              end).
Proof. apply update_centroids_spec. Qed.

Lemma update_centroids_members_witness :
  exists newCentroids,
    update_centroids mirror_features [2; 0; 0] 3 = Returned newCentroids /\
    length newCentroids = 3%nat /\
    forall j, 0 <= j < 3 ->
      newCentroids !! Z.to_nat j =
        Some (match members mirror_features [2; 0; 0] j with
              | [] => replicate 2 0%float
              | _ :: _ => mean_point 2 (members mirror_features [2; 0; 0] j)
              end).
Proof.
  apply (update_centroids_members mirror_features [2; 0; 0] 3).
  - repeat constructor.
  - reflexivity.
  - repeat constructor; lia.
Defined.

(** C8 as stated fails: after the first pass on [mirror_features] cluster 1
    has no member, its previous centroid was [mirror_a], and its new centroid
    is the zero vector. *)
Lemma empty_cluster_centroid_not_kept :
  initial_centroids glibc_rand mirror_features 3
    = Returned (centroids mirror_start) /\
  exists s changed,
    kmeans_pass mirror_features 3 mirror_start = Returned (s, changed) /\
    members mirror_features (clusters s) 1 = [] /\
    centroids mirror_start !! 1%nat = Some mirror_a /\
    centroids s !! 1%nat = Some [0; 0]%float /\
    mirror_a <> [0; 0]%float.
Proof.
  split; [vm_compute; reflexivity|].
  exists mirror_state1, true. split_and!; try (vm_compute; reflexivity).
  intros Heq.
  apply (f_equal (fun l => match l with
                           | x :: _ => PrimFloat.eqb x 0
                           | [] => true
                           end)) in Heq.
  vm_compute in Heq. discriminate.
Qed.

(** From a state with one cluster per point and [k] centroids of the
    points' dimension, a pass is defined, keeps that shape, and hands
    [update_centroids] clusters in [0, k). *)
Lemma kmeans_pass_defined (dim : nat) features k s :
  0 < k ->
  Forall (fun p => length p = dim) features ->
  length (clusters s) = length features ->
  length (centroids s) = Z.to_nat k ->
  Forall (fun c => length c = dim) (centroids s) ->
  exists s' changed,
    kmeans_pass features k s = Returned (s', changed) /\
    length (clusters s') = length features /\
    Forall (fun c => 0 <= c < k) (clusters s') /\
    update_centroids features (clusters s') k = Returned (centroids s') /\
    length (centroids s') = Z.to_nat k.
Proof.
  intros Hk Hf Hl Hck Hcd. unfold kmeans_pass.
  destruct (assign_loop_range dim features (clusters s) (centroids s) k)
    as (cl & ch & -> & Hcl & Hr'); try done.
  simpl.
  destruct (update_centroids_spec features cl k) as (nc & Hnc & Hlen & _);
    try done.
  { destruct Hf as [|p features Hp Hf]; [constructor|].
    simpl. constructor; [done|]. by rewrite Hp. }
  rewrite Hnc. simpl. exists {| clusters := cl; centroids := nc |}, ch.
  done.
Qed.

(** ** C7: when the loop stops *)

(** The loop returns exactly when some pass leaves the flag unset, after the
    first such pass and with the assignment that pass leaves; a pass budget
    [fuel] is enough exactly when that pass is among the first [fuel]. *)
Lemma kmeans_loop_stops_at_first_unchanged_pass fuel features k s result :
  kmeans_loop fuel features k s = Some (Returned result) <->
  exists n, (n < fuel)%nat /\ first_unchanged features k s n result.
Proof.
  revert s. induction fuel as [|fuel IH]; intros s; simpl.
  - split; [discriminate | intros (n & Hn & _); lia].
  - split.
    + destruct (kmeans_pass features k s) as [[s' changed]|] eqn:Hp;
        [|discriminate].
      destruct changed.
      * intros Hl. apply IH in Hl as (n & Hn & Hf).
        exists (S n). split; [lia|]. simpl. rewrite Hp. done.
      * intros [= <-]. exists O. split; [lia|]. simpl. rewrite Hp. done.
    + intros (n & Hn & Hf).
      destruct n as [|n]; simpl in Hf;
        destruct (kmeans_pass features k s) as [[s' changed]|]; try done.
      * destruct Hf as [-> ->]. done.
      * destruct Hf as [-> Hf]. apply IH. exists n. split; [lia | done].
Qed.

(** A run that stops: two separated groups are told apart, and the third
    pass is the first to change nothing. *)
Example simpleKMeans_separated :
  simpleKMeans 3 glibc_rand separated_features 2 = Some (Returned [1; 1; 0; 0]) /\
  simpleKMeans 2 glibc_rand separated_features 2 = None.
Proof. split; vm_compute; reflexivity. Qed.

Lemma kmeans_loop_changed fuel features k s s' :
  kmeans_pass features k s = Returned (s', true) ->
  kmeans_loop (S fuel) features k s = kmeans_loop fuel features k s'.
Proof. intros Hp. simpl. by rewrite Hp. Qed.

Lemma mirror_cycle fuel :
  kmeans_loop fuel mirror_features 3 mirror_state1 = None /\
  kmeans_loop fuel mirror_features 3 mirror_state2 = None.
Proof.
  assert (H12 : kmeans_pass mirror_features 3 mirror_state1
                = Returned (mirror_state2, true)) by (vm_compute; reflexivity).
  assert (H21 : kmeans_pass mirror_features 3 mirror_state2
                = Returned (mirror_state1, true)) by (vm_compute; reflexivity).
  induction fuel as [|fuel [IH1 IH2]]; [done|].
  split.
  - by rewrite (kmeans_loop_changed _ _ _ _ _ H12).
  - by rewrite (kmeans_loop_changed _ _ _ _ _ H21).
Qed.

(** On [mirror_features] with [k = 3] every pass moves the two mirrored
    points between clusters 0 and 1, so the loop never stops. *)
Lemma simpleKMeans_mirror_runs_forever :
  runs_forever glibc_rand mirror_features 3.
Proof.
  intros fuel. unfold simpleKMeans.
  change (kmeans_loop fuel mirror_features 3 mirror_start = None).
  destruct fuel as [|fuel]; [done|].
  assert (H01 : kmeans_pass mirror_features 3 mirror_start
                = Returned (mirror_state1, true)) by (vm_compute; reflexivity).
  rewrite (kmeans_loop_changed _ _ _ _ _ H01). apply mirror_cycle.
Qed.

(** What the flag records: [changed] is set exactly when the pass leaves
    some point in another cluster than it found it in. *)
Lemma assign_loop_changed features : forall clusters centroids k clusters' changed,
  assign_loop features clusters centroids k = Returned (clusters', changed) ->
  (changed = true <-> clusters' <> clusters).
Proof.
  induction features as [|point features IH];
    intros clusters centroids k clusters' changed; simpl.
  - intros [= <- <-]. split; [discriminate | intros Hne; by destruct Hne].
  - destruct clusters as [|c clusters]; [discriminate|].
    destruct (nearest point centroids k) as [bestCluster|]; [|discriminate].
    simpl.
    destruct (assign_loop features clusters centroids k) as [[rest flag]|]
      eqn:Hrest; [|discriminate].
    simpl. intros [= <- <-]. specialize (IH _ _ _ _ _ Hrest).
    rewrite orb_true_iff, negb_true_iff, Z.eqb_neq, IH. split.
    + intros [Hc|Hr] [= Hb Ht]; [by apply Hc | by apply Hr].
    + intros Hne. destruct (decide (c = bestCluster)) as [->|Hc]; [|by left].
      right. intros ->. by apply Hne.
Qed.

Lemma kmeans_pass_changed features k s s' changed :
  kmeans_pass features k s = Returned (s', changed) ->
  (changed = true <-> clusters s' <> clusters s).
Proof.
  unfold kmeans_pass.
  destruct (assign_loop features (clusters s) (centroids s) k)
    as [[clusters' flag]|] eqn:Ha; [|discriminate].
  simpl.
  destruct (update_centroids features clusters' k) as [centroids'|];
    [|discriminate].
  simpl. intros [= <- <-]. simpl. by eapply assign_loop_changed.
Qed.

(** Whatever the loop returns is an assignment that a whole pass found and
    left as it was. *)
Lemma kmeans_loop_settled fuel features k : forall s result,
  kmeans_loop fuel features k s = Some (Returned result) ->
  exists s0 s1,
    kmeans_pass features k s0 = Returned (s1, false) /\
    clusters s1 = clusters s0 /\ result = clusters s1.
Proof.
  induction fuel as [|fuel IH]; intros s result; simpl; [discriminate|].
  destruct (kmeans_pass features k s) as [[s' changed]|] eqn:Hp;
    [|discriminate].
  destruct changed; [apply IH|].
  intros [= <-]. exists s, s'. split_and!; [done| |done].
  destruct (decide (clusters s' = clusters s)) as [|Hne]; [done|].
  by apply (kmeans_pass_changed _ _ _ _ _ Hp) in Hne.
Qed.

Lemma stalled_cycle fuel :
  kmeans_loop fuel stalled_features 4 stalled_state1 = None /\
  kmeans_loop fuel stalled_features 4 stalled_state2 = None.
Proof.
  assert (H12 : kmeans_pass stalled_features 4 stalled_state1
                = Returned (stalled_state2, true)) by (vm_compute; reflexivity).
  assert (H21 : kmeans_pass stalled_features 4 stalled_state2
                = Returned (stalled_state1, true)) by (vm_compute; reflexivity).
  induction fuel as [|fuel [IH1 IH2]]; [done|].
  split.
  - by rewrite (kmeans_loop_changed _ _ _ _ _ H12).
  - by rewrite (kmeans_loop_changed _ _ _ _ _ H21).
Qed.

Lemma simpleKMeans_stalled fuel :
  simpleKMeans fuel unseeded_rand stalled_features 4 = None.
Proof.
  unfold simpleKMeans.
  change (kmeans_loop fuel stalled_features 4 stalled_start = None).
  destruct fuel as [|fuel]; [done|].
  assert (H01 : kmeans_pass stalled_features 4 stalled_start
                = Returned (stalled_state1, true)) by (vm_compute; reflexivity).
  rewrite (kmeans_loop_changed _ _ _ _ _ H01). apply stalled_cycle.
Qed.

Lemma updateCustomerSegments_stalled fuel :
  updateCustomerSegments stod_decimal fuel unseeded_rand stalled_db
                         stalled_data 4 = None.
Proof.
  assert (Hrows : prepare_features stod_decimal stalled_data [] []
                  = Some (f_customer_id <$> stalled_data, stalled_rows))
    by (vm_compute; reflexivity).
  assert (Hnorm : normalizeFeatures stalled_rows = Returned stalled_features)
    by (vm_compute; reflexivity).
  unfold updateCustomerSegments.
  assert (vector_empty stalled_data = false) as -> by reflexivity.
  by rewrite Hrows, Hnorm, simpleKMeans_stalled.
Qed.

(** C7.  The loop stops only by finding a pass that changes no point's
    cluster: the flag [changed] of a pass says that some point left its
    cluster, and what [simpleKMeans] returns is an assignment that such a
    pass left as it was.  Nothing caps the number of passes.  For the store
    [stalled_db] (six customers, [nClusters = 4], the first values of
    [rand()]) the four scaled points near the origin are all in cluster 0
    after the first pass and cluster 3 is empty, so its centroid is reset
    to the origin; from then on every pass moves the four points to the
    cluster whose centroid is the origin and resets the other one (the
    states alternate with period two).  [simpleKMeans] never returns on
    these features, not after 100 passes and not after any other number,
    and so [updateCustomerSegments] never returns for this store. *)
Theorem simpleKMeans_has_no_iteration_cap :
  (forall features k s s' changed,
     kmeans_pass features k s = Returned (s', changed) ->
     (changed = true <-> clusters s' <> clusters s)) /\
  (forall fuel rand features k result,
     simpleKMeans fuel rand features k = Some (Returned result) ->
     result = [] \/
     exists s0 s1,
       kmeans_pass features k s0 = Returned (s1, false) /\
       clusters s1 = clusters s0 /\ result = clusters s1) /\
  prepare_features stod_decimal stalled_data [] []
  = Some (f_customer_id <$> stalled_data, stalled_rows) /\
  normalizeFeatures stalled_rows = Returned stalled_features /\
  initial_centroids unseeded_rand stalled_features 4
  = Returned (centroids stalled_start) /\
  kmeans_pass stalled_features 4 stalled_start
  = Returned (stalled_state1, true) /\
  kmeans_pass stalled_features 4 stalled_state1
  = Returned (stalled_state2, true) /\
  kmeans_pass stalled_features 4 stalled_state2
  = Returned (stalled_state1, true) /\
  clusters stalled_state1 = [0; 0; 0; 2; 1; 0] /\
  clusters stalled_state2 = [3; 3; 3; 2; 1; 3] /\
  simpleKMeans 100 unseeded_rand stalled_features 4 = None /\
  (forall fuel, simpleKMeans fuel unseeded_rand stalled_features 4 = None) /\
  (forall fuel,
     updateCustomerSegments stod_decimal fuel unseeded_rand stalled_db
                            stalled_data 4 = None).
Proof.
  split_and!.
  - apply kmeans_pass_changed.
  - intros fuel rand features k result. unfold simpleKMeans.
    destruct (vector_empty features || (k <=? 0)); [intros [= <-]; by left|].
    destruct (initial_centroids rand features k) as [centroids|];
      [|discriminate].
    intros Hl. right. by eapply kmeans_loop_settled.
  - vm_compute. reflexivity.
  - vm_compute. reflexivity.
  - vm_compute. reflexivity.
  - vm_compute. reflexivity.
  - vm_compute. reflexivity.
  - vm_compute. reflexivity.
  - reflexivity.
  - reflexivity.
  - apply simpleKMeans_stalled.
  - apply simpleKMeans_stalled.
  - apply updateCustomerSegments_stalled.
Qed.

(** * The recommendation waterfall *)

Global Instance by_popularity_desc_total : Total by_popularity_desc.
Proof.
  intros p q. unfold by_popularity_desc. rewrite !Qle_bool_iff.
  destruct (Qlt_le_dec (p_popularity_score p) (p_popularity_score q)) as [Hlt|Hle].
  - right. by apply Qlt_le_weak.
  - by left.
Qed.

Global Instance by_popularity_desc_trans : Transitive by_popularity_desc.
Proof.
  intros p q r. unfold by_popularity_desc. rewrite !Qle_bool_iff.
  intros H1 H2. by eapply Qle_trans.
Qed.

Lemma select_profile_absent db customerId :
  (forall c, c ∈ customers db -> c_customer_id c <> customerId) ->
  select_profile db customerId = [].
Proof.
  intros Habs. unfold select_profile.
  induction (customers db) as [|c cs IH]; [done|].
  rewrite filter_cons_False by (apply Habs, elem_of_cons; by left).
  apply IH. intros c' Hc'. apply Habs, elem_of_cons. by right.
Qed.

(** ** C4: a customer without a profile *)

(** C4.  The cold start holds for every customer id that the profile query
    reads as a literal: without a profile row the recommendation is the
    popularity fallback.  It does not hold for every id, because the id is
    spliced into the query text between apostrophes as it is: for the id
    [' OR '1'='1], which no customer has, the text sent compares
    [customer_id] with the empty text or ['1'] with ['1'], a condition every
    row meets, so [profile.empty()] fails and the fallback is not taken. *)
Theorem getRecommendations_cold_start :
  (forall db productAgent customerId topN,
     sql_literal customerId = true ->
     (forall c, c ∈ customers db -> c_customer_id c <> customerId) ->
     0 <= topN ->
     getRecommendations db productAgent customerId topN
       = Returned (getFallbackRecommendations db topN) /\
     exists ranked,
       ranked ≡ₚ products db /\
       StronglySorted by_popularity_desc ranked /\
       getFallbackRecommendations db topN
         = p_product_id <$> take (Z.to_nat topN) ranked) /\
  sql_literal "' OR '1'='1" = false /\
  profile_query "' OR '1'='1"
    = "SELECT segment, preferences FROM customers WHERE customer_id = '' OR '1'='1'".
Proof.
  split_and!; [|reflexivity..].
  intros db productAgent customerId topN _ Habs HtopN. split.
  - unfold getRecommendations. by rewrite select_profile_absent.
  - exists (merge_sort by_popularity_desc (products db)). split_and!.
    + apply merge_sort_Permutation.
    + apply StronglySorted_merge_sort; apply _.
    + unfold getFallbackRecommendations, select_by_popularity, sql_limit.
      destruct (Z.ltb_spec topN 0); [lia | done].
Qed.

Lemma getRecommendations_cold_start_witness :
  getRecommendations sample_db sample_index "CUST003" 2
    = Returned (getFallbackRecommendations sample_db 2) /\
  exists ranked,
    ranked ≡ₚ products sample_db /\
    StronglySorted by_popularity_desc ranked /\
    getFallbackRecommendations sample_db 2
      = p_product_id <$> take (Z.to_nat 2) ranked.
Proof.
  apply (proj1 getRecommendations_cold_start sample_db sample_index
           "CUST003" 2).
  - reflexivity.
  - intros c Hc. simpl in Hc.
    repeat (apply elem_of_cons in Hc as [->|Hc]; [discriminate|]).
    by apply elem_of_nil in Hc.
  - lia.
Defined.

Example getRecommendations_cold_start_sample :
  getRecommendations sample_db sample_index "CUST003" 2
    = Returned ["P1002"; "P1001"].
Proof. vm_compute. reflexivity. Qed.

(** ** Sorting and de-duplicating the gathered ids *)

Lemma unique_cons_head x l : exists r, unique (x :: l) = x :: r.
Proof.
  simpl. destruct (unique l) as [|y r]; [eauto|].
  destruct (decide (x = y)) as [->|]; eauto.
Qed.

Lemma unique_elem_of x l : x ∈ unique l <-> x ∈ l.
Proof.
  induction l as [|y l IH]; [done|]. simpl.
  destruct (unique l) as [|z r] eqn:Eu.
  - assert (l = []) as ->.
    { destruct l as [|w l]; [done|].
      destruct (unique_cons_head w l) as [r Hr]. congruence. }
    done.
  - destruct (decide (y = z)) as [->|Hne].
    + rewrite IH, !elem_of_cons. split; [tauto|].
      intros [->|Hx]; [|done]. apply IH. apply elem_of_cons. by left.
    + rewrite (elem_of_cons (z :: r)), IH, elem_of_cons. done.
Qed.

Lemma unique_sorted l :
  StronglySorted String.le l -> StronglySorted (strict String.le) (unique l).
Proof.
  induction 1 as [|x l Hs IH Hx]; [constructor|]. simpl.
  destruct (unique l) as [|y r] eqn:Eu; [repeat constructor|].
  destruct (decide (x = y)) as [->|Hne]; [done|].
  assert (Hxy : strict String.le x y).
  { apply strict_spec_alt. split; [|done].
    rewrite Forall_forall in Hx. apply Hx, unique_elem_of.
    rewrite Eu. apply elem_of_cons. by left. }
  constructor; [done|]. constructor; [done|].
  apply StronglySorted_cons in IH as [Hy _].
  eapply Forall_impl; [exact Hy|]. simpl. intros z Hz. by etrans.
Qed.

Lemma sorted_distinct_spec l :
  StronglySorted (strict String.le) (unique (sort_strings l)) /\
  forall x, x ∈ unique (sort_strings l) <-> x ∈ l.
Proof.
  split.
  - apply unique_sorted. apply StronglySorted_merge_sort; apply _.
  - intros x. rewrite unique_elem_of. unfold sort_strings.
    by rewrite merge_sort_Permutation.
Qed.

Lemma similar_lookups_Returned productAgent recent topN acc all :
  similar_lookups productAgent recent topN acc = Returned all <->
  exists lookups,
    Forall2 (fun p l => getSimilarProducts productAgent p topN = Returned l)
            recent lookups /\
    all = acc ++ concat lookups.
Proof.
  revert acc. induction recent as [|p recent IH]; intros acc; simpl.
  - split.
    + intros [= <-]. exists []. split; [constructor | by rewrite app_nil_r].
    + intros (lookups & Hf & ->). inversion Hf. by rewrite app_nil_r.
  - split.
    + intros Hs. apply obind_Returned in Hs as (l & Hl & Hs).
      apply IH in Hs as (lookups & Hf & ->).
      exists (l :: lookups). split; [by constructor|].
      simpl. by rewrite app_assoc.
    + intros (lookups & Hf & ->). inversion Hf as [|? l ? ls Hl Hf']; subst.
      rewrite Hl. simpl. apply IH. exists ls. split; [done|].
      simpl. by rewrite app_assoc.
Qed.

Lemma getRecommendations_personalized_result db productAgent customerId topN lookups :
  select_profile db customerId <> [] ->
  getRecentInteractions db customerId <> [] ->
  Forall2 (fun p l => getSimilarProducts productAgent p topN = Returned l)
          (getRecentInteractions db customerId) lookups ->
  concat lookups <> [] ->
  0 <= topN < 2 ^ 31 ->
  let distinct := unique (sort_strings (concat lookups)) in
  getRecommendations db productAgent customerId topN
    = Returned (take (Z.to_nat topN) distinct) /\
  StronglySorted (strict String.le) distinct /\
  forall x, x ∈ distinct <-> x ∈ concat lookups.
Proof.
  intros Hprofile Hrecent Hlookups Hsome HtopN distinct.
  split; [|apply sorted_distinct_spec].
  unfold getRecommendations.
  destruct (select_profile db customerId) as [|profile rest]; [done|].
  destruct (getRecentInteractions db customerId) as [|p recent] eqn:Er; [done|].
  cbn [vector_empty negb].
  assert (similar_lookups productAgent (p :: recent) topN []
          = Returned (concat lookups)) as ->.
  { apply similar_lookups_Returned. by exists lookups. }
  cbn [obind].
  destruct (concat lookups) as [|x all] eqn:Ec; [done|].
  cbn [vector_empty negb]. f_equal. fold distinct.
  rewrite Z.mod_small by lia.
  destruct (Z.ltb_spec topN (Z.of_nat (length distinct))); [done|].
  rewrite take_ge by lia. done.
Qed.

(** ** C3: the personalized tier *)

(** C3 (as amended).  For every customer with a profile and a non-empty
    recent-interaction list whose nearest-neighbour lookups return at least
    one id, [getRecommendations] returns the ids of those lookups without
    duplicates in ascending bytewise string order (not in first-seen order),
    truncated to the first [topN]. *)
Theorem getRecommendations_personalized db productAgent customerId topN lookups :
  select_profile db customerId <> [] ->
  getRecentInteractions db customerId <> [] ->
  Forall2 (fun p l => getSimilarProducts productAgent p topN = Returned l)
          (getRecentInteractions db customerId) lookups ->
  concat lookups <> [] ->
  0 <= topN < 2 ^ 31 ->
  let distinct := unique (sort_strings (concat lookups)) in
  getRecommendations db productAgent customerId topN
    = Returned (take (Z.to_nat topN) distinct) /\
  StronglySorted (strict String.le) distinct /\
  forall x, x ∈ distinct <-> x ∈ concat lookups.
Proof. apply getRecommendations_personalized_result. Qed.

Lemma getRecommendations_personalized_witness :
  let lookups := [["P1002"]; ["P1001"]] in
  let distinct := unique (sort_strings (concat lookups)) in
  getRecommendations sample_db sample_index "CUST002" 2
    = Returned (take (Z.to_nat 2) distinct) /\
  StronglySorted (strict String.le) distinct /\
  forall x, x ∈ distinct <-> x ∈ concat lookups.
Proof.
  apply (getRecommendations_personalized sample_db sample_index "CUST002" 2
           [["P1002"]; ["P1001"]]).
  - discriminate.
  - discriminate.
  - repeat constructor.
  - discriminate.
  - lia.
Defined.

(** * Equal similarities *)

(** The library routines only look at the comparator's answers. *)
Section HeapExt.
Context {A : Type} `{Inhabited A}.
Variables comp comp' : A -> A -> bool.
Hypothesis comp_ext : forall x y, comp x y = comp' x y.

Lemma push_heap_loop_ext fuel (a : list A) h t v :
  push_heap_loop comp fuel a h t v = push_heap_loop comp' fuel a h t v.
Proof.
  revert a h. induction fuel as [|fuel IH]; intros a h; simpl; [done|].
  rewrite comp_ext. destruct (_ && _); [apply IH | done].
Qed.

Lemma adjust_heap_loop_ext fuel (a : list A) h sc len :
  adjust_heap_loop comp fuel a h sc len = adjust_heap_loop comp' fuel a h sc len.
Proof.
  revert a h sc. induction fuel as [|fuel IH]; intros a h sc; simpl; [done|].
  rewrite comp_ext. destruct (_ <? _); [apply IH | done].
Qed.

Lemma adjust_heap_ext (a : list A) h len v :
  adjust_heap comp a h len v = adjust_heap comp' a h len v.
Proof.
  unfold adjust_heap. rewrite adjust_heap_loop_ext.
  destruct (adjust_heap_loop _ _ _ _ _ _) as [[a' h'] sc'].
  destruct (_ && _); unfold push_heap; apply push_heap_loop_ext.
Qed.

Lemma pop_heap_ext (a : list A) last result :
  pop_heap comp a last result = pop_heap comp' a last result.
Proof. apply adjust_heap_ext. Qed.

Lemma make_heap_loop_ext fuel (a : list A) parent len :
  make_heap_loop comp fuel a parent len = make_heap_loop comp' fuel a parent len.
Proof.
  revert a parent. induction fuel as [|fuel IH]; intros a p; simpl; [done|].
  rewrite adjust_heap_ext. destruct (_ =? _); [done | apply IH].
Qed.

Lemma make_heap_ext (a : list A) len :
  make_heap comp a len = make_heap comp' a len.
Proof.
  unfold make_heap. destruct (_ <? _); [done | apply make_heap_loop_ext].
Qed.

Lemma heap_select_loop_ext fuel (a : list A) middle i :
  heap_select_loop comp fuel a middle i = heap_select_loop comp' fuel a middle i.
Proof.
  revert a i. induction fuel as [|fuel IH]; intros a i; simpl; [done|].
  rewrite comp_ext, pop_heap_ext. apply IH.
Qed.

Lemma heap_select_ext (a : list A) middle :
  heap_select comp a middle = heap_select comp' a middle.
Proof.
  unfold heap_select. rewrite make_heap_ext. apply heap_select_loop_ext.
Qed.

Lemma sort_heap_ext fuel (a : list A) last :
  sort_heap comp fuel a last = sort_heap comp' fuel a last.
Proof.
  revert a last. induction fuel as [|fuel IH]; intros a last; simpl; [done|].
  destruct (_ <? _); [|done]. rewrite pop_heap_ext. apply IH.
Qed.

Lemma partial_sort_ext (a : list A) middle :
  partial_sort comp a middle = partial_sort comp' a middle.
Proof.
  unfold partial_sort. destruct (_ || _); [done|].
  by rewrite heap_select_ext, sort_heap_ext.
Qed.
End HeapExt.

(** [x < x] is false for every double, NaN included. *)
Lemma ltb_irrefl (x : float) : PrimFloat.ltb x x = false.
Proof.
  rewrite FloatAxioms.ltb_spec. unfold SFltb.
  destruct (Prim2SF x) as [s|s| |s m e]; simpl; try done.
  - by destruct s.
  - destruct s; rewrite Z.compare_refl, ?Pos.compare_cont_refl,
      ?Pos.compare_refl; done.
Qed.

Lemma by_similarity_desc_ties (n : nat) (s : float) (a b : Z) :
  by_similarity_desc (replicate n s) a b = false.
Proof.
  unfold by_similarity_desc.
  destruct (replicate n s !! Z.to_nat a) as [sa|] eqn:Ea; [|done].
  destruct (replicate n s !! Z.to_nat b) as [sb|] eqn:Eb; [|done].
  apply lookup_replicate in Ea as [-> _], Eb as [-> _]. apply ltb_irrefl.
Qed.

(** In an index whose vectors all coincide, the result of a query is decided
    by what [partial_sort] does when every comparison answers "no". *)
Lemma getSimilarProducts_all_tied self productId topN (v : list float) :
  productVectors self = replicate (length (productIds self)) v ->
  productId ∈ productIds self ->
  getSimilarProducts self productId topN =
    match list_find (fun id => id = productId) (productIds self) with
    | None => Returned []
    | Some (i, _) =>
        let indices := iota (length (productIds self)) in
        middle <-- iterator_plus (length indices) 0 topN ;;
        middle <-- iterator_plus (length indices) middle 1 ;;
        indices <-- partial_sort (fun _ _ => false) indices middle ;;
        collect_similar (productIds self) (Z.of_nat i)
                        (take (Z.to_nat topN) indices)
    end.
Proof.
  intros Hv Hin. unfold getSimilarProducts.
  assert (vector_empty (productIds self) = false) as ->
    by (destruct (productIds self); [by apply elem_of_nil in Hin | done]).
  assert (vector_empty (productVectors self) = false) as ->.
  { rewrite Hv. destruct (productIds self); [by apply elem_of_nil in Hin | done]. }
  simpl. destruct (list_find _ _) as [[i x]|] eqn:Ef; [|done].
  apply list_find_Some in Ef as (Hi & _ & _).
  assert (at_index (productVectors self) (Z.of_nat i) = Returned v) as ->.
  { apply at_index_Returned. rewrite Nat2Z.id, Hv. split; [lia|].
    apply lookup_replicate_2. by eapply lookup_lt_Some. }
  simpl. rewrite calculateSimilarities_is_cosine
    by (rewrite Hv; by apply Forall_replicate).
  simpl. rewrite Hv, fmap_replicate, length_replicate.
  destruct (iterator_plus _ 0 topN) as [m1|]; [|done]. simpl.
  destruct (iterator_plus _ m1 1) as [m2|]; [|done]. simpl.
  rewrite (partial_sort_ext _ (fun _ _ => false)); [done|].
  intros a b. apply by_similarity_desc_ties.
Qed.

Lemma tied_index_all_tied hasher :
  let self := tied_index hasher in
  productIds self = ["P1"; "P2"; "P3"; "P4"] /\
  productVectors self
    = replicate (length (productIds self))
        (createTextVector hasher "Mug Plain white mug [kitchen]").
Proof. split; reflexivity. Qed.

Lemma tied_index_query hasher :
  getSimilarProducts (tied_index hasher) "P2" 3 = Returned ["P4"; "P1"].
Proof.
  destruct (tied_index_all_tied hasher) as [Hids Hv].
  rewrite (getSimilarProducts_all_tied _ _ _ _ Hv)
    by (rewrite Hids; apply elem_of_cons; right; apply elem_of_cons; by left).
  rewrite Hids. vm_compute. reflexivity.
Qed.

(** * The order [partial_sort] establishes

    [comp x y] reads "x goes before y".  The heap routines keep the element
    that goes last at the root.  They are correct for a comparator that is
    asymmetric and whose negation is transitive on the elements at hand (a
    strict weak ordering, as the C++ standard demands). *)

Lemma descends_ge top h : 0 <= top -> descends top h -> top <= h.
Proof. intros Ht. induction 1; lia. Qed.

Lemma descends_parent top h :
  0 <= top -> descends top h -> h <> top ->
  descends top ((h - 1) ÷ 2) /\ top <= (h - 1) ÷ 2 < h.
Proof.
  intros Ht Hd Hne. destruct Hd as [|p Hd|p Hd]; [done|..].
  - pose proof (descends_ge _ _ Ht Hd).
    replace ((2 * p + 1 - 1) ÷ 2) with p by zq. split; [done | lia].
  - pose proof (descends_ge _ _ Ht Hd).
    replace ((2 * p + 2 - 1) ÷ 2) with p by zq. split; [done | lia].
Qed.

Lemma descends_child top h c :
  descends top h -> 0 <= h -> 0 < c -> (c - 1) ÷ 2 = h -> descends top c.
Proof.
  intros Hd Hh Hc Hp.
  assert (c = 2 * h + 1 \/ c = 2 * h + 2) as [->| ->] by zq;
    by constructor.
Qed.

Section HeapOrder.
Context {A : Type} `{Inhabited A}.
Variable comp : A -> A -> bool.
Variable P : A -> Prop.
Hypothesis comp_asym :
  forall x y, P x -> P y -> comp x y = true -> comp y x = false.
Hypothesis comp_ntrans :
  forall x y z, P x -> P y -> P z ->
    comp x y = false -> comp y z = false -> comp x z = false.

Local Abbreviation heap_above := (heap_above comp).
Local Abbreviation hole_inv := (hole_inv comp).
Local Abbreviation push_inv := (push_inv comp).
Local Abbreviation tail_after := (tail_after comp).
Local Abbreviation settled := (settled comp).

Lemma comp_irrefl x : P x -> comp x x = false.
Proof.
  intros Hx. destruct (comp x x) eqn:E; [|done].
  by rewrite (comp_asym x x Hx Hx E) in E.
Qed.

Lemma comp_before_not_after x y z :
  P x -> P y -> P z -> comp x y = true -> comp x z = false -> comp y z = false.
Proof.
  intros Hx Hy Hz Hxy Hxz. destruct (comp y z) eqn:E; [|done].
  assert (comp z y = false) by (by apply comp_asym).
  assert (comp x y = false) by (by apply (comp_ntrans x z y)).
  congruence.
Qed.

Lemma rd_P (a : list A) i :
  Forall P a -> 0 <= i < Z.of_nat (length a) -> P (rd a i).
Proof.
  intros Ha Hi. rewrite Forall_forall in Ha. apply Ha.
  eapply list_elem_of_lookup_2. by apply rd_lookup.
Qed.

Lemma rd_wr_eq (a : list A) i x :
  0 <= i < Z.of_nat (length a) -> rd (wr a i x) i = x.
Proof.
  intros Hi. unfold rd, wr. apply list_lookup_total_correct.
  apply list_lookup_insert_eq. lia.
Qed.

Lemma rd_wr_ne (a : list A) i j x :
  0 <= i -> 0 <= j -> i <> j -> rd (wr a i x) j = rd a j.
Proof.
  intros Hi Hj Hne. unfold rd, wr.
  rewrite list_lookup_total_insert_ne by lia. done.
Qed.

Lemma wr_P (a : list A) i x : Forall P a -> P x -> Forall P (wr a i x).
Proof. intros Ha Hx. by apply Forall_insert. Qed.

Lemma hole_inv_init (a : list A) top len :
  0 <= top < len -> heap_above a (top + 1) len -> hole_inv a top len top.
Proof.
  intros Ht Hh. split_and!; [constructor | lia | | done].
  intros i Hi Hp _ Hne. apply Hh; [done | lia].
Qed.

(** The hole sinks to a child that no other child of the hole goes after. *)
Lemma hole_inv_sink (a : list A) top len h c :
  0 <= top -> len <= Z.of_nat (length a) ->
  hole_inv a top len h ->
  0 < c < len -> (c - 1) ÷ 2 = h ->
  (forall o, 0 < o < len -> (o - 1) ÷ 2 = h -> o <> c ->
     comp (rd a c) (rd a o) = false) ->
  hole_inv (wr a h (rd a c)) top len c.
Proof.
  intros Ht Hlen (Hd & Hhl & Hord & Hpar) Hc Hch Hbest.
  pose proof (descends_ge _ _ Ht Hd) as Hth.
  assert (Hhc : h < c) by zq.
  split_and!.
  - apply (descends_child top h); [done | lia | lia | done].
  - lia.
  - intros i Hi Hp Hic Hpc.
    destruct (decide (i = h)) as [->|Hih].
    + (* the old hole, now holding the chosen child *)
      assert (Hne : h <> top).
      { intros ->. revert Hp. zq. }
      rewrite rd_wr_eq by lia.
      rewrite rd_wr_ne by zq. by apply Hpar.
    + destruct (decide ((i - 1) ÷ 2 = h)) as [Hph|Hph].
      * (* the other child of the old hole *)
        rewrite Hph, rd_wr_eq by lia.
        rewrite rd_wr_ne by lia. by apply Hbest.
      * rewrite !rd_wr_ne by zq. by apply Hord.
  - intros _ g Hg Hgc. rewrite Hch.
    rewrite rd_wr_eq by lia. rewrite rd_wr_ne by zq.
    rewrite <- Hgc. apply Hord; try zq.
Qed.

Lemma adjust_heap_loop_inv fuel (a : list A) top len h a' h' sc' :
  0 <= top -> len <= Z.of_nat (length a) -> Forall P a ->
  hole_inv a top len h -> len - h <= Z.of_nat fuel ->
  adjust_heap_loop comp fuel a h h len = (a', h', sc') ->
  sc' = h' /\ hole_inv a' top len h' /\ Forall P a' /\
  length a' = length a /\ ~ h' < (len - 1) ÷ 2.
Proof.
  intros Ht. revert a h.
  induction fuel as [|fuel IH]; intros a h Hlen HP Hinv Hfuel; simpl.
  - pose proof Hinv as (Hd & Hhl & _).
    pose proof (descends_ge _ _ Ht Hd) as Hth.
    intros [= <- <- <-]. split_and!; try done. zq.
  - pose proof Hinv as (Hd & Hhl & _).
    pose proof (descends_ge _ _ Ht Hd) as Hth.
    destruct (Z.ltb_spec h ((len - 1) ÷ 2)) as [Hlt|Hge];
      [|intros [= <- <- <-]; split_and!; try done; lia].
    set (c := if comp _ _ then _ else _).
    assert (Hl : 0 < 2 * (h + 1) - 1 < len) by zq.
    assert (Hr : 0 < 2 * (h + 1) < len) by zq.
    assert (Hc : 0 < c < len /\ (c - 1) ÷ 2 = h /\
                 forall o, 0 < o < len -> (o - 1) ÷ 2 = h -> o <> c ->
                           comp (rd a c) (rd a o) = false).
    { subst c. destruct (comp _ _) eqn:Ec.
      - split_and!; [lia | lia | zq |]. intros o Ho Hp Hne.
        assert (o = 2 * (h + 1)) as -> by zq.
        apply comp_asym; [apply rd_P; [done | lia].. | done].
      - split_and!; [lia | lia | zq |]. intros o Ho Hp Hne.
        assert (o = 2 * (h + 1) - 1) as -> by zq. done. }
    destruct Hc as (Hc & Hcp & Hbest).
    intros Hrec. apply IH in Hrec; rewrite ?wr_length; try lia.
    + rewrite wr_length in Hrec. done.
    + apply wr_P; [done|]. apply rd_P; [done | lia].
    + by apply hole_inv_sink.
    + zq.
Qed.

Lemma push_inv_step (a : list A) top len h value :
  0 <= top -> len <= Z.of_nat (length a) -> Forall P a -> P value ->
  push_inv a top len h value -> top < h ->
  comp (rd a ((h - 1) ÷ 2)) value = true ->
  push_inv (wr a h (rd a ((h - 1) ÷ 2))) top len ((h - 1) ÷ 2) value.
Proof.
  intros Ht Hlen HP Hv [(Hd & Hhl & Hord & Hpar) Hval] Hth Hcmp.
  destruct (descends_parent top h Ht Hd) as [Hdp Hp]; [lia|].
  set (p := (h - 1) ÷ 2) in *.
  assert (Hpa : forall i, 0 <= i < len -> P (rd a i))
    by (intros i Hi; apply rd_P; [done | lia]).
  assert (Hsib : forall s, 0 < s < len -> (s - 1) ÷ 2 = p -> s <> h ->
                           comp (rd a p) (rd a s) = false).
  { intros s Hs Hsp Hsh. rewrite <- Hsp. apply Hord; try lia. }
  split; [split_and!|].
  - done.
  - lia.
  - intros i Hi Hpi Hip Hpp.
    destruct (decide (i = h)) as [->|Hih]; [done|].
    destruct (decide ((i - 1) ÷ 2 = h)) as [Hph|Hph].
    + rewrite Hph, rd_wr_eq by lia. rewrite rd_wr_ne by lia.
      apply Hpar; [lia | done..].
    + rewrite !rd_wr_ne by zq. by apply Hord.
  - intros Hpt c Hc Hcp.
    assert (Hpp : top <= (p - 1) ÷ 2 < p) by (apply descends_parent; done).
    assert (Hgp : comp (rd a ((p - 1) ÷ 2)) (rd a p) = false)
      by (apply Hord; lia).
    rewrite (rd_wr_ne _ h ((p - 1) ÷ 2)) by lia.
    destruct (decide (c = h)) as [->|Hch].
    + rewrite rd_wr_eq by lia. done.
    + rewrite rd_wr_ne by lia.
      apply (comp_ntrans _ (rd a p)); try (apply Hpa; lia); [done|].
      by apply Hsib.
  - intros c Hc Hcp.
    destruct (decide (c = h)) as [->|Hch].
    + rewrite rd_wr_eq by lia. apply comp_asym; [apply Hpa; lia | done..].
    + rewrite rd_wr_ne by lia.
      apply (comp_before_not_after (rd a p)); try (apply Hpa; lia); try done.
      by apply Hsib.
Qed.

Lemma push_inv_exit (a : list A) top len h value :
  0 <= top -> len <= Z.of_nat (length a) ->
  push_inv a top len h value ->
  (top < h -> comp (rd a ((h - 1) ÷ 2)) value = false) ->
  heap_above (wr a h value) top len.
Proof.
  intros Ht Hlen [(Hd & Hhl & Hord & Hpar) Hval] Hexit i Hi Hp.
  pose proof (descends_ge _ _ Ht Hd) as Hth.
  destruct (decide (i = h)) as [->|Hih].
  - rewrite rd_wr_eq by lia. rewrite rd_wr_ne by zq. apply Hexit. zq.
  - destruct (decide ((i - 1) ÷ 2 = h)) as [Hph|Hph].
    + rewrite Hph, rd_wr_eq by lia. rewrite rd_wr_ne by lia. by apply Hval.
    + rewrite !rd_wr_ne by zq. by apply Hord.
Qed.

Lemma push_heap_loop_heap fuel (a : list A) top len h value :
  0 <= top -> len <= Z.of_nat (length a) -> Forall P a -> P value ->
  push_inv a top len h value -> h <= Z.of_nat fuel ->
  heap_above (push_heap_loop comp fuel a h top value) top len.
Proof.
  intros Ht. revert a h.
  induction fuel as [|fuel IH]; intros a h Hlen HP Hv Hinv Hfuel; simpl.
  - apply push_inv_exit; try done. lia.
  - destruct (Z.ltb_spec top h) as [Hth|Hth]; simpl.
    + destruct (comp _ _) eqn:Ec.
      * pose proof Hinv as [(Hd & Hhl & _) _].
        destruct (descends_parent top h Ht Hd) as [_ Hp]; [lia|].
        apply IH; rewrite ?wr_length; try done; try lia.
        -- apply wr_P; [done|]. apply rd_P; [done | lia].
        -- by apply push_inv_step.
      * by apply push_inv_exit.
    + apply push_inv_exit; try done. lia.
Qed.

(** [__adjust_heap] restores the heap below [top] once its root is
    replaced by [value]. *)
Lemma adjust_heap_heap (a : list A) top len value :
  0 <= top < len -> len <= Z.of_nat (length a) -> Forall P a -> P value ->
  heap_above a (top + 1) len ->
  heap_above (adjust_heap comp a top len value) top len.
Proof.
  intros Ht Hlen HP Hv Hh. unfold adjust_heap.
  destruct (adjust_heap_loop _ _ _ _ _ _) as [[a' h'] sc'] eqn:E.
  apply (adjust_heap_loop_inv _ _ top) in E
    as (-> & Hinv & HP' & Hl' & Hexit); try done; try lia.
  2:{ by apply hole_inv_init. }
  pose proof Hinv as (Hd & Hhl & _).
  pose proof (descends_ge _ _ (proj1 Ht) Hd) as Hth.
  destruct (_ && _) eqn:Ec.
  - apply andb_true_iff in Ec as [E1 E2]. apply Z.eqb_eq in E1, E2.
    assert (Heven : len mod 2 = 0) by (by rewrite <- Z.land_ones with (n := 1)).
    assert (Hc : 2 * (h' + 1) - 1 = len - 1) by zq.
    unfold push_heap. apply push_heap_loop_heap; rewrite ?wr_length;
      try done; try lia.
    + apply wr_P; [done|]. apply rd_P; [done | lia].
    + split.
      * apply hole_inv_sink; try done; try lia; [zq|].
        intros o Ho Hp Hne. exfalso. revert Hp. zq.
      * intros c Hc' Hp. exfalso. revert Hp. zq.
  - unfold push_heap. apply push_heap_loop_heap; try done; try lia.
    split; [done|].
    intros c Hc Hp. exfalso.
    apply andb_false_iff in Ec.
    assert (Hcase : len mod 2 <> 0 \/ h' <> (len - 2) ÷ 2).
    { destruct Ec as [Ec|Ec]; [left | right].
      - apply Z.eqb_neq in Ec. by rewrite <- Z.land_ones with (n := 1).
      - by apply Z.eqb_neq in Ec. }
    revert Hp Hexit Hcase. zq.
Qed.

Lemma push_heap_loop_prefix (Q : A -> Prop) fuel (a : list A) len h top value :
  0 <= top -> 0 <= h < len -> len <= Z.of_nat (length a) -> Q value ->
  (forall t, 0 <= t < len -> t <> h -> Q (rd a t)) ->
  prefix_update Q len a (push_heap_loop comp fuel a h top value).
Proof.
  intros Htop. revert a h.
  induction fuel as [|fuel IH]; intros a h Hh Hlen Hv Hq; simpl.
  - split_and!; [apply wr_length | |].
    + intros t Ht. apply rd_wr_ne; lia.
    + intros t Ht. destruct (decide (t = h)) as [->|Hne].
      * by rewrite rd_wr_eq by lia.
      * rewrite rd_wr_ne by lia. by apply Hq.
  - destruct (_ && _) eqn:Ec.
    + apply andb_true_iff in Ec as [Eh _]. apply Z.ltb_lt in Eh.
      assert (Hp : 0 <= (h - 1) ÷ 2 < h) by zq.
      destruct (IH (wr a h (rd a ((h - 1) ÷ 2))) ((h - 1) ÷ 2))
        as (Hl & Hframe & Hin); rewrite ?wr_length; try done; try lia.
      { intros t Ht Hne. destruct (decide (t = h)) as [->|Hth].
        - rewrite rd_wr_eq by lia. apply Hq; lia.
        - rewrite rd_wr_ne by lia. by apply Hq. }
      rewrite wr_length in Hl. split_and!; [done | | done].
      intros t Ht. rewrite Hframe by done. apply rd_wr_ne; lia.
    + split_and!; [apply wr_length | |].
      * intros t Ht. apply rd_wr_ne; lia.
      * intros t Ht. destruct (decide (t = h)) as [->|Hne].
        -- by rewrite rd_wr_eq by lia.
        -- rewrite rd_wr_ne by lia. by apply Hq.
Qed.

Lemma adjust_heap_loop_prefix (Q : A -> Prop) fuel (a : list A) len h a' h' sc' :
  0 <= h < len -> len <= Z.of_nat (length a) ->
  (forall t, 0 <= t < len -> t <> h -> Q (rd a t)) ->
  adjust_heap_loop comp fuel a h h len = (a', h', sc') ->
  h <= h' < len /\ length a' = length a /\
  (forall t, len <= t -> rd a' t = rd a t) /\
  (forall t, 0 <= t < len -> t <> h' -> Q (rd a' t)).
Proof.
  revert a h. induction fuel as [|fuel IH]; intros a h Hh Hlen Hq; simpl.
  - intros [= <- <- <-]. split_and!; try done. lia.
  - destruct (Z.ltb_spec h ((len - 1) ÷ 2)) as [Hlt|Hge];
      [|intros [= <- <- <-]; split_and!; try done; lia].
    set (c := if comp _ _ then _ else _).
    assert (Hc : h < c < len) by (subst c; destruct (comp _ _); zq).
    intros Hrec. apply IH in Hrec; rewrite ?wr_length; try lia.
    + rewrite wr_length in Hrec. destruct Hrec as (Hh' & Hl & Hframe & Hin).
      split_and!; [lia | lia | done | | done].
      intros t Ht. rewrite Hframe by done. apply rd_wr_ne; lia.
    + intros t Ht Hne. destruct (decide (t = h)) as [->|Hth].
      * rewrite rd_wr_eq by lia. apply Hq; lia.
      * rewrite rd_wr_ne by lia. by apply Hq.
Qed.

Lemma adjust_heap_prefix (Q : A -> Prop) (a : list A) top len value :
  0 <= top < len -> len <= Z.of_nat (length a) -> Q value ->
  (forall t, 0 <= t < len -> t <> top -> Q (rd a t)) ->
  prefix_update Q len a (adjust_heap comp a top len value).
Proof.
  intros Ht Hlen Hv Hq. unfold adjust_heap.
  destruct (adjust_heap_loop _ _ _ _ _ _) as [[a' h'] sc'] eqn:E.
  pose proof E as E'.
  apply adjust_heap_loop_spec in E' as (-> & _); [|lia..].
  apply (adjust_heap_loop_prefix Q) in E as (Hh' & Hl & Hframe & Hin);
    try done.
  assert (Hgoal : forall a'' h'',
             0 <= h'' < len -> length a'' = length a ->
             (forall t, len <= t -> rd a'' t = rd a t) ->
             (forall t, 0 <= t < len -> t <> h'' -> Q (rd a'' t)) ->
             prefix_update Q len a (push_heap comp a'' h'' top value)).
  { intros a'' h'' Hh'' Hl'' Hframe'' Hin''. unfold push_heap.
    destruct (push_heap_loop_prefix Q (Z.to_nat h'') a'' len h'' top value)
      as (Hl2 & Hframe2 & Hin2); try done; try lia.
    split_and!; [lia | | done].
    intros t Ht'. rewrite Hframe2 by done. by apply Hframe''. }
  destruct (_ && _) eqn:Ec.
  - apply andb_true_iff in Ec as [E1 E2]. apply Z.eqb_eq in E1, E2.
    assert (Heven : len mod 2 = 0) by (by rewrite <- Z.land_ones with (n := 1)).
    assert (Hc : 2 * (h' + 1) - 1 = len - 1) by zq.
    apply Hgoal; rewrite ?wr_length; try lia.
    + intros t Ht'. rewrite rd_wr_ne by lia. by apply Hframe.
    + intros t Ht' Hne. destruct (decide (t = h')) as [->|Hth].
      * rewrite rd_wr_eq by lia. apply Hin; lia.
      * rewrite rd_wr_ne by lia. by apply Hin.
  - apply Hgoal; try done. lia.
Qed.

(** The root of a heap goes after nothing in it. *)
Lemma heap_root_last (a : list A) len :
  heap_above a 0 len -> (forall t, 0 <= t < len -> P (rd a t)) ->
  forall t, 0 <= t < len -> comp (rd a 0) (rd a t) = false.
Proof.
  intros Hh HP t Ht.
  remember (Z.to_nat t) as n eqn:Hn. revert t Ht Hn.
  induction n as [n IH] using lt_wf_ind. intros t Ht ->.
  destruct (decide (t = 0)) as [->|Hne]; [apply comp_irrefl, HP; lia|].
  assert (Hp : 0 <= (t - 1) ÷ 2 < t) by zq.
  apply (comp_ntrans _ (rd a ((t - 1) ÷ 2))); try (apply HP; lia).
  - apply (IH (Z.to_nat ((t - 1) ÷ 2))); [lia | lia | done].
  - apply Hh; lia.
Qed.

Lemma heap_above_weaken (a : list A) top top' len :
  top <= top' -> heap_above a top len -> heap_above a top' len.
Proof. intros Hle Hh i Hi Hp. apply Hh; [done | lia]. Qed.

Lemma heap_above_agree (a b : list A) top len :
  (forall t, 0 <= t < len -> top <= t -> rd b t = rd a t) ->
  heap_above a top len -> heap_above b top len.
Proof.
  intros Hag Hh i Hi Hp. rewrite !Hag by zq. by apply Hh.
Qed.

Lemma adjust_heap_P (a : list A) top len value :
  0 <= top < Z.of_nat (length a) -> 0 <= len <= Z.of_nat (length a) ->
  Forall P a -> P value ->
  Forall P (adjust_heap comp a top len value) /\
  length (adjust_heap comp a top len value) = length a.
Proof.
  intros Ht Hl HP Hv.
  pose proof (adjust_heap_perm comp a top len value Ht Hl) as Hp.
  split.
  - rewrite Hp. by apply wr_P.
  - by rewrite (Permutation_length Hp), wr_length.
Qed.

Lemma make_heap_loop_heap fuel (a : list A) parent len :
  0 <= parent < len -> len <= Z.of_nat (length a) -> Forall P a ->
  heap_above a (parent + 1) len -> parent < Z.of_nat fuel ->
  heap_above (make_heap_loop comp fuel a parent len) 0 len.
Proof.
  revert a parent. induction fuel as [|fuel IH]; intros a p Hp Hlen HP Hh Hf;
    simpl; [lia|].
  assert (Hadj : heap_above (adjust_heap comp a p len (rd a p)) p len).
  { apply adjust_heap_heap; try done. apply rd_P; [done | lia]. }
  destruct (adjust_heap_P a p len (rd a p)) as [HP' Hl']; try done; try lia.
  { apply rd_P; [done | lia]. }
  destruct (Z.eqb_spec p 0) as [->|Hne]; [done|].
  apply IH; rewrite ?Hl'; try done; try lia.
  by replace (p - 1 + 1) with p by lia.
Qed.

Lemma make_heap_heap (a : list A) len :
  0 <= len <= Z.of_nat (length a) -> Forall P a ->
  heap_above (make_heap comp a len) 0 len.
Proof.
  intros Hlen HP. unfold make_heap.
  destruct (Z.ltb_spec len 2) as [Hlt|Hge].
  - intros i Hi _. lia.
  - apply make_heap_loop_heap; try done; try zq.
    intros i Hi Hp. exfalso. revert Hp. zq.
Qed.

Lemma heap_above_shrink (a : list A) top len len' :
  len' <= len -> heap_above a top len -> heap_above a top len'.
Proof. intros Hle Hh i Hi Hp. apply Hh; [lia | done]. Qed.

(** [__pop_heap] with [result] at or beyond the heap: the root moves to
    [result], the element found there enters the heap. *)
Lemma pop_heap_step (a : list A) len result :
  1 <= len <= result -> result < Z.of_nat (length a) -> Forall P a ->
  heap_above a 0 len ->
  let a' := pop_heap comp a len result in
  heap_above a' 0 len /\ Forall P a' /\ length a' = length a /\
  rd a' result = rd a 0 /\
  (forall t, len <= t -> t <> result -> rd a' t = rd a t) /\
  (forall Q : A -> Prop,
     (forall t, 0 <= t < len -> Q (rd a t)) -> Q (rd a result) ->
     forall t, 0 <= t < len -> Q (rd a' t)).
Proof.
  intros Hlen Hres HP Hh a'. subst a'. unfold pop_heap.
  set (a1 := wr a result (rd a 0)).
  assert (Hl1 : length a1 = length a) by apply wr_length.
  assert (HP1 : Forall P a1) by (apply wr_P; [done | apply rd_P; [done | lia]]).
  assert (Hv : P (rd a result)) by (apply rd_P; [done | lia]).
  assert (Hag : forall t, 0 <= t -> t <> result -> rd a1 t = rd a t)
    by (intros t Ht Hne; apply rd_wr_ne; lia).
  destruct (adjust_heap_P a1 0 len (rd a result)) as [HP' Hl'];
    try done; try lia.
  split_and!.
  - apply adjust_heap_heap; try done; try lia.
    apply (heap_above_weaken _ 0); [lia|].
    apply (heap_above_agree a); [|done]. intros t Ht _. apply Hag; lia.
  - done.
  - lia.
  - destruct (adjust_heap_prefix (fun _ => True) a1 0 len (rd a result))
      as (_ & Hframe & _); try done; try lia.
    rewrite Hframe by lia. apply rd_wr_eq. lia.
  - intros t Ht Hne.
    destruct (adjust_heap_prefix (fun _ => True) a1 0 len (rd a result))
      as (_ & Hframe & _); try done; try lia.
    rewrite Hframe by lia. apply Hag; lia.
  - intros Q Hq Hqv t Ht.
    destruct (adjust_heap_prefix Q a1 0 len (rd a result))
      as (_ & _ & Hin); try done; try lia.
    + intros u Hu Hne. rewrite Hag by lia. by apply Hq.
    + by apply Hin.
Qed.

Lemma heap_select_loop_inv fuel (a : list A) middle i :
  0 <= middle <= i -> i + Z.of_nat fuel <= Z.of_nat (length a) ->
  Forall P a -> heap_above a 0 middle -> tail_after a middle i ->
  let a' := heap_select_loop comp fuel a middle i in
  heap_above a' 0 middle /\ tail_after a' middle (i + Z.of_nat fuel) /\
  Forall P a' /\ length a' = length a.
Proof.
  revert a i. induction fuel as [|fuel IH]; intros a i Hm Hi HP Hh Ht; simpl.
  - rewrite Z.add_0_r. done.
  - set (b := if comp _ _ then _ else _).
    assert (Hpa : forall t, 0 <= t < Z.of_nat (length a) -> P (rd a t))
      by (intros t Hlt; by apply rd_P).
    assert (Hb : heap_above b 0 middle /\ tail_after b middle (i + 1) /\
                 Forall P b /\ length b = length a).
    { destruct (decide (middle = 0)) as [->|Hm0].
      { assert (Hperm : b ≡ₚ a).
        { subst b. destruct (comp _ _); [|done]. apply pop_heap_perm; lia. }
        split_and!.
        - intros t Hlt. lia.
        - intros j t Hj Hlt. lia.
        - by rewrite Hperm.
        - by rewrite (Permutation_length Hperm). }
      assert (Hroot : forall t, 0 <= t < middle ->
                                comp (rd a 0) (rd a t) = false).
      { apply heap_root_last; [done|]. intros t Hlt. apply Hpa. lia. }
      subst b. destruct (comp (rd a i) (rd a 0)) eqn:Ec.
      - destruct (pop_heap_step a middle i) as (Hh' & HP' & Hl' & Hres & Hfr & Hin);
          try done; try lia.
        assert (Hi0 : comp (rd a 0) (rd a i) = false)
          by (apply comp_asym; [apply Hpa; lia.. | done]).
        split_and!; try done.
        intros j t Hj Hlt. destruct (decide (j = i)) as [->|Hne].
        + rewrite Hres. apply (Hin (fun x => comp (rd a 0) x = false)); done.
        + rewrite Hfr by lia.
          apply (Hin (fun x => comp (rd a j) x = false)); try done.
          * intros u Hu. apply Ht; lia.
          * apply (comp_ntrans _ (rd a 0)); try (apply Hpa; lia); [|done].
            apply Ht; lia.
      - split_and!; try done.
        intros j t Hj Hlt. destruct (decide (j = i)) as [->|Hne].
        + apply (comp_ntrans _ (rd a 0)); try (apply Hpa; lia); [done|].
          by apply Hroot.
        + apply Ht; lia. }
    destruct Hb as (Hh' & Ht' & HP' & Hl').
    destruct (IH b (i + 1)) as (H1 & H2 & H3 & H4); try done; try lia.
    split_and!; try done; [|lia].
    by replace (i + Z.of_nat (S fuel)) with (i + 1 + Z.of_nat fuel) by lia.
Qed.

Lemma sort_heap_inv fuel (a : list A) middle last :
  0 <= last <= middle -> middle <= Z.of_nat (length a) ->
  last <= Z.of_nat fuel -> Forall P a ->
  heap_above a 0 last -> settled a middle last ->
  settled (sort_heap comp fuel a last) middle 0.
Proof.
  revert a last.
  induction fuel as [|fuel IH]; intros a last Hl Hm Hf HP Hh Hs; simpl.
  - intros i j Hij Hj _ Hi. apply Hs; lia.
  - destruct (Z.ltb_spec 1 last) as [Hlt|Hge].
    2:{ intros i j Hij Hj _ Hi. apply Hs; lia. }
    assert (Hroot : forall t, 0 <= t < last -> comp (rd a 0) (rd a t) = false).
    { apply heap_root_last; [done|]. intros t Ht. apply rd_P; [done | lia]. }
    destruct (pop_heap_step a (last - 1) (last - 1))
      as (Hh' & HP' & Hl' & Hres & Hfr & Hin); try done; try lia.
    { by apply (heap_above_shrink _ _ last); [lia|]. }
    apply IH; try done; try lia.
    intros i j Hij Hj Hlast Hi. rewrite Hl' in Hj.
    destruct (decide (j = last - 1)) as [->|Hjne].
    + rewrite Hres.
      apply (Hin (fun x => comp (rd a 0) x = false)); try lia.
      * intros t Ht. apply Hroot. lia.
      * apply Hroot. lia.
    + rewrite (Hfr j) by lia.
      destruct (Z.lt_trichotomy i (last - 1)) as [Hlt'|[->|Hgt]].
      * apply (Hin (fun x => comp (rd a j) x = false)); try lia.
        -- intros t Ht. apply Hs; lia.
        -- apply Hs; lia.
      * rewrite Hres. apply Hs; lia.
      * rewrite (Hfr i) by lia. apply Hs; lia.
Qed.

(** After [partial_sort], no element goes before an element of the first
    [middle] positions that precedes it. *)
Theorem partial_sort_ranked (a a' : list A) middle :
  Forall P a -> partial_sort comp a middle = Returned a' ->
  forall i j, 0 <= i < j -> j < Z.of_nat (length a') -> i < middle ->
    comp (rd a' j) (rd a' i) = false.
Proof.
  intros HP. unfold partial_sort.
  destruct (Z.ltb_spec middle 0), (Z.ltb_spec (Z.of_nat (length a)) middle);
    simpl; try discriminate.
  intros [= <-].
  assert (Hmk : heap_above (make_heap comp a middle) 0 middle)
    by (apply make_heap_heap; [lia | done]).
  pose proof (make_heap_perm comp a middle ltac:(lia)) as Hperm.
  destruct (heap_select_loop_inv
              (length (make_heap comp a middle) - Z.to_nat middle)
              (make_heap comp a middle) middle middle)
    as (Hh & Ht & HP' & Hl); try done; try lia.
  { rewrite (Permutation_length Hperm). lia. }
  { by rewrite Hperm. }
  { intros j t Hj. lia. }
  fold (heap_select comp a middle) in Hh, Ht, HP', Hl.
  intros i j Hij Hj Hi.
  apply (sort_heap_inv (Z.to_nat middle) (heap_select comp a middle) middle middle);
    try done; try lia.
  - rewrite Hl, (Permutation_length Hperm). lia.
  - intros i' j' Hij' Hj' Hm' Hi'. apply Ht; [|lia].
    rewrite Hl, (Permutation_length Hperm) in *. lia.
Qed.
End HeapOrder.

(** ** Comparing similarities that are not NaN *)

Ltac sf_compare :=
  repeat match goal with
    | |- context [Pos.compare_cont Eq ?a ?b] =>
        change (Pos.compare_cont Eq a b) with (Pos.compare a b)
    | H : context [Pos.compare_cont Eq ?a ?b] |- _ =>
        change (Pos.compare_cont Eq a b) with (Pos.compare a b) in H
    end;
  repeat match goal with
    | H : context [Z.compare ?a ?b] |- _ =>
        destruct (Z.compare_spec a b); simpl in H; try discriminate H
    | H : context [Pos.compare ?a ?b] |- _ =>
        destruct (Pos.compare_spec a b); simpl in H; try discriminate H
    | |- context [Z.compare ?a ?b] =>
        destruct (Z.compare_spec a b); simpl
    | |- context [Pos.compare ?a ?b] =>
        destruct (Pos.compare_spec a b); simpl
    end;
  try done; try lia.

Lemma SFltb_asym (x y : spec_float) : SFltb x y = true -> SFltb y x = false.
Proof.
  unfold SFltb.
  destruct x as [sx|sx| |sx mx ex], y as [sy|sy| |sy my ey]; simpl;
    try done; try (destruct sx; done); try (destruct sy; done);
    try (destruct sx, sy; done).
  destruct sx, sy; simpl; try done; intros Hxy; sf_compare.
Qed.

Lemma SFltb_ntrans (x y z : spec_float) :
  x <> S754_nan -> y <> S754_nan -> z <> S754_nan ->
  SFltb y x = false -> SFltb z y = false -> SFltb z x = false.
Proof.
  unfold SFltb. intros Hx Hy Hz.
  destruct x as [sx|sx| |sx mx ex]; try done;
  destruct y as [sy|sy| |sy my ey]; try done;
  destruct z as [sz|sz| |sz mz ez]; try done; simpl;
    try (destruct sx; done); try (destruct sy; done); try (destruct sz; done);
    try (destruct sx, sy; done); try (destruct sx, sz; done);
    try (destruct sy, sz; done); try (destruct sx, sy, sz; done).
  destruct sx, sy, sz; simpl; try done; intros Hyx Hzy; sf_compare.
Qed.


Lemma not_nan_spec (x : float) : not_nan x -> Prim2SF x <> S754_nan.
Proof.
  unfold not_nan, PrimFloat.is_nan. rewrite FloatAxioms.eqb_spec.
  intros Hn Hx. rewrite Hx in Hn. done.
Qed.

Lemma ltb_asym (x y : float) :
  PrimFloat.ltb x y = true -> PrimFloat.ltb y x = false.
Proof. rewrite !FloatAxioms.ltb_spec. apply SFltb_asym. Qed.

Lemma ltb_ntrans (x y z : float) :
  not_nan x -> not_nan y -> not_nan z ->
  PrimFloat.ltb y x = false -> PrimFloat.ltb z y = false ->
  PrimFloat.ltb z x = false.
Proof.
  intros Hx Hy Hz. rewrite !FloatAxioms.ltb_spec.
  apply SFltb_ntrans; by apply not_nan_spec.
Qed.

(** Not below means at least, for doubles that are not NaN. *)
Lemma ltb_false_leb (x y : float) :
  not_nan x -> not_nan y -> PrimFloat.ltb x y = false ->
  PrimFloat.leb y x = true.
Proof.
  intros Hx Hy. rewrite FloatAxioms.ltb_spec, FloatAxioms.leb_spec.
  apply not_nan_spec in Hx, Hy. unfold SFltb, SFleb.
  destruct (Prim2SF x) as [sx|sx| |sx mx ex]; try done;
  destruct (Prim2SF y) as [sy|sy| |sy my ey]; try done; simpl;
    try (destruct sx; done); try (destruct sy; done);
    try (destruct sx, sy; done).
  destruct sx, sy; simpl; try done; intros Hxy; sf_compare.
Qed.

Lemma by_similarity_desc_asym sims a b :
  by_similarity_desc sims a b = true -> by_similarity_desc sims b a = false.
Proof.
  unfold by_similarity_desc.
  destruct (sims !! Z.to_nat a) as [sa|], (sims !! Z.to_nat b) as [sb|];
    try done. apply ltb_asym.
Qed.

Lemma by_similarity_desc_ntrans sims x y z :
  Forall not_nan sims ->
  0 <= x < Z.of_nat (length sims) -> 0 <= y < Z.of_nat (length sims) ->
  0 <= z < Z.of_nat (length sims) ->
  by_similarity_desc sims x y = false -> by_similarity_desc sims y z = false ->
  by_similarity_desc sims x z = false.
Proof.
  intros Hn Hx Hy Hz. unfold by_similarity_desc.
  destruct (lookup_lt_is_Some_2 sims (Z.to_nat x)) as [sx Ex]; [lia|].
  destruct (lookup_lt_is_Some_2 sims (Z.to_nat y)) as [sy Ey]; [lia|].
  destruct (lookup_lt_is_Some_2 sims (Z.to_nat z)) as [sz Ez]; [lia|].
  rewrite Ex, Ey, Ez. rewrite Forall_forall in Hn.
  apply ltb_ntrans; apply Hn; by eapply list_elem_of_lookup_2.
Qed.

Lemma StronglySorted_take_pairs {A} (R : relation A) (l : list A) (k : nat) :
  (forall (i j : nat) x y, (i < j)%nat -> (i < k)%nat ->
     l !! i = Some x -> l !! j = Some y -> R x y) ->
  StronglySorted R (take k l).
Proof.
  revert k. induction l as [|x l IH]; intros k Hp;
    [rewrite take_nil; constructor|].
  destruct k as [|k]; simpl; constructor.
  - apply IH. intros i j y z Hij Hi Hy Hz. apply (Hp (S i) (S j)); (lia || done).
  - apply Forall_forall. intros y Hy. apply list_elem_of_lookup in Hy as [j Hj].
    apply lookup_take_Some in Hj as [Hj _].
    apply (Hp 0%nat (S j)); (lia || done).
Qed.

Lemma StronglySorted_filter {A} (R : relation A) (Q : A -> Prop)
    `{forall x, Decision (Q x)} (l : list A) :
  StronglySorted R l -> StronglySorted R (filter Q l).
Proof.
  induction 1 as [|x l Hs IH Hx]; [constructor|].
  rewrite filter_cons. destruct (decide (Q x)); [|done].
  constructor; [done|]. apply Forall_forall. intros y Hy.
  apply list_elem_of_filter in Hy as [_ Hy].
  rewrite Forall_forall in Hx. by apply Hx.
Qed.

(** ** C6: the order of the neighbours *)

(** C6 (as amended).  For every nearest-neighbour query that returns, the
    result lists the ids found at distinct indexed positions other than the
    query's, and when no similarity is a NaN these positions are in
    non-increasing order of similarity.  Nothing more is promised about
    positions of equal similarity: their order is the one the heap-based
    partial sort leaves, which need not be insertion order. *)
Theorem getSimilarProducts_ranked self productId topN r :
  productId ∈ productIds self -> productVectors self <> [] ->
  getSimilarProducts self productId topN = Returned r ->
  exists (i : nat) vec similarities positions,
    productIds self !! i = Some productId /\
    productVectors self !! i = Some vec /\
    calculateSimilarities self vec = Returned similarities /\
    r = (fun ix => productIds self !!! Z.to_nat ix) <$> positions /\
    NoDup positions /\
    Forall (fun ix => 0 <= ix < Z.of_nat (length similarities) /\
                      ix <> Z.of_nat i) positions /\
    (Forall not_nan similarities ->
     StronglySorted
       (fun a b => PrimFloat.leb (similarities !!! Z.to_nat b)
                                 (similarities !!! Z.to_nat a) = true)
       positions).
Proof.
  intros Hin Hne Hr.
  apply getSimilarProducts_found in Hr
    as (i & vec & sims & indices & Hi & _ & Hvec & Hsims & H0 & Hn & Hsort & Hc);
    [|done..].
  apply collect_similar_Returned in Hc as [-> _].
  pose proof (partial_sort_perm _ _ _ _ Hsort) as Hperm.
  pose proof (partial_sort_iota_bounds _ _ _ _ Hsort) as [Hb Hlen].
  exists i, vec, sims, (filter (fun ix => ix <> Z.of_nat i)
                          (take (Z.to_nat topN) indices)).
  split_and!; try done.
  - apply NoDup_filter.
    assert (Hnd : NoDup indices).
    { rewrite Hperm. unfold iota. apply (NoDup_fmap_2 _), NoDup_seq. }
    apply (sublist_NoDup _ _ Hnd), sublist_take.
  - apply Forall_forall. intros ix Hix.
    apply list_elem_of_filter in Hix as [Hix Hel]. split; [|done].
    rewrite Forall_forall in Hb. apply Hb.
    apply (elem_of_sublist _ _ _ Hel), sublist_take.
  - intros Hnan. apply StronglySorted_filter, StronglySorted_take_pairs.
    intros p q x y Hpq Hp Hx Hy.
    assert (Hq : (q < length indices)%nat) by (by eapply lookup_lt_Some).
    pose proof Hnan as HnanF.
    rewrite Forall_forall in Hb. rewrite Forall_forall in Hnan.
    assert (Hxb : 0 <= x < Z.of_nat (length sims))
      by (apply Hb; by eapply list_elem_of_lookup_2).
    assert (Hyb : 0 <= y < Z.of_nat (length sims))
      by (apply Hb; by eapply list_elem_of_lookup_2).
    pose proof (partial_sort_ranked (by_similarity_desc sims)
                  (fun ix => 0 <= ix < Z.of_nat (length sims))
                  (fun a b _ _ => by_similarity_desc_asym sims a b)
                  (fun a b c Ha Hb Hc =>
                     by_similarity_desc_ntrans sims a b c HnanF Ha Hb Hc)
                  _ _ _ (iota_bounds _) Hsort
                  (Z.of_nat p) (Z.of_nat q)) as Hrank.
    unfold rd in Hrank. rewrite !Nat2Z.id in Hrank.
    rewrite (list_lookup_total_correct _ _ _ Hx),
      (list_lookup_total_correct _ _ _ Hy) in Hrank.
    specialize (Hrank ltac:(lia) ltac:(lia) ltac:(lia)).
    unfold by_similarity_desc in Hrank.
    destruct (lookup_lt_is_Some_2 sims (Z.to_nat x)) as [sx Ex]; [lia|].
    destruct (lookup_lt_is_Some_2 sims (Z.to_nat y)) as [sy Ey]; [lia|].
    rewrite Ex, Ey in Hrank.
    rewrite (list_lookup_total_correct _ _ _ Ex),
      (list_lookup_total_correct _ _ _ Ey).
    apply ltb_false_leb; [| |done]; apply Hnan; by eapply list_elem_of_lookup_2.
Qed.

Lemma getSimilarProducts_ranked_witness :
  exists (i : nat) vec similarities positions,
    productIds catalog_index !! i = Some "P1001" /\
    productVectors catalog_index !! i = Some vec /\
    calculateSimilarities catalog_index vec = Returned similarities /\
    ["P1002"; "P1005"; "P1004"]
      = (fun ix => productIds catalog_index !!! Z.to_nat ix) <$> positions /\
    NoDup positions /\
    Forall (fun ix => 0 <= ix < Z.of_nat (length similarities) /\
                      ix <> Z.of_nat i) positions /\
    (Forall not_nan similarities ->
     StronglySorted
       (fun a b => PrimFloat.leb (similarities !!! Z.to_nat b)
                                 (similarities !!! Z.to_nat a) = true)
       positions).
Proof.
  apply (getSimilarProducts_ranked catalog_index "P1001" 4
           ["P1002"; "P1005"; "P1004"]).
  - apply elem_of_cons. by left.
  - discriminate.
  - vm_compute. reflexivity.
Defined.

(** C6 as stated fails.  With four products of one text all similarities to
    P2 are equal; P1 was inserted before P4, yet the query for P2 lists P4
    before P1.  This holds whatever [std::hash] computes. *)
Lemma getSimilarProducts_ties_not_in_insertion_order :
  let self := tied_index gnu_hash in
  productIds self = ["P1"; "P2"; "P3"; "P4"] /\
  (exists vec s,
     productVectors self !! 1%nat = Some vec /\
     calculateSimilarities self vec = Returned [s; s; s; s] /\
     getSimilarProducts self "P2" 3 = Returned ["P4"; "P1"] /\
     ~ ties_in_insertion_order self [s; s; s; s] ["P4"; "P1"]) /\
  forall hasher,
    getSimilarProducts (tied_index hasher) "P2" 3 = Returned ["P4"; "P1"].
Proof.
  intros self. split_and!; [reflexivity | | apply tied_index_query].
  destruct (tied_index_all_tied gnu_hash) as [Hids Hv]. fold self in Hids, Hv.
  set (vec := createTextVector gnu_hash "Mug Plain white mug [kitchen]") in *.
  exists vec, (cosine vec vec). split_and!.
  - by rewrite Hv.
  - rewrite calculateSimilarities_is_cosine; [by rewrite Hv|].
    rewrite Hv. by apply Forall_replicate.
  - apply tied_index_query.
  - intros Hties.
    specialize (Hties 1%nat 0%nat 0%nat 3%nat "P1" "P4"
                  (cosine vec vec) (cosine vec vec)).
    rewrite Hids in Hties.
    assert (Heq : PrimFloat.eqb (cosine vec vec) (cosine vec vec) = true)
      by (vm_compute; reflexivity).
    specialize (Hties eq_refl eq_refl eq_refl eq_refl eq_refl eq_refl Heq).
    lia.
Qed.

(** C3 as stated fails.  Customer C1 last looked at P2, whose lookup returns
    P4 before P1; first-seen order would keep that order, the code returns
    the ids sorted.  Customer C9 has the same recent interaction but no
    profile row, and gets the popularity ranking instead.  Both hold whatever
    [std::hash] computes. *)
Lemma getRecommendations_not_in_first_seen_order :
  let lookups := [["P4"; "P1"]] in
  getRecentInteractions tied_db "C1" = ["P2"] /\
  Forall2 (fun p l => getSimilarProducts (tied_index gnu_hash) p 3 = Returned l)
          ["P2"] lookups /\
  personalized_first_seen lookups 3 = ["P4"; "P1"] /\
  getRecommendations tied_db (tied_index gnu_hash) "C1" 3
    = Returned ["P1"; "P4"] /\
  (forall hasher,
     getRecommendations tied_db (tied_index hasher) "C1" 3
       = Returned ["P1"; "P4"]) /\
  getRecentInteractions tied_db "C9" = ["P2"] /\
  forall hasher,
    getRecommendations tied_db (tied_index hasher) "C9" 3
      = Returned ["P1"; "P2"; "P3"].
Proof.
  intros lookups.
  assert (Hgen : forall hasher,
             getRecommendations tied_db (tied_index hasher) "C1" 3
               = Returned ["P1"; "P4"]).
  { intros hasher.
    destruct (getRecommendations_personalized_result tied_db
                (tied_index hasher) "C1" 3 lookups) as [-> _]; try done.
    repeat constructor. apply tied_index_query. }
  split_and!.
  - reflexivity.
  - constructor; [apply tied_index_query | constructor].
  - reflexivity.
  - apply Hgen.
  - apply Hgen.
  - reflexivity.
  - intros hasher. reflexivity.
Qed.
(** * Further properties of the similarity index *)

(** ** The vectorizer *)

Lemma foldl_insert_iota {A} (f : Z -> A) (n a : nat) (v : list A) :
  (a + n <= length v)%nat ->
  let v' := foldl (fun v i => <[Z.to_nat i := f i]> v) v
                  (Z.of_nat <$> seq a n) in
  length v' = length v /\
  forall i, v' !! i =
    if decide (a <= i < a + n)%nat then Some (f (Z.of_nat i)) else v !! i.
Proof.
  revert a v. induction n as [|n IH]; intros a v Hlen; simpl.
  - split; [done|]. intros i. destruct (decide _); [lia | done].
  - destruct (IH (S a) (<[Z.to_nat (Z.of_nat a) := f (Z.of_nat a)]> v))
      as [Hl Hlk]; [rewrite length_insert; lia|].
    rewrite length_insert in Hl. split; [done|]. intros i.
    rewrite Hlk, Nat2Z.id.
    destruct (decide (S a <= i < S a + n)%nat), (decide (a <= i < a + S n)%nat);
      try lia; try done.
    + assert (i = a) as -> by lia. rewrite list_lookup_insert_eq; [done | lia].
    + rewrite list_lookup_insert_ne; [done | lia].
Qed.

Lemma createTextVector_lookup hasher text :
  length (createTextVector hasher text) = 128%nat /\
  forall i, (i < 128)%nat ->
    createTextVector hasher text !! i =
      Some (double_of_size_t ((hasher text mod 2 ^ 64) mod (Z.of_nat i + 1))
            / 100)%float.
Proof.
  unfold createTextVector, iota. rewrite length_replicate.
  pose proof (foldl_insert_iota
    (fun i => (double_of_size_t ((hasher text mod 2 ^ 64) mod (i + 1)) / 100)%float)
    128 0 (replicate 128 0%float)) as Hf.
  rewrite length_replicate in Hf. destruct (Hf ltac:(lia)) as [Hl Hlk].
  split; [exact Hl|]. intros i Hi. rewrite Hlk.
  destruct (decide _); [done | lia].
Qed.

(** The values a component can take: a remainder below 128, over 100. *)
Lemma component_values :
  forallb (fun r => let x := (double_of_size_t r / 100)%float in
                    PrimFloat.leb 0 x && PrimFloat.leb x (double_of_size_t 127 / 100)
                    && ((r =? 0) || negb (PrimFloat.eqb x 0)))
          (iota 128) = true.
Proof. vm_compute. reflexivity. Qed.

Lemma component_value r :
  0 <= r < 128 ->
  let x := (double_of_size_t r / 100)%float in
  PrimFloat.leb 0 x = true /\
  PrimFloat.leb x (double_of_size_t 127 / 100) = true /\
  (x = 0%float -> r = 0).
Proof.
  intros Hr x. pose proof component_values as Hall.
  rewrite forallb_forall in Hall. specialize (Hall r).
  rewrite <- list_elem_of_In in Hall.
  assert (Hin : r ∈ iota 128).
  { apply list_elem_of_lookup. exists (Z.to_nat r).
    apply iota_lookup. lia. }
  specialize (Hall Hin). fold x in Hall.
  apply andb_prop in Hall as [Hall Hz]. apply andb_prop in Hall as [H0 H1].
  split_and!; [done..|]. intros Hx. rewrite Hx in Hz.
  apply orb_prop in Hz as [Hz|Hz]; [lia | done].
Qed.

(** A double that compares at all is not a NaN. *)
Lemma SFeqb_refl (x : spec_float) : x <> S754_nan -> SFeqb x x = true.
Proof.
  unfold SFeqb, SFcompare. destruct x as [s|s| |s m e]; try done.
  - by destruct s.
  - intros _. destruct s; rewrite Z.compare_refl;
      change (Pos.compare_cont Eq m m) with (Pos.compare m m);
      by rewrite Pos.compare_refl.
Qed.

Lemma leb_not_nan (x y : float) : PrimFloat.leb x y = true -> not_nan y.
Proof.
  unfold not_nan, PrimFloat.is_nan.
  rewrite FloatAxioms.leb_spec, FloatAxioms.eqb_spec. intros Hle.
  rewrite SFeqb_refl; [done|]. intros Hy. rewrite Hy in Hle.
  unfold SFleb, SFcompare in Hle. by destruct (Prim2SF x) as [[]|[]| |[] ? ?].
Qed.

(** X1.  Whatever the hash function and the text, the vector has 128
    components, the first one is [0.0], and every component is a finite
    number between [0.0] and [127/100]; in particular none is a NaN. *)
Theorem createTextVector_components hasher text :
  length (createTextVector hasher text) = 128%nat /\
  createTextVector hasher text !! 0%nat = Some 0%float /\
  Forall (fun x => PrimFloat.leb 0 x = true /\
                   PrimFloat.leb x (double_of_size_t 127 / 100) = true /\
                   not_nan x)
         (createTextVector hasher text).
Proof.
  destruct (createTextVector_lookup hasher text) as [Hlen Hlk].
  split_and!; [done| |].
  - rewrite Hlk by lia. rewrite Z.mod_1_r. reflexivity.
  - apply Forall_forall. intros x Hx.
    apply list_elem_of_lookup in Hx as [i Hi].
    assert (i < 128)%nat by (rewrite <- Hlen; by eapply lookup_lt_Some).
    rewrite Hlk in Hi by done. injection Hi as <-.
    set (r := (hasher text mod 2 ^ 64) mod (Z.of_nat i + 1)).
    assert (Hr : 0 <= r < 128).
    { subst r. pose proof (Z.mod_pos_bound (hasher text mod 2 ^ 64)
                             (Z.of_nat i + 1)). lia. }
    destruct (component_value r Hr) as (H0 & H1 & _). split_and!; [done..|].
    by apply (leb_not_nan 0).
Qed.

(** A number below 2^64 that every modulus 1..128 divides is 0: the least
    common multiple of these moduli is beyond 2^64. *)
Lemma all_remainders_zero h :
  0 <= h < 2 ^ 64 ->
  (forall i, (i < 128)%nat -> h mod (Z.of_nat i + 1) = 0) -> h = 0.
Proof.
  intros Hh Hall.
  assert (Hd : forall m, 1 <= m <= 128 -> (m | h)).
  { intros m Hm. apply Z.mod_divide; [lia|].
    specialize (Hall (Z.to_nat (m - 1)) ltac:(lia)).
    by replace (Z.of_nat (Z.to_nat (m - 1)) + 1) with m in Hall by lia. }
  set (L := Z.lcm 128 (Z.lcm 81 (Z.lcm 125 (Z.lcm 49 (Z.lcm 121
            (Z.lcm 127 (Z.lcm 113 (Z.lcm 109 (Z.lcm 107 103))))))))).
  assert (HL : (L | h)).
  { subst L. repeat (apply Z.lcm_least; [apply Hd; lia|]). apply Hd; lia. }
  assert (HLv : 2 ^ 64 < L) by (vm_compute; reflexivity).
  apply Z.mod_divide in HL; [|lia].
  rewrite Z.mod_small in HL; lia.
Qed.

(** X2.  The vector of a text is the zero vector exactly when the hash of
    the text is 0 (as a 64-bit value); for every other hash some component
    is not [0.0]. *)
Theorem createTextVector_zero_iff hasher text :
  createTextVector hasher text = replicate 128 0%float <->
  hasher text mod 2 ^ 64 = 0.
Proof.
  destruct (createTextVector_lookup hasher text) as [Hlen Hlk].
  split.
  - intros Hz. apply all_remainders_zero; [apply Z.mod_pos_bound; lia|].
    intros i Hi. specialize (Hlk i Hi). rewrite Hz in Hlk.
    rewrite lookup_replicate_2 in Hlk by done. injection Hlk as Hx.
    set (r := (hasher text mod 2 ^ 64) mod (Z.of_nat i + 1)) in *.
    assert (Hr : 0 <= r < 128).
    { subst r. pose proof (Z.mod_pos_bound (hasher text mod 2 ^ 64)
                             (Z.of_nat i + 1)). lia. }
    destruct (component_value r Hr) as (_ & _ & H0). by apply H0.
  - intros Hz. apply list_eq. intros i.
    destruct (decide (i < 128)%nat) as [Hi|Hi].
    + rewrite Hlk, lookup_replicate_2 by done. rewrite Hz, Z.mod_0_l by lia.
      reflexivity.
    + rewrite !lookup_ge_None_2; [done | rewrite length_replicate; lia | lia].
Qed.

(** ** Rebuilding the index *)

Lemma prepareProductVectors_foldl hasher (rows : list product_row) self :
  foldl (fun self product =>
           let text := (p_name product +:+ " " +:+ p_description product
                          +:+ " " +:+ p_tags product)%string in
           {| productIds := productIds self ++ [p_product_id product];
              productVectors :=
                productVectors self ++ [createTextVector hasher text] |})
        self rows
  = {| productIds := productIds self ++ (p_product_id <$> rows);
       productVectors :=
         productVectors self ++
           ((fun p => createTextVector hasher (product_text p)) <$> rows) |}.
Proof.
  revert self. induction rows as [|p rows IH]; intros self; simpl.
  - rewrite !app_nil_r. by destruct self.
  - rewrite IH. simpl. by rewrite <- !app_assoc.
Qed.

Lemma prepareProductVectors_spec hasher db self :
  let index := prepareProductVectors hasher db self in
  productIds index = p_product_id <$> products db /\
  productVectors index
    = (fun p => createTextVector hasher (product_text p)) <$> products db /\
  well_formed index.
Proof.
  unfold prepareProductVectors, select_products.
  rewrite prepareProductVectors_foldl. simpl. split_and!; [done..|].
  split; simpl; [by rewrite !length_fmap|].
  exists 128%nat. apply Forall_fmap, Forall_forall. intros p _.
  exact (proj1 (createTextVector_lookup hasher (product_text p))).
Qed.

(** X3.  After a rebuild the index lists the ids of the products table in
    table order, holds at the same position the vector of each product's
    text ("name description tags"), and is well formed: one vector of 128
    components per id.  Nothing of the previous index is left. *)
Theorem prepareProductVectors_rebuilds hasher db self :
  let index := prepareProductVectors hasher db self in
  productIds index = p_product_id <$> products db /\
  productVectors index
    = (fun p => createTextVector hasher (product_text p)) <$> products db /\
  well_formed index.
Proof. apply prepareProductVectors_spec. Qed.

(** ** The size and the members of a query result *)

Lemma filter_ne_all {A} `{EqDecision A} (x : A) (l : list A) :
  x ∉ l -> filter (fun y => y <> x) l = l.
Proof.
  induction l as [|y l IH]; [done|]. intros Hx.
  apply not_elem_of_cons in Hx as [Hne Hx].
  rewrite filter_cons_True by done. by rewrite IH.
Qed.

Lemma filter_ne_length {A} `{EqDecision A} (x : A) (l : list A) :
  NoDup l -> (length l <= S (length (filter (fun y => y <> x) l)))%nat.
Proof.
  induction 1 as [|y l Hy Hnd IH]; simpl; [lia|].
  destruct (decide (y = x)) as [->|Hne].
  - rewrite filter_cons_False by (intros Hn; by apply Hn).
    rewrite filter_ne_all by done. lia.
  - rewrite filter_cons_True by done. simpl. lia.
Qed.

Lemma getSimilarProducts_picked self productId topN r :
  productId ∈ productIds self -> productVectors self <> [] ->
  getSimilarProducts self productId topN = Returned r ->
  exists (i : nat) (visited : list Z),
    productIds self !! i = Some productId /\
    0 <= topN /\
    length visited = Z.to_nat topN /\
    NoDup visited /\
    Forall (fun ix => 0 <= ix < Z.of_nat (length (productVectors self)))
           visited /\
    Forall (fun ix => 0 <= ix < Z.of_nat (length (productIds self)))
           (filter (fun ix => ix <> Z.of_nat i) visited) /\
    r = (fun ix => productIds self !!! Z.to_nat ix) <$>
          filter (fun ix => ix <> Z.of_nat i) visited.
Proof.
  intros Hin Hne Hr.
  apply getSimilarProducts_found in Hr
    as (i & vec & sims & indices & Hi & _ & Hvec & Hsims & H0 & Hn & Hsort & Hc);
    [|done..].
  apply collect_similar_Returned in Hc as [-> Hrange].
  pose proof (partial_sort_perm _ _ _ _ Hsort) as Hperm.
  pose proof (partial_sort_iota_bounds _ _ _ _ Hsort) as [Hb Hlen].
  apply calculateSimilarities_length in Hsims.
  exists i, (take (Z.to_nat topN) indices). split_and!; try done.
  - rewrite length_take. lia.
  - assert (Hnd : NoDup indices).
    { rewrite Hperm. unfold iota. apply (NoDup_fmap_2 _), NoDup_seq. }
    apply (sublist_NoDup _ _ Hnd), sublist_take.
  - rewrite <- Hsims. apply Forall_take. exact Hb.
Qed.

(** X4.  A query that returns never returns more than [topN] ids.  When the
    queried id is indexed, the result holds [topN] or [topN - 1] ids: the
    first [topN] ranked positions, less the query's own position if it is
    among them. *)
Theorem getSimilarProducts_size self productId topN r :
  getSimilarProducts self productId topN = Returned r ->
  Z.of_nat (length r) <= Z.max 0 topN /\
  (productId ∈ productIds self -> productVectors self <> [] ->
   topN - 1 <= Z.of_nat (length r)).
Proof.
  intros Hr.
  destruct (decide (productId ∈ productIds self)) as [Hp|Hp].
  2:{ rewrite getSimilarProducts_absent in Hr by done.
      injection Hr as <-. simpl. split; [lia | done]. }
  destruct (productVectors self) as [|v0 vs] eqn:Ev.
  { unfold getSimilarProducts in Hr. rewrite Ev in Hr. simpl in Hr.
    injection Hr as <-. simpl. split; [lia | done]. }
  apply getSimilarProducts_picked in Hr
    as (i & visited & _ & H0 & Hlen & Hnd & _ & _ & ->); [|done|by rewrite Ev].
  rewrite length_fmap.
  pose proof (length_filter (fun ix => ix <> Z.of_nat i) visited).
  pose proof (filter_ne_length (Z.of_nat i) visited Hnd).
  split; [lia|]. intros _ _. lia.
Qed.

Lemma getSimilarProducts_size_witness :
  Z.of_nat (length ["P1002"; "P1005"; "P1004"]) <= Z.max 0 4 /\
  ("P1001" ∈ productIds catalog_index -> productVectors catalog_index <> [] ->
   4 - 1 <= Z.of_nat (length ["P1002"; "P1005"; "P1004"])).
Proof.
  apply (getSimilarProducts_size catalog_index "P1001" 4).
  vm_compute. reflexivity.
Defined.

(** X5.  In an index whose ids are pairwise distinct, a query that returns
    lists ids of the index, and lists none of them twice. *)
Theorem getSimilarProducts_distinct_indexed self productId topN r :
  NoDup (productIds self) ->
  getSimilarProducts self productId topN = Returned r ->
  NoDup r /\ r ⊆ productIds self.
Proof.
  intros Hids Hr.
  destruct (decide (productId ∈ productIds self)) as [Hp|Hp].
  2:{ rewrite getSimilarProducts_absent in Hr by done.
      injection Hr as <-. split; [constructor | apply list_subseteq_nil]. }
  destruct (productVectors self) as [|v0 vs] eqn:Ev.
  { unfold getSimilarProducts in Hr. rewrite Ev in Hr. simpl in Hr.
    injection Hr as <-. split; [constructor | apply list_subseteq_nil]. }
  apply getSimilarProducts_picked in Hr
    as (i & visited & _ & _ & _ & Hnd & _ & Hb & ->); [|done|by rewrite Ev].
  rewrite Forall_forall in Hb. split.
  - apply NoDup_fmap_2_strong; [|by apply NoDup_filter].
    intros x y Hx Hy Hxy.
    apply Hb in Hx, Hy.
    assert (Hlx : productIds self !! Z.to_nat x
                  = Some (productIds self !!! Z.to_nat x))
      by (apply list_lookup_lookup_total_lt; lia).
    assert (Hly : productIds self !! Z.to_nat y
                  = Some (productIds self !!! Z.to_nat y))
      by (apply list_lookup_lookup_total_lt; lia).
    rewrite Hxy in Hlx.
    pose proof (NoDup_lookup _ _ _ _ Hids Hlx Hly). lia.
  - intros id Hid. apply list_elem_of_fmap in Hid as (ix & -> & Hix).
    apply Hb in Hix. apply list_elem_of_lookup_total_2. lia.
Qed.

Lemma getSimilarProducts_distinct_indexed_witness :
  NoDup ["P1002"; "P1005"; "P1004"] /\
  ["P1002"; "P1005"; "P1004"] ⊆ productIds catalog_index.
Proof.
  apply (getSimilarProducts_distinct_indexed catalog_index "P1001" 4).
  - exact (bool_decide_unpack (NoDup (productIds catalog_index)) I).
  - vm_compute. reflexivity.
Defined.

(** ** Similarity is symmetric *)

Lemma SFmul_comm prec emax (x y : spec_float) :
  SFmul prec emax x y = SFmul prec emax y x.
Proof.
  destruct x as [sx|sx| |sx mx ex], y as [sy|sy| |sy my ey]; simpl;
    try done; try (by rewrite xorb_comm).
  by rewrite xorb_comm, Pos.mul_comm, Z.add_comm.
Qed.

Lemma float_mul_comm (x y : float) : (x * y = y * x)%float.
Proof.
  apply Prim2SF_inj. rewrite !FloatAxioms.mul_spec. apply SFmul_comm.
Qed.

Lemma dot_comm_from (u v : list float) (init : float) :
  foldl (fun acc xy => (acc + xy.1 * xy.2)%float) init (zip u v)
  = foldl (fun acc xy => (acc + xy.1 * xy.2)%float) init (zip v u).
Proof.
  revert v init. induction u as [|x u IH]; intros [|y v] init; simpl; try done.
  rewrite (float_mul_comm x y). apply IH.
Qed.

Lemma cosine_comm (u v : list float) : cosine u v = cosine v u.
Proof.
  unfold cosine, dot. rewrite (dot_comm_from u v).
  by rewrite (float_mul_comm (PrimFloat.sqrt _) (PrimFloat.sqrt _)).
Qed.

(** X6.  In a well-formed index the similarity the code computes is
    symmetric: the entry for product [j] in the similarities of product [i]
    is, bit for bit, the entry for product [i] in the similarities of
    product [j]. *)
Theorem calculateSimilarities_symmetric self (i j : nat) u v su sv :
  well_formed self ->
  productVectors self !! i = Some u -> productVectors self !! j = Some v ->
  calculateSimilarities self u = Returned su ->
  calculateSimilarities self v = Returned sv ->
  su !! j = sv !! i /\ su !! j = Some (cosine u v).
Proof.
  intros [_ [dim Hdim]] Hu Hv Hsu Hsv.
  rewrite Forall_forall in Hdim.
  assert (Hlu : length u = dim) by (apply Hdim; by eapply list_elem_of_lookup_2).
  assert (Hlv : length v = dim) by (apply Hdim; by eapply list_elem_of_lookup_2).
  rewrite calculateSimilarities_is_cosine in Hsu
    by (apply Forall_forall; intros w Hw; rewrite Hlu; by apply Hdim).
  rewrite calculateSimilarities_is_cosine in Hsv
    by (apply Forall_forall; intros w Hw; rewrite Hlv; by apply Hdim).
  injection Hsu as <-. injection Hsv as <-.
  rewrite !list_lookup_fmap, Hu, Hv. simpl. by rewrite cosine_comm.
Qed.

Lemma calculateSimilarities_symmetric_witness :
  (cosine (productVectors sample_index !!! 0%nat)
     <$> productVectors sample_index) !! 2%nat
  = (cosine (productVectors sample_index !!! 2%nat)
       <$> productVectors sample_index) !! 0%nat /\
  (cosine (productVectors sample_index !!! 0%nat)
     <$> productVectors sample_index) !! 2%nat
  = Some (cosine (productVectors sample_index !!! 0%nat)
                 (productVectors sample_index !!! 2%nat)).
Proof.
  apply (calculateSimilarities_symmetric sample_index 0 2).
  - exact sample_index_well_formed.
  - vm_compute. reflexivity.
  - vm_compute. reflexivity.
  - vm_compute. reflexivity.
  - vm_compute. reflexivity.
Defined.
(** ** Adding a product *)

(** X7.  [addProduct] on a map that holds the seven keys, with texts that
    are literals and a price and a score that are numerals, returns; the id
    of the product is then in the index, and the index lists exactly the ids
    of the products table.  If the id was not stored before, the row is
    appended to the table, the other tables are left alone, and distinct ids
    stay distinct.  If the id was stored already, the store is left as it
    was. *)
Theorem addProduct_indexes hasher execute_other db self productData
    product_id name category price description tags popularity_score :
  productData !! "product_id" = Some product_id ->
  productData !! "name" = Some name ->
  productData !! "category" = Some category ->
  productData !! "price" = Some price ->
  productData !! "description" = Some description ->
  productData !! "tags" = Some tags ->
  productData !! "popularity_score" = Some popularity_score ->
  sql_literal product_id = true ->
  sql_literal name = true ->
  sql_literal category = true ->
  sql_numeral price = true ->
  sql_literal description = true ->
  sql_literal tags = true ->
  sql_numeral popularity_score = true ->
  exists db' index,
    addProduct hasher execute_other db self productData
    = Finished (db', index) /\
    product_id ∈ productIds index /\
    productIds index = p_product_id <$> products db' /\
    well_formed index /\
    (product_id ∉ p_product_id <$> products db ->
     products db'
     = products db ++
         [ {| p_product_id := product_id; p_name := name;
              p_description := description; p_tags := tags;
              p_popularity_score := numeral_value popularity_score |} ] /\
     customers db' = customers db /\
     interactions db' = interactions db /\
     purchases db' = purchases db /\
     (NoDup (p_product_id <$> products db) -> NoDup (productIds index))) /\
    (product_id ∈ p_product_id <$> products db -> db' = db).
Proof.
  intros Hid Hname Hcategory Hprice Hdescription Htags Hscore
         Lid Lname Lcategory Lprice Ldescription Ltags Lscore.
  unfold addProduct.
  rewrite Hid, Hname, Hcategory, Hprice, Hdescription, Htags, Hscore.
  rewrite Lid, Lname, Lcategory, Lprice, Ldescription, Ltags, Lscore.
  cbn [andb]. eexists _, _. split; [reflexivity|].
  set (row := {| p_product_id := product_id |}).
  pose proof (prepareProductVectors_spec hasher (insert_product db row) self)
    as (Hids & _ & Hwf).
  rewrite Hids. revert Hwf. unfold insert_product. cbn [p_product_id row].
  destruct (decide (product_id ∈ p_product_id <$> products db))
    as [Hin|Hfresh]; simpl; intros Hwf.
  - split_and!; try done.
  - split_and!; try done.
    + rewrite fmap_app. apply elem_of_app. right. simpl.
      apply elem_of_cons. by left.
    + intros _. split_and!; try done.
      intros Hnd. rewrite fmap_app. simpl.
      apply NoDup_app. split_and!; [done| |apply NoDup_singleton].
      intros id Hin Hin'. apply list_elem_of_singleton in Hin' as ->. done.
Qed.

Lemma addProduct_indexes_witness :
  exists db' index,
    addProduct gnu_hash (fun db _ => db) tied_db no_index sample_product
    = Finished (db', index) /\
    "P1001" ∈ productIds index /\
    productIds index = p_product_id <$> products db' /\
    well_formed index /\
    ("P1001" ∉ p_product_id <$> products tied_db ->
     products db'
     = products tied_db ++
         [ {| p_product_id := "P1001"; p_name := "Wireless Headphones";
              p_description :=
                "Premium wireless headphones with noise cancellation";
              p_tags := tag_list ["audio"; "wireless"; "bluetooth"];
              p_popularity_score := numeral_value "8.5" |} ] /\
     customers db' = customers tied_db /\
     interactions db' = interactions tied_db /\
     purchases db' = purchases tied_db /\
     (NoDup (p_product_id <$> products tied_db) -> NoDup (productIds index))) /\
    ("P1001" ∈ p_product_id <$> products tied_db -> db' = tied_db).
Proof.
  apply (addProduct_indexes gnu_hash (fun db _ => db) tied_db no_index
           sample_product "P1001" "Wireless Headphones" "Electronics" "99.99"
           "Premium wireless headphones with noise cancellation"
           (tag_list ["audio"; "wireless"; "bluetooth"]) "8.5");
    vm_compute; reflexivity.
Defined.

(** * Further properties of the k-means clustering *)

Lemma initial_centroids_spec rand features k :
  features <> [] ->
  exists centroids,
    initial_centroids rand features k = Returned centroids /\
    length centroids = Z.to_nat k /\
    Forall (fun c => c ∈ features) centroids.
Proof.
  intros Hne. unfold initial_centroids.
  assert (Hgen : forall n a acc,
    Forall (fun c => c ∈ features) acc ->
    exists centroids,
      foldl (fun acc i =>
               centroids <-- acc ;;
               let r := (rand i mod 2 ^ 64) mod Z.of_nat (length features) in
               c <-- at_index features r ;;
               Returned (centroids ++ [c]))
            (Returned acc) (seq a n) = Returned centroids /\
      length centroids = (length acc + n)%nat /\
      Forall (fun c => c ∈ features) centroids).
  { induction n as [|n IH]; intros a acc Hacc; simpl.
    - exists acc. split_and!; [done | lia | done].
    - set (r := (rand a mod 2 ^ 64) mod Z.of_nat (length features)).
      assert (Hr : 0 <= r < Z.of_nat (length features)).
      { apply Z.mod_pos_bound. destruct features; [done | simpl; lia]. }
      destruct (lookup_lt_is_Some_2 features (Z.to_nat r)) as [c Hc]; [lia|].
      assert (Hat : at_index features r = Returned c)
        by (apply at_index_Returned; split; [lia | done]).
      rewrite Hat. simpl.
      destruct (IH (S a) (acc ++ [c])) as (cs & Hcs & Hlen & Hin).
      { apply Forall_app. split; [done|]. constructor; [|constructor].
        by eapply list_elem_of_lookup_2. }
      exists cs. split_and!; [done | | done].
      rewrite Hlen, length_app. simpl. lia. }
  destruct (Hgen (Z.to_nat k) 0%nat [] (Forall_nil_2 _)) as (cs & Hcs & Hlen & Hin).
  exists cs. split_and!; [done | by rewrite Hlen | done].
Qed.

Lemma coordinate_sums_length dim points :
  Forall (fun p => length p = dim) points ->
  length (coordinate_sums dim points) = dim.
Proof.
  unfold coordinate_sums. intros Hp.
  assert (Hgen : forall row, length row = dim ->
                 length (foldl add_rows row points) = dim).
  { induction Hp as [|p points Hlen Hp IH]; intros row Hrow; simpl; [done|].
    apply IH. rewrite add_rows_length; congruence. }
  apply Hgen, length_replicate.
Qed.

Lemma members_subseteq features clusters j :
  members features clusters j ⊆ features.
Proof.
  intros p Hp. unfold members in Hp.
  apply list_elem_of_fmap in Hp as ([p' c] & -> & Hpc).
  apply list_elem_of_filter in Hpc as [_ Hpc].
  apply elem_of_zip_l in Hpc. done.
Qed.

Lemma kmeans_pass_inv dim features k s :
  0 < k -> features <> [] ->
  Forall (fun p => length p = dim) features ->
  kmeans_inv dim features k s ->
  exists s' changed,
    kmeans_pass features k s = Returned (s', changed) /\
    kmeans_inv dim features k s' /\
    Forall (fun c => 0 <= c < k) (clusters s').
Proof.
  intros Hk Hne Hdim (Hcl & Hce & Hcd).
  destruct (kmeans_pass_defined dim features k s Hk Hdim Hcl Hce Hcd)
    as (s' & changed & Hp & Hcl' & Hrange & Hup & Hce').
  exists s', changed. split; [done|]. split; [|done].
  unfold kmeans_inv. split_and!; [done..|].
  assert (Hhead : length (default [] (head features)) = dim).
  { destruct features as [|p0 ?]; [done|]. simpl.
    by apply Forall_cons in Hdim as [? _]. }
  pose proof (update_centroids_spec features (clusters s') k) as Hspec.
  simpl in Hspec. rewrite Hhead in Hspec.
  destruct (Hspec Hdim Hcl' Hrange) as (nc & Hnc & _ & Hlk).
  rewrite Hup in Hnc. injection Hnc as <-.
  apply Forall_forall. intros c Hc.
  apply list_elem_of_lookup in Hc as [j Hj].
  assert (Hjk : (j < Z.to_nat k)%nat)
    by (rewrite <- Hce'; by eapply lookup_lt_Some).
  specialize (Hlk (Z.of_nat j) ltac:(lia)). rewrite Nat2Z.id, Hj in Hlk.
  injection Hlk as ->.
  destruct (members features (clusters s') (Z.of_nat j)) as [|m ms] eqn:Em.
  - apply length_replicate.
  - unfold mean_point. rewrite length_fmap. apply coordinate_sums_length.
    apply Forall_forall. intros q Hq. rewrite Forall_forall in Hdim.
    apply Hdim. eapply members_subseteq. rewrite Em. done.
Qed.

Lemma kmeans_loop_labels dim fuel features k s o :
  0 < k -> features <> [] ->
  Forall (fun p => length p = dim) features ->
  kmeans_inv dim features k s ->
  kmeans_loop fuel features k s = Some o ->
  exists labels,
    o = Returned labels /\ length labels = length features /\
    Forall (fun c => 0 <= c < k) labels.
Proof.
  intros Hk Hne Hdim. revert s.
  induction fuel as [|fuel IH]; intros s Hinv; simpl; [done|].
  destruct (kmeans_pass_inv dim features k s Hk Hne Hdim Hinv)
    as (s' & changed & -> & Hinv' & Hrange).
  destruct changed; [by apply IH|].
  intros [= <-]. exists (clusters s'). split_and!; [done| |done].
  apply Hinv'.
Qed.

Lemma simpleKMeans_result dim fuel rand features k o :
  features <> [] -> Forall (fun p => length p = dim) features -> 0 < k ->
  simpleKMeans fuel rand features k = Some o ->
  exists labels,
    o = Returned labels /\ length labels = length features /\
    Forall (fun c => 0 <= c < k) labels.
Proof.
  intros Hne Hdim Hk. unfold simpleKMeans.
  destruct features as [|p0 features'] eqn:Ef; [done|]. rewrite <- Ef in *.
  assert (vector_empty features = false) as -> by (by rewrite Ef).
  assert ((k <=? 0) = false) as -> by lia. simpl.
  destruct (initial_centroids_spec rand features k Hne) as (cs & -> & Hlen & Hin).
  apply (kmeans_loop_labels dim); try done.
  split_and!; simpl; [apply length_replicate | done |].
  rewrite Forall_forall in Hin, Hdim. apply Forall_forall. intros c Hc.
  by apply Hdim, Hin.
Qed.

(** X8.  On a non-empty batch of points of one dimension and for [k > 0],
    whatever [rand] returns, the clustering never leaves the bounds of a
    vector, and whenever the loop stops it returns one label per point, each
    in [0, k). *)
Theorem simpleKMeans_labels dim fuel rand features k o :
  features <> [] -> Forall (fun p => length p = dim) features -> 0 < k ->
  simpleKMeans fuel rand features k = Some o ->
  exists labels,
    o = Returned labels /\ length labels = length features /\
    Forall (fun c => 0 <= c < k) labels.
Proof. apply simpleKMeans_result. Qed.

Lemma simpleKMeans_labels_witness :
  exists labels,
    Returned [1; 1; 0; 0] = Returned labels /\
    length labels = length separated_features /\
    Forall (fun c => 0 <= c < 2) labels.
Proof.
  apply (simpleKMeans_labels 4 3 glibc_rand separated_features 2).
  - discriminate.
  - repeat constructor.
  - lia.
  - vm_compute. reflexivity.
Defined.

(** ** One cluster *)

Lemma assign_loop_one features centroids :
  Forall (fun p => Forall (fun c => length c = length p) centroids) features ->
  length centroids = 1%nat ->
  assign_loop features (replicate (length features) 0) centroids 1
  = Returned (replicate (length features) 0, false).
Proof.
  intros Hf Hc. induction Hf as [|p features Hp Hf IH]; simpl; [done|].
  destruct (nearest_range p centroids 1 Hp ltac:(lia) Hc) as (b & -> & Hb).
  simpl. rewrite IH. simpl. assert (b = 0) as -> by lia. done.
Qed.

(** X9.  With [k = 1] the loop stops after its first pass, whatever [rand]
    returns: every point of a non-empty batch of points of one dimension is
    given label 0. *)
Theorem simpleKMeans_one_cluster dim fuel rand features :
  features <> [] -> Forall (fun p => length p = dim) features ->
  simpleKMeans (S fuel) rand features 1
  = Some (Returned (replicate (length features) 0)).
Proof.
  intros Hne Hdim. unfold simpleKMeans.
  destruct features as [|p0 features'] eqn:Ef; [done|]. rewrite <- Ef in *.
  assert (vector_empty features = false) as -> by (by rewrite Ef).
  simpl orb. cbv iota.
  destruct (initial_centroids_spec rand features 1 Hne) as (cs & -> & Hlen & Hin).
  assert (Hcd : Forall (fun c => length c = dim) cs).
  { rewrite Forall_forall in Hin, Hdim. apply Forall_forall. intros c Hc.
    by apply Hdim, Hin. }
  set (s := {| clusters := replicate (length features) 0; centroids := cs |}).
  assert (Hassign : assign_loop features (clusters s) (centroids s) 1
                    = Returned (replicate (length features) 0, false)).
  { apply assign_loop_one; [|done].
    apply Forall_forall. intros p Hp. rewrite Forall_forall in Hdim.
    rewrite (Hdim p Hp). done. }
  destruct (kmeans_pass_inv dim features 1 s ltac:(lia) Hne Hdim)
    as (s' & changed & Hpass & _ & _).
  { split_and!; simpl; [apply length_replicate | done | done]. }
  unfold kmeans_loop. rewrite Hpass.
  unfold kmeans_pass in Hpass. rewrite Hassign in Hpass. simpl in Hpass.
  destruct (update_centroids features (replicate (length features) 0) 1)
    as [nc|]; [|done].
  simpl in Hpass. injection Hpass as <- <-. done.
Qed.

Lemma simpleKMeans_one_cluster_witness :
  simpleKMeans (S 0) glibc_rand separated_features 1
  = Some (Returned (replicate (length separated_features) 0)).
Proof.
  apply (simpleKMeans_one_cluster 4 0 glibc_rand separated_features).
  - discriminate.
  - repeat constructor.
Defined.

(** * Customer segmentation *)

(** ** normalizeFeatures *)

Lemma add_features_Returned means vec :
  (length means <= length vec)%nat ->
  exists r, add_features means vec = Returned r /\ length r = length means.
Proof.
  revert vec. induction means as [|m means IH]; intros vec Hlen; simpl.
  - by exists [].
  - destruct vec as [|x vec]; simpl in Hlen; [lia|].
    destruct (IH vec ltac:(lia)) as (r & -> & Hr). simpl.
    exists ((m + x)%float :: r). split; [done | simpl; lia].
Qed.

Lemma add_features_Undefined means vec :
  (length vec < length means)%nat -> add_features means vec = Undefined.
Proof.
  revert vec. induction means as [|m means IH]; intros vec Hlen; simpl in *;
    [lia|].
  destruct vec as [|x vec]; [done|]. simpl in Hlen.
  rewrite IH by lia. done.
Qed.

Lemma add_squares_Returned stddevs means vec :
  length means = length stddevs -> (length stddevs <= length vec)%nat ->
  exists r, add_squares stddevs means vec = Returned r /\
            length r = length stddevs.
Proof.
  revert means vec.
  induction stddevs as [|s stddevs IH]; intros means vec Hm Hlen; simpl.
  - by exists [].
  - destruct means as [|m means]; [done|].
    destruct vec as [|x vec]; simpl in Hlen; [lia|].
    destruct (IH means vec ltac:(simpl in Hm; lia) ltac:(lia)) as (r & -> & Hr).
    simpl. eexists. split; [done | simpl; lia].
Qed.

Lemma normalize_row_Returned stddevs means vec :
  length means = length stddevs -> (length stddevs <= length vec)%nat ->
  exists r, normalize_row stddevs means vec = Returned r /\
            length r = length vec.
Proof.
  revert means vec.
  induction stddevs as [|s stddevs IH]; intros means vec Hm Hlen; simpl.
  - by exists vec.
  - destruct means as [|m means]; [done|].
    destruct vec as [|x vec]; simpl in Hlen; [lia|].
    destruct (IH means vec ltac:(simpl in Hm; lia) ltac:(lia)) as (r & -> & Hr).
    simpl. eexists. split; [done | simpl; lia].
Qed.

Lemma normalize_rows_Returned stddevs means features :
  length means = length stddevs ->
  Forall (fun vec => (length stddevs <= length vec)%nat) features ->
  exists out, normalize_rows stddevs means features = Returned out /\
              Forall2 (fun vec vec' => length vec' = length vec) features out.
Proof.
  intros Hm. induction 1 as [|vec features Hvec Hf IH]; simpl.
  - exists []. split; [done | constructor].
  - destruct (normalize_row_Returned stddevs means vec Hm Hvec) as (r & -> & Hr).
    destruct IH as (out & -> & Hout). simpl.
    exists (r :: out). split; [done | by constructor].
Qed.

Lemma foldl_Undefined {A B} (f : A -> B -> outcome A) (l : list B) :
  foldl (fun acc x => a <-- acc ;; f a x) Undefined l = Undefined.
Proof. induction l; simpl; done. Qed.

Lemma sum_rows_Returned (n : nat) (features : list (list float))
    (acc : list float) :
  length acc = n ->
  Forall (fun vec => (n <= length vec)%nat) features ->
  exists r,
    foldl (fun acc vec => means <-- acc ;; add_features means vec)
          (Returned acc) features = Returned r /\ length r = n.
Proof.
  intros Hacc Hf. revert acc Hacc.
  induction Hf as [|vec features Hvec Hf IH]; intros acc Hacc; simpl.
  - by exists acc.
  - destruct (add_features_Returned acc vec ltac:(lia)) as (r & -> & Hr).
    apply IH. lia.
Qed.

Lemma sum_rows_Undefined (n : nat) (features : list (list float))
    (acc : list float) :
  length acc = n ->
  Exists (fun vec => (length vec < n)%nat) features ->
  foldl (fun acc vec => means <-- acc ;; add_features means vec)
        (Returned acc) features = Undefined.
Proof.
  intros Hacc Hf. revert acc Hacc.
  induction Hf as [vec features Hvec|vec features Hf IH]; intros acc Hacc;
    simpl.
  - rewrite add_features_Undefined by lia. apply foldl_Undefined.
  - destruct (decide (length vec < n)%nat) as [Hs|Hs].
    + rewrite add_features_Undefined by lia. apply foldl_Undefined.
    + destruct (add_features_Returned acc vec ltac:(lia)) as (r & -> & Hr).
      apply IH. lia.
Qed.

Lemma sum_squares_Returned (n : nat) (means : list float)
    (features : list (list float)) (acc : list float) :
  length acc = n -> length means = n ->
  Forall (fun vec => (n <= length vec)%nat) features ->
  exists r,
    foldl (fun acc vec => stddevs <-- acc ;; add_squares stddevs means vec)
          (Returned acc) features = Returned r /\ length r = n.
Proof.
  intros Hacc Hm Hf. revert acc Hacc.
  induction Hf as [|vec features Hvec Hf IH]; intros acc Hacc; simpl.
  - by exists acc.
  - destruct (add_squares_Returned acc means vec ltac:(lia) ltac:(lia))
      as (r & -> & Hr).
    apply IH. lia.
Qed.

Lemma normalizeFeatures_spec features :
  let numFeatures := length (default [] (head features)) in
  (Forall (fun vec => (numFeatures <= length vec)%nat) features ->
   exists out, normalizeFeatures features = Returned out /\
               Forall2 (fun vec vec' => length vec' = length vec) features out) /\
  (Exists (fun vec => (length vec < numFeatures)%nat) features ->
   normalizeFeatures features = Undefined).
Proof.
  destruct features as [|first rest]; simpl.
  - split.
    + intros _. exists []. split; [done | constructor].
    + intros H. by apply Exists_nil in H.
  - set (features := first :: rest). set (n := length first).
    change (foldl _ (add_features (replicate n 0%float) first) rest)
      with (foldl (fun acc vec => means <-- acc ;; add_features means vec)
                  (Returned (replicate n 0%float)) features).
    split.
    + intros Hf.
      destruct (sum_rows_Returned n features (replicate n 0%float)
                  (length_replicate _ _) Hf) as (sums & -> & Hsums).
      simpl.
      set (means := (fun mean => _) <$> sums).
      assert (Hmeans : length means = n)
        by (subst means; by rewrite length_fmap).
      change (foldl _ (add_squares (replicate n 0%float) means first) rest)
        with (foldl (fun acc vec =>
                       stddevs <-- acc ;; add_squares stddevs means vec)
                    (Returned (replicate n 0%float)) features).
      destruct (sum_squares_Returned n means features (replicate n 0%float)
                  (length_replicate _ _) Hmeans Hf) as (squares & -> & Hsq).
      simpl.
      change (obind (normalize_row ?s ?m first) _)
        with (normalize_rows s m features).
      apply normalize_rows_Returned.
      * rewrite length_fmap. lia.
      * rewrite length_fmap, Hsq. done.
    + intros Hf.
      rewrite (sum_rows_Undefined n features (replicate n 0%float)
                 (length_replicate _ _) Hf). done.
Qed.

(** X10.  [normalizeFeatures] stays inside every row exactly when no row is
    shorter than the first one (it is the first row that fixes how many
    columns are read), and then it keeps the number of rows and the length
    of every row.  An empty batch is returned as it is. *)
Theorem normalizeFeatures_shape features :
  let numFeatures := length (default [] (head features)) in
  (normalizeFeatures features = Undefined <->
   Exists (fun vec => (length vec < numFeatures)%nat) features) /\
  (forall out, normalizeFeatures features = Returned out ->
     Forall2 (fun vec vec' => length vec' = length vec) features out) /\
  normalizeFeatures [] = Returned [].
Proof.
  intros numFeatures.
  destruct (normalizeFeatures_spec features) as [Hok Hbad].
  fold numFeatures in Hok, Hbad.
  assert (Hcases : Forall (fun vec => (numFeatures <= length vec)%nat) features
                   \/ Exists (fun vec => (length vec < numFeatures)%nat) features).
  { destruct (decide (Exists (fun vec => (length vec < numFeatures)%nat)
                             features)) as [He|He]; [by right|left].
    apply not_Exists_Forall in He; [|apply _].
    eapply Forall_impl; [exact He|]. simpl. intros; lia. }
  split_and!; [|intros out Hout|done].
  - split; [|exact Hbad]. intros Hu.
    destruct Hcases as [Hf|He]; [|done].
    destruct (Hok Hf) as (out & Hout & _). congruence.
  - destruct Hcases as [Hf|He].
    + destruct (Hok Hf) as (out' & Hout' & Hshape). congruence.
    + rewrite (Hbad He) in Hout. done.
Qed.

(** ** updateCustomerSegments *)

Lemma row_features_length stod row feature :
  row_features stod row = Some feature -> length feature = 4%nat.
Proof.
  unfold row_features. intros Hf.
  destruct (stod (callback (f_interaction_count row))); [|done].
  destruct (stod (callback (f_purchase_count row))); [|done].
  destruct (stod (callback (f_total_spent row))); [|done].
  destruct (stod (callback (f_active_months row))); [|done].
  simpl in Hf. by injection Hf as <-.
Qed.

Lemma prepare_features_Some stod data customerIds features :
  Forall (fun row => is_Some (row_features stod row)) data ->
  Forall (fun feature => length feature = 4%nat) features ->
  exists features',
    prepare_features stod data customerIds features
    = Some (customerIds ++ (f_customer_id <$> data), features') /\
    length features' = (length features + length data)%nat /\
    Forall (fun feature => length feature = 4%nat) features'.
Proof.
  intros Hd. revert customerIds features.
  induction Hd as [|row data [feature Hrow] Hd IH];
    intros customerIds features Hf; simpl.
  - exists features. rewrite app_nil_r. split_and!; [done | lia | done].
  - rewrite Hrow.
    destruct (IH (customerIds ++ [f_customer_id row]) (features ++ [feature]))
      as (features' & -> & Hlen & Hdim).
    { apply Forall_app. split; [done|]. constructor; [|constructor].
      by eapply row_features_length. }
    exists features'. rewrite <- app_assoc. simpl.
    split_and!; [done | | done]. rewrite Hlen, length_app. simpl. lia.
Qed.

Lemma prepare_features_None stod data customerIds features :
  Exists (fun row => row_features stod row = None) data ->
  prepare_features stod data customerIds features = None.
Proof.
  intros Hd. revert customerIds features.
  induction Hd as [row data Hrow|row data Hd IH]; intros customerIds features;
    simpl.
  - by rewrite Hrow.
  - destruct (row_features stod row); [apply IH | done].
Qed.

Lemma relabelled_refl k c : relabelled [] k c c.
Proof.
  unfold relabelled. split_and!; [done..|].
  destruct (decide _) as [Hin|]; [by apply elem_of_nil in Hin | done].
Qed.

Lemma write_segments_spec k customerIds : forall db segments i,
  0 <= i -> i + Z.of_nat (length customerIds) <= Z.of_nat (length segments) ->
  Forall (fun c => 0 <= c < k) segments ->
  exists db',
    write_segments db customerIds segments i = Returned db' /\
    products db' = products db /\ interactions db' = interactions db /\
    purchases db' = purchases db /\
    Forall2 (relabelled customerIds k) (customers db) (customers db').
Proof.
  induction customerIds as [|customerId customerIds IH];
    intros db segments i Hi Hlen Hrange; simpl.
  - exists db. split_and!; try done.
    apply Forall2_same_length_lookup_2; [done|].
    intros n c c' Hc Hc'. rewrite Hc in Hc'. injection Hc' as <-.
    apply relabelled_refl.
  - simpl in Hlen.
    destruct (lookup_lt_is_Some_2 segments (Z.to_nat i)) as [j Hj]; [lia|].
    assert (Hat : at_index segments i = Returned j)
      by (apply at_index_Returned; split; [lia | done]).
    rewrite Hat. simpl.
    assert (Hjk : 0 <= j < k).
    { rewrite Forall_forall in Hrange. apply Hrange.
      by eapply list_elem_of_lookup_2. }
    destruct (IH (update_segment db customerId ("segment_" +:+ pretty j))
                 segments (i + 1) ltac:(lia) ltac:(lia) Hrange)
      as (db' & -> & Hp & Hi' & Hpu & Hc).
    exists db'. split_and!; try done.
    unfold update_segment in Hc. cbn [customers] in Hc.
    rewrite Forall2_fmap_l in Hc.
    eapply Forall2_impl; [exact Hc|]. clear Hc.
    intros c c'. unfold relabelled, compose.
    destruct (decide (c_customer_id c = customerId)) as [Heq|Hne].
    + simpl. intros (Hid & Hpref & Hseg). split_and!; [done..|].
      rewrite decide_True by (apply elem_of_cons; by left).
      destruct (decide (c_customer_id c ∈ customerIds)); [done|].
      exists j. done.
    + intros (Hid & Hpref & Hseg). split_and!; [done..|].
      destruct (decide (c_customer_id c ∈ customerIds)) as [Hin|Hnin].
      * rewrite decide_True by (apply elem_of_cons; by right). done.
      * rewrite decide_False; [done|].
        intros Hin. apply elem_of_cons in Hin as [?|?]; done.
Qed.

(** X11.  Every customer a run of [updateCustomerSegments] covers gets one
    label.  For [nClusters > 0] and rows of the query result whose customer
    id is a literal and whose four values [stod] can read, the call neither
    throws nor leaves the bounds of a vector; when the clustering loop
    stops, every customer named in the query result carries one of the
    labels "segment_0" .. "segment_{nClusters-1}", and all other rows and
    tables are as before. *)
Theorem updateCustomerSegments_labels stod fuel rand db data nClusters o :
  0 < nClusters ->
  Forall (fun row => sql_literal (f_customer_id row) = true) data ->
  Forall (fun row => is_Some (row_features stod row)) data ->
  updateCustomerSegments stod fuel rand db data nClusters = Some o ->
  exists db',
    o = Finished db' /\
    products db' = products db /\ interactions db' = interactions db /\
    purchases db' = purchases db /\
    Forall2 (relabelled (f_customer_id <$> data) nClusters)
            (customers db) (customers db').
Proof.
  intros Hk _ Hdata. unfold updateCustomerSegments.
  destruct data as [|row0 data'] eqn:Ed.
  { simpl. intros [= <-]. exists db. split_and!; try done.
    apply Forall2_same_length_lookup_2; [done|].
    intros n c c' Hc Hc'. rewrite Hc in Hc'. injection Hc' as <-.
    apply relabelled_refl. }
  rewrite <- Ed in *. assert (vector_empty data = false) as -> by (by rewrite Ed).
  destruct (prepare_features_Some stod data [] [] Hdata (Forall_nil_2 _))
    as (features & -> & Hlen & Hdim).
  simpl in Hlen.
  destruct (normalizeFeatures_spec features) as [Hok _].
  destruct Hok as (normalized & -> & Hshape).
  { destruct features as [|f0 ?]; [constructor|]. simpl.
    apply Forall_cons in Hdim as Hdim'. destruct Hdim' as [-> _].
    eapply Forall_impl; [exact Hdim|]. simpl. intros ? ->. lia. }
  assert (Hdim' : Forall (fun p => length p = 4%nat) normalized).
  { apply Forall_forall. intros p Hp.
    apply list_elem_of_lookup in Hp as [n Hn].
    destruct (Forall2_lookup_r _ _ _ _ _ Hshape Hn) as (q & Hq & ->).
    rewrite Forall_forall in Hdim. apply Hdim.
    by eapply list_elem_of_lookup_2. }
  assert (Hnlen : length normalized = length data).
  { apply Forall2_length in Hshape. lia. }
  assert (Hne : normalized <> []).
  { intros Hn. rewrite Hn, Ed in Hnlen. done. }
  destruct (simpleKMeans fuel rand normalized nClusters) as [o'|] eqn:Hkm;
    [|done].
  destruct (simpleKMeans_result 4 fuel rand normalized nClusters o'
              Hne Hdim' Hk Hkm) as (segments & -> & Hslen & Hrange).
  destruct (write_segments_spec nClusters (f_customer_id <$> data) db segments 0)
    as (db' & Hw & Hrest); [lia | rewrite length_fmap; lia | done |].
  simpl. rewrite Hw. intros [= <-]. exists db'. done.
Qed.

Lemma updateCustomerSegments_labels_witness :
  exists db',
    Finished (update_segment
                (update_segment
                   (update_segment segmented_db "CUST001" "segment_0")
                   "CUST002" "segment_0")
                "CUST003" "segment_0") = Finished db' /\
    products db' = products segmented_db /\
    interactions db' = interactions segmented_db /\
    purchases db' = purchases segmented_db /\
    Forall2 (relabelled (f_customer_id <$> segmented_data) 2)
            (customers segmented_db) (customers db').
Proof.
  apply (updateCustomerSegments_labels stod_decimal 5 glibc_rand segmented_db
           segmented_data 2).
  - lia.
  - repeat constructor.
  - repeat constructor; by eexists.
  - vm_compute. reflexivity.
Defined.

(** X12.  With [nClusters <= 0] and a non-empty query result that [stod]
    can read, the clustering returns no segments at all and the loop that
    writes them reads [segments[0]] of an empty vector: the call leaves the
    bounds of that vector before any row is updated. *)
Theorem updateCustomerSegments_no_clusters stod fuel rand db data nClusters :
  data <> [] ->
  Forall (fun row => is_Some (row_features stod row)) data ->
  nClusters <= 0 ->
  updateCustomerSegments stod fuel rand db data nClusters = Some Unspecified.
Proof.
  intros Hne Hdata Hk. unfold updateCustomerSegments.
  destruct data as [|row0 data'] eqn:Ed; [done|]. rewrite <- Ed in *.
  assert (vector_empty data = false) as -> by (by rewrite Ed).
  destruct (prepare_features_Some stod data [] [] Hdata (Forall_nil_2 _))
    as (features & -> & Hlen & Hdim).
  destruct (normalizeFeatures_spec features) as [Hok _].
  destruct Hok as (normalized & -> & Hshape).
  { destruct features as [|f0 ?]; [constructor|]. simpl.
    apply Forall_cons in Hdim as Hdim'. destruct Hdim' as [-> _].
    eapply Forall_impl; [exact Hdim|]. simpl. intros ? ->. lia. }
  unfold simpleKMeans. assert ((nClusters <=? 0) = true) as -> by lia.
  rewrite orb_true_r. rewrite Ed. simpl. done.
Qed.

Lemma updateCustomerSegments_no_clusters_witness :
  updateCustomerSegments stod_digits 5 glibc_rand counted_db counted_data 0
  = Some Unspecified.
Proof.
  apply (updateCustomerSegments_no_clusters stod_digits 5 glibc_rand
           counted_db counted_data 0).
  - discriminate.
  - repeat constructor; by eexists.
  - lia.
Defined.

(** X13.  [callback] stores the text "NULL" for an SQL NULL, and nothing
    catches what [stod] throws: if [stod] rejects "NULL" and some row of the
    query result holds a NULL (as [SUM(p.amount)] is for a customer without
    purchases), [updateCustomerSegments] ends by throwing, whatever the
    number of clusters, and no segment is written. *)
Theorem updateCustomerSegments_null_throws stod fuel rand db data nClusters :
  stod "NULL" = None ->
  Exists (fun row => f_interaction_count row = None \/
                     f_purchase_count row = None \/
                     f_total_spent row = None \/
                     f_active_months row = None) data ->
  updateCustomerSegments stod fuel rand db data nClusters = Some Throws.
Proof.
  intros Hnull Hdata. unfold updateCustomerSegments.
  destruct data as [|row0 data'] eqn:Ed; [by apply Exists_nil in Hdata|].
  rewrite <- Ed in *. assert (vector_empty data = false) as -> by (by rewrite Ed).
  rewrite prepare_features_None; [done|].
  eapply Exists_impl; [exact Hdata|]. simpl. intros row Hrow.
  unfold row_features.
  destruct Hrow as [Hr|[Hr|[Hr|Hr]]]; rewrite Hr; simpl; rewrite Hnull;
    repeat match goal with
      | |- context [stod (callback ?cell)] =>
          destruct (stod (callback cell)); simpl
      end; done.
Qed.

Lemma updateCustomerSegments_null_throws_witness :
  updateCustomerSegments stod_digits 5 glibc_rand counted_db null_data 4
  = Some Throws.
Proof.
  apply (updateCustomerSegments_null_throws stod_digits 5 glibc_rand
           counted_db null_data 4).
  - reflexivity.
  - apply Exists_cons_tl, Exists_cons_hd. right. right. by left.
Defined.

(** * The store side of the agents *)

Global Instance by_timestamp_desc_total : Total by_timestamp_desc.
Proof. intros r s. unfold by_timestamp_desc. destruct (total String.le (i_timestamp s) (i_timestamp r)); auto. Qed.

Global Instance by_timestamp_desc_trans : Transitive by_timestamp_desc.
Proof.
  intros r s t Hrs Hst. unfold by_timestamp_desc in *.
  by transitivity (i_timestamp s).
Qed.

Global Instance by_count_desc_total : Total by_count_desc.
Proof. intros g h. unfold by_count_desc. lia. Qed.

Global Instance by_count_desc_trans : Transitive by_count_desc.
Proof. intros g h i. unfold by_count_desc. lia. Qed.

Lemma sql_limit_length {A} (n : Z) (rows : list A) :
  0 <= n -> (length (sql_limit n rows) <= Z.to_nat n)%nat.
Proof.
  intros Hn. unfold sql_limit. destruct (Z.ltb_spec n 0); [lia|].
  rewrite length_take. lia.
Qed.

Lemma sql_limit_sublist {A} (n : Z) (rows : list A) :
  sublist (sql_limit n rows) rows.
Proof.
  unfold sql_limit. destruct (n <? 0); [done | apply sublist_take].
Qed.

Lemma sql_limit_head {A} (n : Z) (rows : list A) :
  n <> 0 -> head (sql_limit n rows) = head rows.
Proof.
  intros Hn. unfold sql_limit. destruct (Z.ltb_spec n 0); [done|].
  destruct (Z.to_nat n) as [|m] eqn:E; [lia|]. by destruct rows.
Qed.

(** ** Recording an interaction *)

Lemma sorted_head_latest (rows : list interaction_row) (new : interaction_row) :
  new ∈ rows ->
  (forall r, r ∈ rows -> r = new \/
             strict String.le (i_timestamp r) (i_timestamp new)) ->
  head (merge_sort by_timestamp_desc rows) = Some new.
Proof.
  intros Hnew Hold.
  pose proof (merge_sort_Permutation by_timestamp_desc rows) as Hperm.
  pose proof (StronglySorted_merge_sort by_timestamp_desc rows) as Hsorted.
  destruct (merge_sort by_timestamp_desc rows) as [|h t].
  { rewrite <- Hperm in Hnew. by apply elem_of_nil in Hnew. }
  simpl. f_equal.
  assert (Hh : h ∈ rows) by (rewrite <- Hperm; apply elem_of_cons; by left).
  destruct (Hold h Hh) as [->|[_ Hlt]]; [done|].
  exfalso. apply Hlt.
  rewrite <- Hperm in Hnew. apply elem_of_cons in Hnew as [->|Hnew]; [done|].
  apply StronglySorted_inv in Hsorted as [_ Hall].
  rewrite Forall_forall in Hall. apply (Hall new Hnew).
Qed.

(** X14.  An interaction recorded for ids that are literals, at a time of
    the clock's format that is later than the times (of that format) of all
    earlier interactions of the same customer, is the first of that
    customer's recent interactions, which never number more than three; the
    recent interactions of every other customer are as before. *)
Theorem recordInteraction_most_recent execute_other now db customerId
    productId type duration :
  sql_literal customerId = true ->
  sql_literal productId = true ->
  timestamp_format now = true ->
  Forall (fun r => i_customer_id r = customerId ->
                   timestamp_format (i_timestamp r) = true /\
                   strict String.le (i_timestamp r) now) (interactions db) ->
  let db' :=
    recordInteraction execute_other now db customerId productId type duration in
  head (getRecentInteractions db' customerId) = Some productId /\
  (length (getRecentInteractions db' customerId) <= 3)%nat /\
  (forall other, sql_literal other = true -> other <> customerId ->
     getRecentInteractions db' other = getRecentInteractions db other).
Proof.
  intros Lid Lproduct Lnow Hold db'.
  unfold getRecentInteractions, select_recent_interactions.
  set (new := {| i_customer_id := customerId; i_product_id := productId;
                 i_timestamp := now |}).
  assert (Hrows : forall id,
    filter (fun r => i_customer_id r = id) (interactions db')
    = filter (fun r => i_customer_id r = id) (interactions db)
        ++ (if decide (customerId = id) then [new] else [])).
  { intros id. subst db'. unfold recordInteraction.
    rewrite Lid, Lproduct, Lnow. cbn [andb interactions].
    rewrite filter_app.
    destruct (decide (customerId = id)) as [Heq|Hne].
    - by rewrite (filter_cons_True _ new), filter_nil.
    - by rewrite (filter_cons_False _ new), filter_nil. }
  split_and!.
  - rewrite Hrows, decide_True by done.
    set (rows := filter _ (interactions db) ++ [new]).
    assert (Hhead : head (merge_sort by_timestamp_desc rows) = Some new).
    { apply sorted_head_latest.
      - apply elem_of_app. right. apply elem_of_cons. by left.
      - intros r Hr. apply elem_of_app in Hr as [Hr|Hr].
        + right. apply list_elem_of_filter in Hr as [Hid Hr].
          rewrite Forall_forall in Hold. by apply Hold.
        + left. by apply list_elem_of_singleton in Hr. }
    pose proof (sql_limit_head 3 (merge_sort by_timestamp_desc rows)
                  ltac:(lia)) as Hlim.
    rewrite Hhead in Hlim.
    destruct (sql_limit 3 (merge_sort by_timestamp_desc rows)); [done|].
    simpl in *. by injection Hlim as ->.
  - rewrite length_fmap. apply (sql_limit_length 3). lia.
  - intros other _ Hne. rewrite Hrows, decide_False by done.
    by rewrite app_nil_r.
Qed.

Lemma recordInteraction_most_recent_witness :
  head (getRecentInteractions
          (recordInteraction (fun db _ => db) "2024-02-01 09:00:00" tied_db
                             "C1" "P3" VIEW 120) "C1")
    = Some "P3" /\
  (length (getRecentInteractions
             (recordInteraction (fun db _ => db) "2024-02-01 09:00:00" tied_db
                                "C1" "P3" VIEW 120) "C1")
   <= 3)%nat /\
  (forall other, sql_literal other = true -> other <> "C1" ->
     getRecentInteractions
       (recordInteraction (fun db _ => db) "2024-02-01 09:00:00" tied_db
                          "C1" "P3" VIEW 120) other
     = getRecentInteractions tied_db other).
Proof.
  apply (recordInteraction_most_recent (fun db _ => db) "2024-02-01 09:00:00"
           tied_db "C1" "P3" VIEW 120); [reflexivity..|].
  apply Forall_forall. intros r Hr Hid. simpl in Hr.
  repeat (apply elem_of_cons in Hr as [->|Hr];
          [first [discriminate Hid
                 | split; [reflexivity
                          |split; [vm_compute; exact I | vm_compute; exact id]]]
          |]).
  by apply elem_of_nil in Hr.
Defined.

(** ** The segment ranking *)

Lemma StronglySorted_sql_limit {A} (R : relation A) (n : Z) (rows : list A) :
  StronglySorted R rows -> StronglySorted R (sql_limit n rows).
Proof.
  unfold sql_limit. destruct (n <? 0); [done|]. intros Hs.
  rewrite <- (take_drop (Z.to_nat n) rows) in Hs.
  by apply StronglySorted_app_1_l in Hs.
Qed.

Lemma StronglySorted_among {A} (R R' : relation A) (l : list A) :
  (forall x y, x ∈ l -> y ∈ l -> R x y -> R' x y) ->
  StronglySorted R l -> StronglySorted R' l.
Proof.
  intros Himp Hs. induction Hs as [|x l Hs IH Hx]; [constructor|].
  constructor.
  - apply IH. intros y z Hy Hz. apply Himp; apply elem_of_cons; by right.
  - apply Forall_forall. intros y Hy. rewrite Forall_forall in Hx.
    apply Himp; [apply elem_of_cons; by left | apply elem_of_cons; by right|].
    by apply Hx.
Qed.

(** The groups of the ranking query before [LIMIT]: every product with at
    least one purchase in the segment, with its count. *)
Lemma segment_groups db segment :
  let groups :=
    merge_sort by_count_desc
      (filter (fun g => (0 < g.2)%nat)
         ((fun p => (p_product_id p,
                     segment_purchase_count db segment (p_product_id p)))
            <$> products db)) in
  StronglySorted by_count_desc groups /\
  (forall g, g ∈ groups <->
     (0 < g.2)%nat /\ g.2 = segment_purchase_count db segment g.1 /\
     g.1 ∈ p_product_id <$> products db) /\
  (NoDup (p_product_id <$> products db) -> NoDup (fst <$> groups)).
Proof.
  intros groups. split_and!.
  - apply StronglySorted_merge_sort; apply _.
  - intros g. subst groups. rewrite merge_sort_Permutation.
    rewrite list_elem_of_filter, list_elem_of_fmap. split.
    + intros (Hpos & p & -> & Hp). simpl. split_and!; [done..|].
      by apply list_elem_of_fmap_2.
    + intros (Hpos & Hcount & Hin). split; [done|].
      apply list_elem_of_fmap in Hin as (p & Hid & Hp).
      exists p. split; [|done]. destruct g as [id n]. simpl in *. congruence.
  - intros Hnd. subst groups. rewrite merge_sort_Permutation.
    eapply sublist_NoDup; [|apply fmap_sublist, sublist_filter].
    rewrite <- list_fmap_compose. exact Hnd.
Qed.

Lemma getSegmentRecommendations_spec db segment topN :
  0 <= topN ->
  let result := getSegmentRecommendations db segment topN in
  let count := segment_purchase_count db segment in
  (length result <= Z.to_nat topN)%nat /\
  Forall (fun id => id ∈ p_product_id <$> products db /\ (0 < count id)%nat)
         result /\
  StronglySorted (fun a b => (count b <= count a)%nat) result /\
  (NoDup (p_product_id <$> products db) -> NoDup result) /\
  (Z.of_nat (length (products db)) <= topN ->
   forall id, id ∈ p_product_id <$> products db -> (0 < count id)%nat ->
              id ∈ result).
Proof.
  intros HtopN result count.
  destruct (segment_groups db segment) as (Hsorted & Hgroups & Hnd).
  subst result. unfold getSegmentRecommendations, select_segment_ranking.
  set (groups := merge_sort by_count_desc _) in *.
  split_and!.
  - rewrite length_fmap. by apply sql_limit_length.
  - apply Forall_fmap, Forall_forall. intros g Hg. simpl.
    pose proof (elem_of_sublist _ _ _ Hg (sql_limit_sublist topN groups))
      as Hg'.
    apply Hgroups in Hg' as (Hpos & Hcount & Hin). subst count.
    rewrite <- Hcount. done.
  - apply (StronglySorted_fmap fst
             (fun g h => (count h.1 <= count g.1)%nat)); [done|].
    apply StronglySorted_sql_limit.
    eapply StronglySorted_among; [|exact Hsorted].
    intros g h Hg Hh Hgh. apply Hgroups in Hg as (_ & Hg & _).
    apply Hgroups in Hh as (_ & Hh & _). unfold by_count_desc in Hgh.
    subst count. simpl. lia.
  - intros Hids. eapply sublist_NoDup; [exact (Hnd Hids)|].
    apply fmap_sublist, sql_limit_sublist.
  - intros Hall id Hid Hpos.
    assert (Hlen : (length groups <= length (products db))%nat).
    { subst groups. rewrite merge_sort_Permutation.
      etrans; [apply length_filter|]. by rewrite length_fmap. }
    unfold sql_limit. destruct (Z.ltb_spec topN 0); [lia|].
    rewrite take_ge by lia.
    apply list_elem_of_fmap. exists (id, count id). split; [done|].
    apply Hgroups. done.
Qed.


(** X15.  For a segment that is a literal and [topN >= 0] the segment
    ranking returns at most [topN] ids; each is the id of a stored product
    that customers of the segment bought at least once, and the ids come in
    non-increasing order of that purchase count.  No id is returned twice
    when product ids are distinct; and when [topN] is not below the number
    of stored products, every product bought in the segment is returned. *)
Theorem getSegmentRecommendations_ranked db segment topN :
  sql_literal segment = true ->
  0 <= topN ->
  let result := getSegmentRecommendations db segment topN in
  let count := segment_purchase_count db segment in
  (length result <= Z.to_nat topN)%nat /\
  Forall (fun id => id ∈ p_product_id <$> products db /\ (0 < count id)%nat)
         result /\
  StronglySorted (fun a b => (count b <= count a)%nat) result /\
  (NoDup (p_product_id <$> products db) -> NoDup result) /\
  (Z.of_nat (length (products db)) <= topN ->
   forall id, id ∈ p_product_id <$> products db -> (0 < count id)%nat ->
              id ∈ result).
Proof. intros _. apply getSegmentRecommendations_spec. Qed.

Lemma getSegmentRecommendations_ranked_witness :
  (length (getSegmentRecommendations sample_db "new" 5) <= Z.to_nat 5)%nat /\
  Forall (fun id => id ∈ p_product_id <$> products sample_db /\
                    (0 < segment_purchase_count sample_db "new" id)%nat)
         (getSegmentRecommendations sample_db "new" 5) /\
  StronglySorted (fun a b => (segment_purchase_count sample_db "new" b
                              <= segment_purchase_count sample_db "new" a)%nat)
                 (getSegmentRecommendations sample_db "new" 5) /\
  (NoDup (p_product_id <$> products sample_db) ->
   NoDup (getSegmentRecommendations sample_db "new" 5)) /\
  (Z.of_nat (length (products sample_db)) <= 5 ->
   forall id, id ∈ p_product_id <$> products sample_db ->
              (0 < segment_purchase_count sample_db "new" id)%nat ->
              id ∈ getSegmentRecommendations sample_db "new" 5).
Proof.
  apply (getSegmentRecommendations_ranked sample_db "new" 5);
    [reflexivity | lia].
Defined.

(** * Further properties of the recommendation waterfall *)

Lemma strict_sorted_NoDup (l : list string) :
  StronglySorted (strict String.le) l -> NoDup l.
Proof.
  induction 1 as [|x l Hs IH Hx]; constructor; [|done].
  intros Hin. rewrite Forall_forall in Hx. destruct (Hx x Hin) as [Hle Hnle].
  done.
Qed.

Lemma select_by_popularity_NoDup db topN :
  NoDup (p_product_id <$> products db) -> NoDup (select_by_popularity db topN).
Proof.
  intros Hnd. unfold select_by_popularity.
  eapply sublist_NoDup; [|apply fmap_sublist, sql_limit_sublist].
  by rewrite merge_sort_Permutation.
Qed.

(** The three shapes of a result. *)
Lemma getRecommendations_Returned db productAgent customerId topN r :
  getRecommendations db productAgent customerId topN = Returned r ->
  r = getFallbackRecommendations db topN \/
  (exists segment, r = getSegmentRecommendations db segment topN) \/
  (exists gathered,
     let distinct := unique (sort_strings gathered) in
     r = if topN mod 2 ^ 64 <? Z.of_nat (length distinct)
         then take (Z.to_nat (topN mod 2 ^ 64)) distinct else distinct).
Proof.
  unfold getRecommendations.
  destruct (select_profile db customerId) as [|profile rest];
    [intros [= <-]; by left|].
  set (otherwise := if negb (vector_empty (getSegmentRecommendations db
                                            (c_segment profile) topN))
                    then getSegmentRecommendations db (c_segment profile) topN
                    else getFallbackRecommendations db topN).
  assert (Hother : otherwise = getFallbackRecommendations db topN \/
                   exists segment,
                     otherwise = getSegmentRecommendations db segment topN).
  { subst otherwise. destruct (negb _); [right; by eexists | by left]. }
  destruct (negb (vector_empty (getRecentInteractions db customerId))).
  2:{ intros [= <-]. destruct Hother as [?|?]; auto. }
  destruct (similar_lookups productAgent _ topN []) as [gathered|]; [|done].
  simpl. destruct (negb (vector_empty gathered)).
  - intros [= <-]. right. right. by exists gathered.
  - intros [= <-]. destruct Hother as [?|?]; auto.
Qed.

(** X16.  For a customer id and stored segments that are literals and
    [0 <= topN] (an [int]), a recommendation that returns never holds more
    than [topN] ids, whichever of the three strategies produced it. *)
Theorem getRecommendations_at_most_topN db productAgent customerId topN r :
  sql_literal customerId = true ->
  Forall (fun c => sql_literal (c_segment c) = true) (customers db) ->
  0 <= topN < 2 ^ 31 ->
  getRecommendations db productAgent customerId topN = Returned r ->
  (length r <= Z.to_nat topN)%nat.
Proof.
  intros _ _ HtopN Hr.
  apply getRecommendations_Returned in Hr
    as [->|[[segment ->]|[gathered ->]]].
  - unfold getFallbackRecommendations, select_by_popularity.
    rewrite length_fmap. apply sql_limit_length. lia.
  - unfold getSegmentRecommendations, select_segment_ranking.
    rewrite length_fmap. apply sql_limit_length. lia.
  - simpl. rewrite Z.mod_small by lia.
    destruct (Z.ltb_spec topN
                (Z.of_nat (length (unique (sort_strings gathered))))).
    + rewrite length_take. lia.
    + lia.
Qed.

Lemma getRecommendations_at_most_topN_witness :
  (length ["P1001"; "P1002"] <= Z.to_nat 2)%nat.
Proof.
  apply (getRecommendations_at_most_topN sample_db sample_index "CUST002" 2).
  - reflexivity.
  - repeat constructor.
  - lia.
  - vm_compute. reflexivity.
Defined.

(** X17.  For a customer id and stored segments that are literals: when
    the product ids of the store are pairwise distinct, a recommendation
    that returns lists no id twice, whichever strategy produced it. *)
Theorem getRecommendations_no_duplicates db productAgent customerId topN r :
  sql_literal customerId = true ->
  Forall (fun c => sql_literal (c_segment c) = true) (customers db) ->
  NoDup (p_product_id <$> products db) ->
  getRecommendations db productAgent customerId topN = Returned r ->
  NoDup r.
Proof.
  intros _ _ Hids Hr.
  apply getRecommendations_Returned in Hr
    as [->|[[segment ->]|[gathered ->]]].
  - by apply select_by_popularity_NoDup.
  - destruct (segment_groups db segment) as (_ & _ & Hnd).
    eapply sublist_NoDup; [exact (Hnd Hids)|].
    apply fmap_sublist, sql_limit_sublist.
  - simpl.
    assert (Hnd : NoDup (unique (sort_strings gathered)))
      by apply strict_sorted_NoDup, sorted_distinct_spec.
    destruct (_ <? _); [|done].
    eapply sublist_NoDup; [exact Hnd | apply sublist_take].
Qed.

Lemma getRecommendations_no_duplicates_witness : NoDup ["P1001"; "P1002"].
Proof.
  apply (getRecommendations_no_duplicates sample_db sample_index "CUST002" 2).
  - reflexivity.
  - repeat constructor.
  - exact (bool_decide_unpack (NoDup (p_product_id <$> products sample_db)) I).
  - vm_compute. reflexivity.
Defined.

(** ** When the index is too small for the request *)

Lemma similar_lookups_Undefined productAgent recentProducts topN acc :
  Exists (fun p => getSimilarProducts productAgent p topN = Undefined)
         recentProducts ->
  similar_lookups productAgent recentProducts topN acc = Undefined.
Proof.
  intros Hex. revert acc.
  induction Hex as [p recent Hp|p recent Hex IH]; intros acc; simpl.
  - by rewrite Hp.
  - destruct (getSimilarProducts productAgent p topN); [apply IH | done].
Qed.

Lemma getSimilarProducts_small_index self productId topN :
  well_formed self -> productId ∈ productIds self ->
  Z.of_nat (length (productIds self)) <= topN ->
  getSimilarProducts self productId topN = Undefined.
Proof.
  intros [Hlen _] Hin Hsize.
  destruct (getSimilarProducts self productId topN) as [r|] eqn:Hr; [|done].
  apply getSimilarProducts_found in Hr
    as (i & vec & sims & indices & _ & _ & _ & Hs & H0 & Hn & _); [|done|].
  - apply calculateSimilarities_length in Hs. lia.
  - intros Hv. rewrite Hv in Hlen.
    destruct (productIds self); [by apply elem_of_nil in Hin | done].
Qed.

(** X18.  A customer with a profile, one of whose recent interactions is
    with an indexed product, gets no defined result when the index holds no
    more than [topN] products: the neighbour query for that product puts
    the middle of the partial sort past the end.  With the default
    [topN = 5] this is every index of up to five products. *)
Theorem getRecommendations_small_index db productAgent customerId topN
    productId :
  select_profile db customerId <> [] ->
  productId ∈ getRecentInteractions db customerId ->
  well_formed productAgent -> productId ∈ productIds productAgent ->
  Z.of_nat (length (productIds productAgent)) <= topN ->
  getRecommendations db productAgent customerId topN = Undefined.
Proof.
  intros Hprofile Hrecent Hwf Hin Hsize. unfold getRecommendations.
  destruct (select_profile db customerId) as [|profile rest]; [done|].
  destruct (getRecentInteractions db customerId) as [|p0 recent] eqn:Er;
    [by apply elem_of_nil in Hrecent|].
  simpl negb. cbv iota.
  rewrite similar_lookups_Undefined; [done|].
  apply Exists_exists. exists productId. split; [done|].
  by apply getSimilarProducts_small_index.
Qed.

Lemma getRecommendations_small_index_witness :
  getRecommendations sample_db sample_index "CUST001" 5 = Undefined.
Proof.
  apply (getRecommendations_small_index sample_db sample_index "CUST001" 5
           "P1001").
  - discriminate.
  - vm_compute. apply elem_of_cons. by left.
  - exact sample_index_well_formed.
  - rewrite sample_index_ids. apply elem_of_cons. by left.
  - rewrite sample_index_ids. simpl. lia.
Defined.

(** ** Without a usable history *)

Lemma similar_lookups_absent productAgent recentProducts topN acc :
  Forall (fun p => p ∉ productIds productAgent) recentProducts ->
  similar_lookups productAgent recentProducts topN acc = Returned acc.
Proof.
  intros Hf. revert acc.
  induction Hf as [|p recent Hp Hf IH]; intros acc; simpl; [done|].
  rewrite getSimilarProducts_absent by done. simpl.
  rewrite IH. by rewrite app_nil_r.
Qed.

(** X19.  For a customer with a profile none of whose recent interactions
    is with an indexed product (in particular a customer without
    interactions), the index is not consulted any further and the result is
    defined for every [topN]: the ranking of the customer's segment if that
    is not empty, and the popularity ranking otherwise. *)
Theorem getRecommendations_without_history db productAgent customerId topN
    profile rest :
  select_profile db customerId = profile :: rest ->
  Forall (fun p => p ∉ productIds productAgent)
         (getRecentInteractions db customerId) ->
  getRecommendations db productAgent customerId topN
  = Returned (match getSegmentRecommendations db (c_segment profile) topN with
              | [] => getFallbackRecommendations db topN
              | ids => ids
              end).
Proof.
  intros Hprofile Hrecent. unfold getRecommendations. rewrite Hprofile.
  rewrite similar_lookups_absent by done. simpl.
  destruct (getSegmentRecommendations db (c_segment profile) topN);
    destruct (getRecentInteractions db customerId); done.
Qed.

Lemma getRecommendations_without_history_witness :
  getRecommendations sample_db no_index "CUST002" 5
  = Returned (match getSegmentRecommendations sample_db
                      (c_segment {| c_customer_id := "CUST002";
                                    c_segment := "new";
                                    c_preferences := "{}" |}) 5 with
              | [] => getFallbackRecommendations sample_db 5
              | ids => ids
              end).
Proof.
  apply (getRecommendations_without_history sample_db no_index "CUST002" 5
           _ []).
  - reflexivity.
  - apply Forall_forall. intros p _ Hp. by apply elem_of_nil in Hp.
Defined.

(** ** Recording a purchase *)

(** X20.  When a customer with a profile buys a stored product (ids and the
    segment of the profile are literals, the amount is finite, the time has
    the clock's format), the product is in the ranking of the customer's
    segment from then on, for every [topN] that is not below the number of
    stored products. *)
Theorem recordPurchase_ranked execute_other to_string now db customerId
    productId quantity amount profile rest topN :
  sql_literal customerId = true ->
  sql_literal productId = true ->
  PrimFloat.is_finite amount = true ->
  timestamp_format now = true ->
  sql_literal (c_segment profile) = true ->
  select_profile db customerId = profile :: rest ->
  productId ∈ p_product_id <$> products db ->
  Z.of_nat (length (products db)) <= topN ->
  productId ∈ getSegmentRecommendations
                (recordPurchase execute_other to_string now db customerId
                                productId quantity amount)
                (c_segment profile) topN.
Proof.
  intros Lid Lproduct Lamount Lnow _ Hprofile Hstored Hall.
  set (db' := recordPurchase _ _ _ _ _ _ _ _).
  assert (Hdb' : db' = {| customers := customers db;
                          products := products db;
                          interactions := interactions db;
                          purchases :=
                            purchases db ++
                              [ {| pu_customer_id := customerId;
                                   pu_product_id := productId |} ] |}).
  { subst db'. unfold recordPurchase.
    by rewrite Lid, Lproduct, Lamount, Lnow. }
  destruct (getSegmentRecommendations_spec db' (c_segment profile) topN)
    as (_ & _ & _ & _ & Hcomplete).
  { lia. }
  apply Hcomplete; [by rewrite Hdb'..|].
  unfold segment_purchase_count. rewrite Hdb'.
  cbn [purchases customers]. rewrite filter_app, length_app.
  rewrite (filter_cons_True _ {| pu_customer_id := customerId;
                                 pu_product_id := productId |}).
  { simpl. lia. }
  split; [done|]. simpl. apply Exists_exists. exists profile.
  assert (Hin : profile ∈ select_profile db customerId)
    by (rewrite Hprofile; apply elem_of_cons; by left).
  unfold select_profile in Hin. apply list_elem_of_filter in Hin as [Hid Hin].
  done.
Qed.

Lemma recordPurchase_ranked_witness :
  "P1003" ∈ getSegmentRecommendations
              (recordPurchase (fun db _ => db) (fun _ => "79.500000")
                              "2024-01-01 10:00:04" sample_db "CUST002"
                              "P1003" 1 79.5%float)
              (c_segment {| c_customer_id := "CUST002"; c_segment := "new";
                            c_preferences := "{}" |}) 5.
Proof.
  apply (recordPurchase_ranked (fun db _ => db) (fun _ => "79.500000")
           "2024-01-01 10:00:04" sample_db "CUST002" "P1003" 1 79.5%float
           _ []); try reflexivity.
  - simpl. do 2 (apply elem_of_cons; right). apply elem_of_cons. by left.
  - simpl. lia.
Defined.

(** ** Profiles *)

Lemma union_absorb (m updates : gmap string string) :
  dom updates ⊆ dom m -> m ∪ updates = m.
Proof.
  intros Hdom. apply map_eq. intros k. rewrite lookup_union.
  destruct (m !! k) as [v|] eqn:Em; [by destruct (updates !! k)|].
  destruct (updates !! k) as [v|] eqn:Eu; [|done].
  exfalso. apply (not_elem_of_dom m k); [done|].
  apply Hdom. apply elem_of_dom. by eexists.
Qed.

Lemma default_profile_dom now customerId :
  dom (default_profile now customerId) = customer_columns.
Proof.
  unfold default_profile, customer_columns. rewrite dom_list_to_map_L.
  apply (bool_decide_unpack _). vm_compute. exact I.
Qed.

(** X21.  [updateProfile] stores none of the values it is given under the
    name of a column.  Both branches merge the updates with
    [std::map::insert], which keeps the value of every key that is present,
    and the eight column names are present: in the defaults of a new
    profile and in the row read for an existing one.  So, whatever the
    store does with a statement, a call whose updates name only columns
    sends what a call without updates sends, and leaves what that call
    leaves. *)
Theorem updateProfile_ignores_updates (store : Type)
    (executeQuery : store -> string -> store * list (gmap string string))
    (execute : store -> string -> store) now db customerId updates :
  dom updates ⊆ customer_columns ->
  (getProfile store executeQuery db customerId).2 = ∅ \/
  customer_columns ⊆ dom (getProfile store executeQuery db customerId).2 ->
  updateProfile store executeQuery execute now db customerId updates
  = updateProfile store executeQuery execute now db customerId ∅.
Proof.
  intros Hsub Hrow. unfold updateProfile.
  destruct (getProfile store executeQuery db customerId) as [db' profile].
  simpl in Hrow. unfold map_insert_range.
  rewrite !(right_id_L ∅ (∪)).
  destruct (decide (profile = ∅)) as [Hnone|Hsome].
  - rewrite union_absorb; [done|]. by rewrite default_profile_dom.
  - destruct Hrow as [?|Hfull]; [done|].
    rewrite union_absorb; [done|]. by etrans.
Qed.

Lemma updateProfile_ignores_updates_witness :
  updateProfile (list string) (recording_query []) recording_execute
    "2024-01-01 10:00:00" [] "CUST001" sample_updates
  = updateProfile (list string) (recording_query []) recording_execute
      "2024-01-01 10:00:00" [] "CUST001" ∅.
Proof.
  apply (updateProfile_ignores_updates (list string) (recording_query [])
           recording_execute "2024-01-01 10:00:00" [] "CUST001" sample_updates).
  - apply (bool_decide_unpack (dom sample_updates ⊆ customer_columns)).
    vm_compute. exact I.
  - by left.
Defined.

Lemma append_assoc (a b c : string) : ((a +:+ b) +:+ c = a +:+ b +:+ c)%string.
Proof.
  induction a as [|x a IH]; [done|].
  change (String x ((a +:+ b) +:+ c) = String x (a +:+ b +:+ c))%string.
  by rewrite IH.
Qed.

Lemma map_items_default now customerId :
  map_items (default_profile now customerId)
  = [ ("age", "NULL"); ("customer_id", customerId); ("gender", "NULL");
      ("last_activity", now); ("location", "NULL"); ("name", "");
      ("preferences", "{}"); ("segment", "new") ].
Proof. vm_compute. reflexivity. Qed.

Lemma map_items_record customer_id name age gender location segment
    preferences last_activity now :
  map_items (<["last_activity" := now]>
               (customer_record customer_id name age gender location segment
                                preferences last_activity))
  = [ ("age", age); ("customer_id", customer_id); ("gender", gender);
      ("last_activity", now); ("location", location); ("name", name);
      ("preferences", preferences); ("segment", segment) ].
Proof. vm_compute. reflexivity. Qed.

Lemma add_piece_empty piece : add_piece "" piece = piece.
Proof. done. Qed.

Lemma add_piece_cons a text piece :
  add_piece (String a text) piece = String a (text +:+ ", " +:+ piece)%string.
Proof.
  unfold add_piece. rewrite decide_False by done.
  by rewrite append_assoc.
Qed.

Lemma add_piece_app a text rest piece :
  add_piece (String a text +:+ rest) piece
  = (String a text +:+ rest +:+ ", " +:+ piece)%string.
Proof.
  unfold add_piece. rewrite decide_False by done.
  by rewrite !append_assoc.
Qed.

Lemma customer_record_nonempty customer_id name age gender location segment
    preferences last_activity :
  customer_record customer_id name age gender location segment preferences
                  last_activity <> ∅.
Proof.
  intros Heq.
  assert (Hage : customer_record customer_id name age gender location segment
                   preferences last_activity !! "age" = Some age) by done.
  by rewrite Heq in Hage.
Qed.

Ltac build_text :=
  cbv [foldl fst snd];
  repeat (case_decide; try done);
  rewrite ?add_piece_empty;
  repeat (rewrite add_piece_cons || rewrite add_piece_app);
  rewrite ?append_assoc; vm_compute; reflexivity.

(** X22. The statement [updateProfile] sends.  When the query for the
    customer returns no row and the caller's keys are column names, the
    statement is the INSERT of the default profile, with [customerId] and
    the time spliced between apostrophes and nothing of [updates]; when the
    first returned row holds the eight columns, it is the UPDATE that writes
    the row's own texts back, with [last_activity] set to the time, again
    with nothing of [updates]. *)
Theorem updateProfile_statements (store : Type)
    (executeQuery : store -> string -> store * list (gmap string string))
    (execute : store -> string -> store) now db customerId updates db' result :
  executeQuery db
    ("SELECT * FROM customers WHERE customer_id = '" +:+ customerId +:+ "'")%string
  = (db', result) ->
  dom updates ⊆ customer_columns ->
  (result = [] ->
   updateProfile store executeQuery execute now db customerId updates
   = execute db'
       ("INSERT INTO customers (age, customer_id, gender, last_activity, location, name, preferences, segment) VALUES ('NULL', '"
          +:+ customerId +:+ "', 'NULL', '" +:+ now
          +:+ "', 'NULL', '', '{}', 'new')")%string) /\
  (forall customer_id name age gender location segment preferences
          last_activity rest,
     result = customer_record customer_id name age gender location segment
                              preferences last_activity :: rest ->
     updateProfile store executeQuery execute now db customerId updates
     = execute db'
         ("UPDATE customers SET age = '" +:+ age +:+ "', gender = '" +:+ gender
            +:+ "', last_activity = '" +:+ now +:+ "', location = '" +:+ location
            +:+ "', name = '" +:+ name +:+ "', preferences = '" +:+ preferences
            +:+ "', segment = '" +:+ segment +:+ "' WHERE customer_id = '"
            +:+ customerId +:+ "'")%string).
Proof.
  intros Hquery Hdom. split.
  - intros ->. unfold updateProfile, getProfile. rewrite Hquery.
    rewrite decide_True by done. unfold map_insert_range.
    rewrite union_absorb by (by rewrite default_profile_dom).
    rewrite map_items_default. f_equal. build_text.
  - intros customer_id name age gender location segment preferences
           last_activity rest ->.
    unfold updateProfile, getProfile. rewrite Hquery. cbn [head default].
    rewrite decide_False by apply customer_record_nonempty.
    unfold map_insert_range.
    rewrite union_absorb.
    2:{ etrans; [exact Hdom|].
        apply (bool_decide_unpack _). vm_compute. exact I. }
    rewrite map_items_record. f_equal. build_text.
Qed.

Lemma updateProfile_statements_witness :
  updateProfile (list string) (recording_query []) recording_execute
    "2024-01-01 10:00:00" [] "CUST001" sample_updates
  = recording_execute
      ["SELECT * FROM customers WHERE customer_id = 'CUST001'"]
      "INSERT INTO customers (age, customer_id, gender, last_activity, location, name, preferences, segment) VALUES ('NULL', 'CUST001', 'NULL', '2024-01-01 10:00:00', 'NULL', '', '{}', 'new')" /\
  updateProfile (list string)
    (recording_query [customer_record "CUST001" "" "NULL" "NULL" "NULL" "new"
                                      "{}" "2024-01-01 10:00:00"])
    recording_execute "2024-03-05 17:30:00" [] "CUST001" sample_updates
  = recording_execute
      ["SELECT * FROM customers WHERE customer_id = 'CUST001'"]
      "UPDATE customers SET age = 'NULL', gender = 'NULL', last_activity = '2024-03-05 17:30:00', location = 'NULL', name = '', preferences = '{}', segment = 'new' WHERE customer_id = 'CUST001'".
Proof.
  assert (Hdom : dom sample_updates ⊆ customer_columns).
  { apply (bool_decide_unpack (dom sample_updates ⊆ customer_columns)).
    vm_compute. exact I. }
  split.
  - exact (proj1 (updateProfile_statements (list string) (recording_query [])
                    recording_execute "2024-01-01 10:00:00" [] "CUST001"
                    sample_updates _ [] eq_refl Hdom) eq_refl).
  - exact (proj2 (updateProfile_statements (list string)
                    (recording_query
                       [customer_record "CUST001" "" "NULL" "NULL" "NULL"
                                        "new" "{}" "2024-01-01 10:00:00"])
                    recording_execute "2024-03-05 17:30:00" [] "CUST001"
                    sample_updates _ _ eq_refl Hdom)
                 "CUST001" "" "NULL" "NULL" "NULL" "new" "{}"
                 "2024-01-01 10:00:00" [] eq_refl).
Defined.

(** * The weather forecast of the farming demo *)

Lemma ltb_leb (x y : float) :
  PrimFloat.ltb x y = true -> PrimFloat.leb x y = true.
Proof.
  rewrite FloatAxioms.ltb_spec, FloatAxioms.leb_spec. unfold SFltb, SFleb.
  by destruct (SFcompare (Prim2SF x) (Prim2SF y)) as [[]|].
Qed.

Lemma std_max_lower (x : float) : PrimFloat.leb 0 (std_max 0 x) = true.
Proof.
  unfold std_max. destruct (PrimFloat.ltb 0 x) eqn:E; [by apply ltb_leb|].
  reflexivity.
Qed.

Lemma std_min_upper (x : float) : PrimFloat.leb (std_min 100 x) 100 = true.
Proof.
  unfold std_min. destruct (PrimFloat.ltb x 100) eqn:E; [by apply ltb_leb|].
  reflexivity.
Qed.

Lemma std_max_upper (x : float) :
  PrimFloat.leb x 100 = true -> PrimFloat.leb (std_max 0 x) 100 = true.
Proof.
  intros Hx. unfold std_max. destruct (PrimFloat.ltb 0 x); [done|].
  reflexivity.
Qed.


Lemma predict_loop_spec draw futureDate n : forall i k current predictions,
  0 <= i -> i + Z.of_nat n <= 24856 -> Forall plausible predictions ->
  exists out,
    predict_loop draw futureDate n i k current predictions
    = Returned (out, (k + 4 * n)%nat) /\
    length out = (length predictions + n)%nat /\ Forall plausible out.
Proof.
  induction n as [|n IH]; intros i k current predictions Hi Hn Hp; simpl.
  - exists predictions. split_and!; [f_equal; f_equal; lia | lia | done].
  - destruct (Z.leb_spec (2 ^ 31) (i * 24 * 60 * 60)); [lia|].
    set (prediction := {| temperature := _ |}).
    destruct (IH (i + 1) (k + 4)%nat prediction (predictions ++ [prediction]))
      as (out & Hout & Hlen & Hall); [lia | lia | |].
    { apply Forall_app. split; [done|]. constructor; [|constructor].
      unfold plausible. subst prediction. simpl. split_and!.
      - apply std_max_lower.
      - apply std_max_lower.
      - apply std_max_upper, std_min_upper.
      - apply std_max_lower. }
    exists out. rewrite Hout. split_and!; [f_equal; f_equal; lia | | done].
    rewrite Hlen, length_app. simpl. lia.
Qed.

Lemma predict_loop_overflow draw futureDate n : forall i k current predictions,
  0 <= i <= 24856 -> 24856 < i + Z.of_nat n ->
  predict_loop draw futureDate n i k current predictions = Undefined.
Proof.
  induction n as [|n IH]; intros i k current predictions Hi Hn; simpl; [lia|].
  destruct (Z.leb_spec (2 ^ 31) (i * 24 * 60 * 60)); [done|].
  apply IH; lia.
Qed.

(** X23.  A forecast for up to 24856 days returns one prediction per day
    ([daysAhead <= 0] gives none), and every prediction has a rainfall and a
    wind speed of at least 0 and a humidity between 0 and 100, whatever the
    engine draws, a NaN included.  For more days the seconds offset
    [days * 24 * 60 * 60] of [getFutureDate] no longer fits an [int]. *)
Theorem predictWeather_plausible draw currentDate futureDate k daysAhead :
  (daysAhead <= 24856 ->
   exists predictions,
     predictWeather draw currentDate futureDate k daysAhead
     = Returned (predictions, (k + 4 + 4 * Z.to_nat daysAhead)%nat) /\
     length predictions = Z.to_nat daysAhead /\
     Forall plausible predictions) /\
  (24856 < daysAhead ->
   predictWeather draw currentDate futureDate k daysAhead = Undefined).
Proof.
  unfold predictWeather, getCurrentWeather. split.
  - intros Hd.
    destruct (predict_loop_spec draw futureDate (Z.to_nat daysAhead) 0
                (k + 4)%nat
                {| temperature := draw k; rainfall := draw (k + 1)%nat;
                   humidity := draw (k + 2)%nat;
                   windSpeed := draw (k + 3)%nat; date := currentDate |} [])
      as (out & Hout & Hlen & Hall); [lia | lia | constructor |].
    exists out. done.
  - intros Hd. apply predict_loop_overflow; lia.
Qed.
